(** * Verification of the inference core of zerone (jahmm)

    A shallow embedding of the forward/backward smoother and the Viterbi
    decoder, for one block and for a fragmented series ([hmm.c]), of the
    emission evaluator, the Baum-Welch trainer and the constructors
    ([jahmm.c]), and of the emissions of the two-component mixture
    ([mnmultinom.c]), with the properties of the specification that were
    checked against them and further properties read off the code.

    Left out: [read_file] (it parses its input through [getline],
    [strtok] and the histogram functions of utils.c), [do_jahmm] (it
    calls [mle_zinb] of zinb.c and hands [set_jahmm_par] arrays of one
    entry), [apologize], [new_hmm_p] and [destroy_hmm_p] (messages and
    memory management only).

    The C code computes on [double]s.  The embedding is written once,
    over an interface [Arith] of the arithmetic the code uses, and is
    then read at two instances:
    - [ieee64]: IEEE 754 binary64 with round-to-nearest-even, as given
      by the Standard Library's [SpecFloat] (executable, with NaN,
      infinities and signed zeros);
    - [exact]: exact rational arithmetic extended with one NaN
      (division by zero yields NaN; there is no rounding and no
      infinity), the arithmetic in which the algebraic identities of
      the specification are meant.
    The functions of libm ([exp], [log], [pow], [lgamma]) are not part
    of the repository; they are a parameter [Libm] of the embedding.
    A third instance, [x87], is the [long double] in which [viterbi]
    keeps its running sums.

    Conventions.  A C array is a list, [a[i]] is [get d a i] and a
    store [a[i] = v] is [<[i:=v]> a]; matrices keep the code's index
    arithmetic ([Q[i+j*m]]).  A [for] loop is a fold over its index
    range ([for_]), a [while] loop takes a bound on its number of turns
    ([while_]).  Buffers obtained from [malloc] are modelled where the
    code fills them before reading; the failure of [malloc] and the
    messages written to [stderr] are left out. *)

From stdpp Require Import base list.
From Stdlib Require Import ZArith QArith Qcanon Lia.
From Stdlib Require Import Floats.SpecFloat.

Set Default Proof Using "Type".
Close Scope Qc_scope.
Close Scope Q_scope.
Open Scope nat_scope.

(* ================================================================= *)
(** ** The arithmetic of [double] *)

Class Arith (F : Type) := {
  fzero : F;                      (* 0.0 *)
  fone : F;                       (* 1.0 *)
  fnan : F;                       (* NAN *)
  fadd : F -> F -> F;
  fsub : F -> F -> F;
  fmul : F -> F -> F;
  fdiv : F -> F -> F;
  fneg : F -> F;                  (* unary minus *)
  fabs : F -> F;                  (* fabs *)
  fltb : F -> F -> bool;          (* x < y, false when either is NaN *)
  feqb : F -> F -> bool;          (* x == y, false when either is NaN *)
  of_int : Z -> F;                (* conversion of an int *)
}.

(** The functions of libm that the code calls. *)
Class Libm (F : Type) := {
  c_exp : F -> F;
  c_log : F -> F;
  c_pow : F -> F -> F;
  c_lgamma : F -> F;
}.

Declare Scope fl_scope.
Delimit Scope fl_scope with fl.
Notation "x + y" := (fadd x y) : fl_scope.
Notation "x - y" := (fsub x y) : fl_scope.
Notation "x * y" := (fmul x y) : fl_scope.
Notation "x / y" := (fdiv x y) : fl_scope.
Notation "- x" := (fneg x) : fl_scope.
Notation "x <? y" := (fltb x y) : fl_scope.
Notation "x >? y" := (fltb y x) : fl_scope.

(** [x != x], the test for NaN that the code uses. *)
Definition isnan {F} `{Arith F} (x : F) : bool := negb (feqb x x).

(** A literal [n/d] of the source ([.5], [1e-6], [1e-3]): the quotient of
    two exactly represented integers, hence the nearest [double]. *)
Definition lit {F} `{Arith F} (n d : Z) : F := (of_int n / of_int d)%fl.

Definition MAXITER : nat := 500.
Definition JAHMM_MAXITER : nat := 25.
Definition TOLERANCE {F} `{Arith F} : F := lit 1 1000000.

(* ================================================================= *)
(** ** Arrays and loops *)

Section Arrays.
Context {A : Type}.

(** [a[i]]; the code never reads out of range. *)
Definition get (d : A) (a : list A) (i : nat) : A := nth i a d.

(** [for (i = lo ; i < lo + n ; i++) s = body(i, s)] *)
Definition for_ {St : Type} (lo n : nat) (body : nat -> St -> St) (s : St)
    : St :=
  fold_left (fun s i => body i s) (seq lo n) s.

(** [memcpy(dst + doff, src + soff, m * sizeof( * dst))] *)
Definition memcpy (d : A) (doff soff m : nat) (src dst : list A) : list A :=
  for_ 0 m (fun j dst => <[j + doff := get d src (j + soff)]> dst) dst.

(** [memset(dst, 0, m * sizeof( * dst))], [z] being the zero of [A]. *)
Definition memset (z : A) (m : nat) (dst : list A) : list A :=
  for_ 0 m (fun j dst => <[j := z]> dst) dst.

(** The [m] entries of [a] from [off] on. *)
Definition slice (d : A) (off m : nat) (a : list A) : list A :=
  map (fun j => get d a (j + off)) (seq 0 m).
End Arrays.
Arguments get {A} d a i%_nat.

(** [while (cond(s)) s = body(s)], with a bound on the number of turns:
    [None] when the bound is reached. *)
Fixpoint while_ {St : Type} (fuel : nat) (cond : St -> bool)
    (body : St -> St) (s : St) : option St :=
  if cond s then
    match fuel with
    | O => None
    | S fuel' => while_ fuel' cond body (body s)
    end
  else Some s.

(** The offset [m * (size[0] + ... + size[i-1])] and the size of every
    block of a partition. *)
Fixpoint block_views (m offset : nat) (size : list nat) : list (nat * nat) :=
  match size with
  | [] => []
  | sz :: rest => (offset, sz) :: block_views m (offset + m * sz) rest
  end.

Section Sums.
Context {F : Type} {AF : Arith F}.

(** [x = 0.0; for (i = 0 ; i < n ; i++) x += f(i);] *)
Definition sumf (n : nat) (f : nat -> F) : F :=
  for_ 0 n (fun i x => (x + f i)%fl) fzero.

(** The sum of a vector, accumulated from [0.0] in the order of its
    entries. *)
Definition vsum (v : list F) : F := fold_left fadd v fzero.
End Sums.

(* ================================================================= *)
(** ** hmm.c: forward, backward, block driver *)

Section Hmm.
Context {F : Type} {AF : Arith F} {LM : Libm F}.
Local Notation "a .[ i ]" := (get fzero a i) (at level 1, format "a .[ i ]").

(** [tmp[j] = sum_i a[i] * Q[i+j*m]], accumulated from [0.0] in the
    order of the source. *)
Definition predict (m : nat) (a Q : list F) : list F :=
  map (fun j => sumf m (fun i => (a.[i] * Q.[i + j * m])%fl)) (seq 0 m).

(** [w = 0; for (j = 1 ; j < m ; j++) if (prob[j+k*m] > prob[w+k*m]) w = j;] *)
Definition argmax_row (m k : nat) (prob : list F) : nat :=
  for_ 1 (m - 1)
    (fun j w => if (prob.[j + k * m] >? prob.[w + k * m])%fl then j else w) 0.

(** One turn of the loop of [fwd] on position [k]; the state is the
    current normalized alpha [a], the array [prob] and [loglik]. *)
Definition fwd_step (m : nat) (Q init : list F) (k : nat)
    (st : list F * list F * F) : list F * list F * F :=
  let '(a, prob, loglik) := st in
  let tmp := if Nat.eqb k 0 then slice fzero 0 m init else predict m a Q in
  if existsb (fun j => isnan prob.[j + k * m]) (seq 0 m) then
    (* NA found: ignore the emissions. *)
    (tmp, memcpy fzero (k * m) 0 m tmp prob, loglik)
  else
    let logspace := (prob.[0 + k * m] <? fzero)%fl in
    let w := argmax_row m k prob in
    let a1 :=
      if logspace then
        map (fun j => (tmp.[j] * c_exp (prob.[j + k * m] - prob.[w + k * m]))%fl)
            (seq 0 m)
      else map (fun j => (tmp.[j] * prob.[j + k * m])%fl) (seq 0 m) in
    let c := vsum a1 in
    let loglik1 := if logspace then (loglik + prob.[w + k * m])%fl else loglik in
    if negb (c >? fzero)%fl then
      (tmp, memcpy fzero (k * m) 0 m tmp prob, loglik1)
    else
      let a2 := map (fun x => (x / c)%fl) a1 in
      (a2, memcpy fzero (k * m) 0 m a2 prob, (loglik1 + c_log c)%fl).

(** The state of [fwd] after the positions [0 .. n-1]. *)
Definition fwd_loop (m n : nat) (Q init prob : list F) : list F * list F * F :=
  for_ 0 n (fwd_step m Q init) (repeat fzero m, prob, fzero).

(** [fwd(m, n, Q, init, prob)]: the returned log-likelihood and [prob],
    overwritten by the forward alphas. *)
Definition fwd (m n : nat) (Q init prob : list F) : F * list F :=
  let '(_, prob', loglik) := fwd_loop m n Q init prob in (loglik, prob').

(** The sum [x] that [bwd] accumulates for the column [j] at position [k]. *)
Definition revdenom (m k : nat) (alpha Q : list F) (j : nat) : F :=
  sumf m (fun i => (alpha.[i + k * m] * Q.[i + j * m])%fl).

(** The entry [R[j+i*m]] of the reverse kernel at position [k].  [R] is
    a scratch array of [bwd], written at every index [j+i*m] before it
    is read: it is modelled as the function of [j] and [i]. *)
Definition revkernel (m k : nat) (alpha Q : list F) (j i : nat) : F :=
  (alpha.[i + k * m] * Q.[i + j * m] / revdenom m k alpha Q j)%fl.

(** One turn of the backward loop, on position [k]: the state is
    ([phi], [T]). *)
Definition bwd_step (m : nat) (Q alpha : list F) (k : nat)
    (st : list F * list F) : list F * list F :=
  for_ 0 m (fun j =>
    for_ 0 m (fun i '(phi, T) =>
      let x := (phi.[i + (k + 1) * m] * revkernel m k alpha Q i j)%fl in
      (<[j + k * m := (phi.[j + k * m] + x)%fl]> phi,
       <[j + i * m := (T.[j + i * m] + x)%fl]> T))) st.

(** [bwd(m, n, Q, alpha, phi, T)]: the updated [phi] and [T].  [T] is an
    output buffer of [m*m] entries that [bwd] first clears. *)
Definition bwd (m n : nat) (Q alpha phi : list F) : list F * list F :=
  let T := repeat fzero (m * m) in
  let phi := memset fzero (m * n) phi in
  let phi := memcpy fzero ((n - 1) * m) ((n - 1) * m) m alpha phi in
  fold_left (fun st k => bwd_step m Q alpha k st) (rev (seq 0 (n - 1))) (phi, T).

(** [fwdb]: log-likelihood, alphas, [phi], [T]. *)
Definition fwdb (m n : nat) (Q init prob phi : list F)
    : F * list F * list F * list F :=
  let '(loglik, alpha) := fwd m n Q init prob in
  let '(phi', T) := bwd m n Q alpha phi in
  (loglik, alpha, phi', T).

(** The result of [block_fwdb]. *)
Record fwdb_out := {
  out_prob : list F;
  out_phi : list F;
  out_sumtrans : list F;
  out_loglik : F;
}.

(** One block of [block_fwdb]: [fwdb] on the views [prob + offset] and
    [phi + offset], then the accumulation of [T] and of the offset. *)
Definition block_step (m : nat) (Q init : list F) (sz : nat)
    (st : nat * fwdb_out) : nat * fwdb_out :=
  let '(offset, o) := st in
  let '(ll, pv, phiv, T) :=
    fwdb m sz Q init (drop offset (out_prob o)) (drop offset (out_phi o)) in
  (offset + m * sz,
   {| out_prob := take offset (out_prob o) ++ pv;
      out_phi := take offset (out_phi o) ++ phiv;
      out_sumtrans :=
        for_ 0 (m * m) (fun j s => <[j := (s.[j] + T.[j])%fl]> s) (out_sumtrans o);
      out_loglik := (out_loglik o + ll)%fl |}).

(** The state of [block_fwdb], the offset and the outputs, after the
    first [n] blocks. *)
Definition blocks_done (m n : nat) (size : list nat) (Q init prob phi : list F)
    : nat * fwdb_out :=
  for_ 0 n (fun i => block_step m Q init (get 0 size i))
    (0, {| out_prob := prob; out_phi := phi;
           out_sumtrans := repeat fzero (m * m); out_loglik := fzero |}).

(** [block_fwdb(m, nblocks, size, Q, init, prob, phi, sumtrans, &loglik)] *)
Definition block_fwdb (m nblocks : nat) (size : list nat)
    (Q init prob phi : list F) : fwdb_out :=
  snd (blocks_done m nblocks size Q init prob phi).

(** [block_fwdb] run on the block [v] = (offset, size) alone, with
    [nblocks = 1], on the views [prob + offset] and [phi + offset]. *)
Definition block_alone (m : nat) (Q init prob phi : list F) (v : nat * nat)
    : fwdb_out :=
  block_fwdb m 1 [snd v] Q init (drop (fst v) prob) (drop (fst v) phi).

(** The log-likelihood and the matrix [T] that [fwdb] returns for the
    block [v]. *)
Definition block_ll (m : nat) (Q init prob phi : list F) (v : nat * nat) : F :=
  fst (fst (fst (fwdb m (snd v) Q init (drop (fst v) prob) (drop (fst v) phi)))).

Definition block_T (m : nat) (Q init prob phi : list F) (v : nat * nat)
    : list F :=
  snd (fwdb m (snd v) Q init (drop (fst v) prob) (drop (fst v) phi)).

(** The sum of the row [i] of [trans], as [update_trans] accumulates it. *)
Definition trans_rowsum (m : nat) (trans : list F) (i : nat) : F :=
  sumf m (fun j => trans.[i + j * m]).

(** [update_trans(m, Q, trans)] of jahmm.c. *)
Definition update_trans (m : nat) (Q trans : list F) : list F :=
  for_ 0 m (fun i Q =>
    let sum := trans_rowsum m trans i in
    for_ 0 m (fun j Q => <[i + j * m := (trans.[i + j * m] / sum)%fl]> Q) Q) Q.
End Hmm.
Arguments fwdb_out F : clear implicits.

(* ================================================================= *)
(** ** hmm.c: the Viterbi decoder *)

(** [viterbi] keeps its running maxima in [long double] and the
    intermediates [thismax] and [tmp] in [double]: [F] is the arithmetic
    of [double], [L] that of [long double], [widen] the (exact)
    conversion from the first to the second and [narrow] the (rounding)
    conversion back. *)
Section Viterbi.
Context {F L : Type} {AF : Arith F} {AL : Arith L}.
Variable widen : F -> L.
Variable narrow : L -> F.
Local Notation "a .[ i ]" := (get fzero a i) (at level 1, format "a .[ i ]").

(** [for (j = 0 ; j < m ; j++) newmax[j] = log_i[j+0*m] + log_p[j+0*m];] *)
Definition viterbi_init (m : nat) (log_i log_p : list F) (newmax : list L)
    : list L :=
  for_ 0 m (fun j nm =>
    <[j := widen (log_i.[j + 0 * m] + log_p.[j + 0 * m])%fl]> nm) newmax.

(** The inner loop of the recursion for the state [j]: the final
    [thismax] and [argmax[j+k*m]]. *)
Definition viterbi_cell (m : nat) (log_Q : list F) (oldmax : list L) (j : nat)
    : F * nat :=
  for_ 1 (m - 1) (fun i '(thismax, arg) =>
      let tmp := narrow (oldmax.[i] + widen log_Q.[i + j * m])%fl in
      if (tmp >? thismax)%fl then (tmp, i) else (thismax, arg))
    (narrow (oldmax.[0] + widen log_Q.[0 + j * m])%fl, 0).

(** One turn of the recursion, on position [k]: the state is
    ([oldmax], [newmax], [argmax]). *)
Definition viterbi_step (m : nat) (log_Q log_p : list F) (k : nat)
    (st : list L * list L * list nat) : list L * list L * list nat :=
  let '(oldmax0, newmax0, argmax) := st in
  (* Set newmax to oldmax (by swapping). *)
  let '(oldmax, newmax) := (newmax0, oldmax0) in
  for_ 0 m (fun j '(oldmax, newmax, argmax) =>
      let '(thismax, arg) := viterbi_cell m log_Q oldmax j in
      (oldmax,
       <[j := widen (thismax + log_p.[j + k * m])%fl]> newmax,
       <[j + k * m := arg]> argmax))
    (oldmax, newmax, argmax).

(** [final_state = 0;
     for (j = 1 ; j < m ; j++) if (newmax[j] > newmax[0]) final_state = j;] *)
Definition final_state (m : nat) (newmax : list L) : nat :=
  for_ 1 (m - 1) (fun j fs => if (newmax.[j] >? newmax.[0])%fl then j else fs) 0.

(** [for (k = n-2 ; k >= 0 ; k--) path[k] = argmax[path[k+1]+(k+1)*m];] *)
Definition traceback (m n : nat) (argmax path : list nat) : list nat :=
  fold_left (fun path k =>
      <[k := get 0 argmax (get 0 path (k + 1) + (k + 1) * m)]> path)
    (rev (seq 0 (n - 1))) path.

(** The maxima [newmax] after the last position of the block. *)
Definition viterbi_newmax (m n : nat) (log_Q log_i log_p : list F)
    : list L * list nat :=
  let oldmax := repeat fzero m in
  let newmax := viterbi_init m log_i log_p (repeat fzero m) in
  let '(_, newmax, argmax) :=
    for_ 1 (n - 1) (viterbi_step m log_Q log_p)
      (oldmax, newmax, repeat 0 (m * n)) in
  (newmax, argmax).

(** [viterbi(m, n, log_Q, log_i, log_p, path)]: the updated [path]. *)
Definition viterbi (m n : nat) (log_Q log_i log_p : list F) (path : list nat)
    : list nat :=
  let '(newmax, argmax) := viterbi_newmax m n log_Q log_i log_p in
  let path := <[n - 1 := final_state m newmax]> path in
  traceback m n argmax path.
End Viterbi.

(* ================================================================= *)
(** ** jahmm.c: observations, parameters, emission probabilities *)

(** [struct ChIP_t] *)
Record ChIP_t := {
  chip_r : nat;             (* number of dimensions of 'y' *)
  chip_nb : nat;            (* number of blocks *)
  chip_y : list Z;          (* observations *)
  chip_size : list nat;     (* size of the blocks *)
}.

(** The number of observations: the sum of [size] over the [nb] blocks. *)
Definition chip_n (c : ChIP_t) : nat :=
  for_ 0 (chip_nb c) (fun i temp => temp + get 0 (chip_size c) i) 0.

(** [is_invalid(y, k, r)] *)
Definition is_invalid (y : list Z) (k r : nat) : bool :=
  existsb (fun i => (get 0 y (i + k * r) <? 0)%Z) (seq 0 r).

(** [is_all_zero(y, k, r)] *)
Definition is_all_zero (y : list Z) (k r : nat) : bool :=
  forallb (fun i => (get 0 y (i + k * r) =? 0)%Z) (seq 0 r).

(** Modelled from the spec: [indexts] of utils.c, which is not among the
    sources.  "For each k in order, idx[k] is the smallest k' <= k with
    Y[k'] == Y[k]"; the returned value is "the position i0 of the first
    all-zero row (or a sentinel if absent)", the sentinel being taken as
    [-1]. *)
Definition same_row (y : list Z) (r k k' : nat) : bool :=
  forallb (fun j => (get 0 y (j + k * r) =? get 0 y (j + k' * r))%Z) (seq 0 r).

Definition indexts (n r : nat) (y : list Z) : Z * list Z :=
  (match find (fun k => is_all_zero y k r) (seq 0 n) with
   | Some k => Z.of_nat k
   | None => (-1)%Z
   end,
   map (fun k =>
          match find (same_row y r k) (seq 0 (S k)) with
          | Some k' => Z.of_nat k'
          | None => Z.of_nat k
          end) (seq 0 n)).

(** The output types of [zinm_prob], selected by [otype & 3]. *)
Inductive output_type := depends | log_space | lin_space.

(** [cases[otype & 3]]; [cases] has three entries, the fourth index is
    out of its bounds. *)
Definition output_type_of (otype : Z) : option output_type :=
  match Z.land otype 3 with
  | 0%Z => Some depends
  | 1%Z => Some log_space
  | 2%Z => Some lin_space
  | _ => None
  end.

(** How a call of [zinm_prob] ends. *)
Inductive zinm_status :=
  | Zinm_done                 (* 'pem' was updated *)
  | Zinm_negative_p           (* "error: 'p' negative", 'pem' untouched *)
  | Zinm_undefined.           (* otype & 3 == 3: no such output type *)

Section Jahmm.
Context {F : Type} {AF : Arith F} {LM : Libm F}.
Local Notation "a .[ i ]" := (get fzero a i) (at level 1, format "a .[ i ]").

(** [struct jahmm_t]; [NULL] pointers are [None]. *)
Record jahmm_t := {
  jm : nat;                       (* number of states *)
  jChIP : ChIP_t;                 (* observations *)
  jQ : list F;                    (* transitions *)
  ja : F;                         (* emission par *)
  jpi : F;                        (* emission par *)
  jp : list F;                    (* emission par *)
  jpem : option (list F);         (* emission probs *)
  jphi : option (list F);         (* posterior probs *)
  jpath : option (list nat);      (* Viterbi path *)
  jl : F;                         (* log-likelihood *)
}.

(** [sump] for the state [i]. *)
Definition sump (r : nat) (p : list F) (i : nat) : F :=
  sumf (r + 1) (fun j => p.[j + i * (r + 1)]).

(** The array [logp]: [logp[j+i*(r+1)] = log(p[j+i*(r+1)] / sump)]. *)
Definition logp_of (m r : nat) (p : list F) : list F :=
  map (fun x => c_log (p.[x] / sump r p (x / (r + 1)))%fl) (seq 0 (m * (r + 1))).

(** Whether some entry of [p] is negative. *)
Definition p_negative (m r : nat) (p : list F) : bool :=
  existsb (fun i =>
    existsb (fun j => (p.[j + i * (r + 1)] <? fzero)%fl) (seq 0 (r + 1)))
    (seq 0 m).

(** The zero-inflated term, for an observation that is all zeros. *)
Definition zinm_zero_term (a pi : F) (r : nat) (logp : list F) (i : nat) : F :=
  c_log (pi * c_exp (a * logp.[0 + i * (r + 1)]) + (fone - pi))%fl.

(** The standard term. *)
Definition zinm_std_term (a : F) (r : nat) (y : list Z) (logp : list F)
    (k i : nat) : F :=
  for_ 0 r (fun j e =>
      (e + of_int (get 0%Z y (j + k * r)) * logp.[(j + 1) + i * (r + 1)])%fl)
    (a * logp.[0 + i * (r + 1)])%fl.

(** The constant term [c_term] of the observation [k]. *)
Definition zinm_c_term (a : F) (r : nat) (y : list Z) (k : nat) : F :=
  let '(c_term, sum) :=
    for_ 0 r (fun j '(c_term, sum) =>
        let term := get 0%Z y (j + k * r) in
        ((c_term - c_lgamma (of_int (term + 1)))%fl, (sum + of_int term)%fl))
      ((- c_lgamma a)%fl, a) in
  (c_term + c_lgamma sum)%fl.

(** The row of emissions computed for a first occurrence [k]. *)
Definition zinm_row (m r : nat) (y : list Z) (a pi : F) (logp : list F)
    (constant_terms : bool) (ot : output_type) (k : nat) : list F :=
  if is_invalid y k r then repeat fnan m
  else
    let e0 :=
      if is_all_zero y k r then map (zinm_zero_term a pi r logp) (seq 0 m)
      else map (zinm_std_term a r y logp k) (seq 0 m) in
    let e1 :=
      if constant_terms then map (fun e => (e + zinm_c_term a r y k)%fl) e0
      else e0 in
    match ot with
    | log_space => e1
    | _ =>
        let lin := map c_exp e1 in
        let sum := vsum lin in
        if (sum >? fzero)%fl || match ot with lin_space => true | _ => false end
        then lin else e1
    end.

(** One turn of the main loop of [zinm_prob]. *)
Definition zinm_step (m r : nat) (y : list Z) (a pi : F) (logp : list F)
    (constant_terms : bool) (ot : output_type) (index : list Z) (k : nat)
    (pem : list F) : list F :=
  if (get 0%Z index k <? Z.of_nat k)%Z then
    memcpy fzero (k * m) (Z.to_nat (get 0%Z index k) * m) m pem pem
  else
    memcpy fzero (k * m) 0 m
      (zinm_row m r y a pi logp constant_terms ot k) pem.

(** The main loop of [zinm_prob] over the observations [0 .. n-1]. *)
Definition zinm_loop (m r : nat) (y : list Z) (a pi : F) (logp : list F)
    (constant_terms : bool) (ot : output_type) (index : list Z) (n : nat)
    (pem : list F) : list F :=
  for_ 0 n (zinm_step m r y a pi logp constant_terms ot index) pem.

(** [zinm_prob(jahmm, index, otype, pem)]: how the call ends, and [pem]. *)
Definition zinm_prob (jahmm : jahmm_t) (index : list Z) (otype : Z)
    (pem : list F) : zinm_status * list F :=
  let ChIP := jChIP jahmm in
  let r := chip_r ChIP in
  let m := jm jahmm in
  let n := chip_n ChIP in
  match output_type_of otype with
  | None => (Zinm_undefined, pem)
  | Some ot =>
      let constant_terms := Z.testbit otype 3 in
      if p_negative m r (jp jahmm) then (Zinm_negative_p, pem)
      else
        let logp := logp_of m r (jp jahmm) in
        (Zinm_done,
         zinm_loop m r (chip_y ChIP) (ja jahmm) (jpi jahmm) logp
           constant_terms ot index n pem)
  end.
End Jahmm.
Arguments jahmm_t F : clear implicits.

(* ================================================================= *)
(** ** jahmm.c: the Baum-Welch trainer *)

(** How a computation that may abort ends. *)
Inductive outcome (A : Type) :=
  | Done (x : A)
  | Bracketing_failed       (* "cannot complete Baum-Welch algorithm" *)
  | Out_of_fuel.            (* a [while] loop exceeded the bound of the model *)
Arguments Done {A} x.
Arguments Bracketing_failed {A}.
Arguments Out_of_fuel {A}.

Section BaumWelch.
Context {F : Type} {AF : Arith F} {LM : Libm F}.
Local Notation "a .[ i ]" := (get fzero a i) (at level 1, format "a .[ i ]").

(** [sq] of utils.h. *)
Definition sq (x : F) : F := (x * x)%fl.

(** [eval_bw_f(a, pi, p0, A, B, C, D, E)] *)
Definition eval_bw_f (a pi p0 A B C D E : F) : F :=
  let term1 := ((D + a * A) / p0)%fl in
  let term2 :=
    (B * pi * a * c_pow p0 (a - fone) / (pi * c_pow p0 a + fone - pi))%fl in
  (p0 + E / (term1 + term2) - fone / C)%fl.

(** [eval_bw_dfdp0(a, pi, p0, A, B, C, D, E)] *)
Definition eval_bw_dfdp0 (a pi p0 A B C D E : F) : F :=
  let two := of_int 2 in
  let term1 := ((D + a * A) / p0)%fl in
  let term2 :=
    (B * pi * a * c_pow p0 (a - fone) / (pi * c_pow p0 a + fone - pi))%fl in
  let subterm3a :=
    ((fone - pi) * pi * a * (a - fone) * c_pow p0 (a - two))%fl in
  let subterm3b := (sq pi * a * c_pow p0 (two * a - two))%fl in
  let term3 :=
    (B * (subterm3a - subterm3b) / sq (pi * c_pow p0 a + fone - pi))%fl in
  let term4 := ((D + a * A) / sq p0)%fl in
  (fone - E / sq (term1 + term2) * (term3 - term4))%fl.

(** The sums [A], [B], [D] and the array [ystar] of a state. *)
Record bw_stats := {
  s_A : F;
  s_B : F;
  s_D : F;
  s_ystar : list F;
}.

(** One turn of the loop over the observations, for the state [i]. *)
Definition bw_sums_step (m r : nat) (y index : list Z) (i0 : Z) (phi : list F)
    (i k : nat) (s : bw_stats) : bw_stats :=
  if (get 0%Z index k =? i0)%Z then
    {| s_A := s_A s; s_B := (s_B s + phi.[i + k * m])%fl; s_D := s_D s;
       s_ystar := s_ystar s |}
  else
    {| s_A := (s_A s + phi.[i + k * m])%fl;
       s_B := s_B s;
       s_D := (s_D s + phi.[i + k * m] * of_int (get 0%Z y (0 + k * r)))%fl;
       s_ystar :=
         for_ 1 (r - 1) (fun j ystar =>
             <[j := (ystar.[j]
                     + phi.[i + k * m] * of_int (get 0%Z y (j + k * r)))%fl]>
               ystar) (s_ystar s) |}.

(** "Compute the constants" for the state [i]. *)
Definition bw_sums (m r n : nat) (y index : list Z) (i0 : Z) (phi : list F)
    (i : nat) : bw_stats :=
  for_ 0 n (bw_sums_step m r y index i0 phi i)
    {| s_A := fzero; s_B := fzero; s_D := fzero;
       s_ystar := memset fzero r (repeat fzero r) |}.

(** [for (j = 1 ; j < r ; j++) E += ystar[j];] *)
Definition bw_E (r : nat) (ystar : list F) : F :=
  for_ 1 (r - 1) (fun j E => (E + ystar.[j])%fl) fzero.

(** "Find upper and lower bound for 'p0'": ([p0], [p0_lo], [p0_hi]) after
    the bracketing, [None] when a [while] loop exceeds [fuel]. *)
Definition bw_bracket (fuel : nat) (a pi A B C D E : F)
    : option (F * F * F) :=
  let f p0 := eval_bw_f a pi p0 A B C D E in
  let two := of_int 2 in
  let p0 := lit 5 10 in
  if (f p0 <? fzero)%fl then
    match while_ fuel (fun p0 => (f p0 <? fzero)%fl)
                 (fun p0 => (p0 * two)%fl) (p0 * two)%fl with
    | Some p0 => Some (p0, (p0 / two)%fl, p0)
    | None => None
    end
  else
    match while_ fuel (fun p0 => (f p0 >? fzero)%fl)
                 (fun p0 => (p0 / two)%fl) (p0 / two)%fl with
    | Some p0 => Some (p0, p0, (p0 * two)%fl)
    | None => None
    end.

(** The state of the Newton loop; [nw_break] is set by [break]. *)
Record newton_st := {
  nw_p0 : F;
  nw_lo : F;
  nw_hi : F;
  nw_new : F;
  nw_break : bool;
}.

(** One turn of the Newton loop. *)
Definition bw_newton_step (a pi A B C D E : F) (s : newton_st) : newton_st :=
  if nw_break s then s
  else
    let two := of_int 2 in
    let p0 :=
      if (nw_new s <? nw_lo s)%fl || (nw_new s >? nw_hi s)%fl
      then ((nw_lo s + nw_hi s) / two)%fl else nw_new s in
    let f := eval_bw_f a pi p0 A B C D E in
    let hi := if (f >? fzero)%fl then p0 else nw_hi s in
    let lo := if (f >? fzero)%fl then nw_lo s else p0 in
    if ((hi - lo) <? TOLERANCE)%fl then
      {| nw_p0 := p0; nw_lo := lo; nw_hi := hi; nw_new := nw_new s;
         nw_break := true |}
    else
      let dfdp0 := eval_bw_dfdp0 a pi p0 A B C D E in
      {| nw_p0 := p0; nw_lo := lo; nw_hi := hi;
         nw_new := (p0 - f / dfdp0)%fl; nw_break := false |}.

(** The value of [p0] after the Newton loop started from the bounds
    ([lo], [hi]), [p0] being the value left by the bracketing. *)
Definition bw_newton (a pi A B C D E p0 lo hi : F) : F :=
  nw_p0 (for_ 0 JAHMM_MAXITER (fun _ => bw_newton_step a pi A B C D E)
           {| nw_p0 := p0; nw_lo := lo; nw_hi := hi;
              nw_new := ((lo + hi) / of_int 2)%fl; nw_break := false |}).

(** [normconst] *)
Definition bw_normconst (a pi A B C D p0 : F) : F :=
  let term1 := ((D + a * A) / p0)%fl in
  let term2 :=
    (B * pi * a * c_pow p0 (a - fone) / (pi * c_pow p0 a + fone - pi))%fl in
  ((term1 + term2) / C)%fl.

(** The entries of [newp] written for the state [i], given [p0]. *)
Definition bw_write_newp (r : nat) (a pi R A B C D : F) (ystar : list F)
    (p0 : F) (i : nat) (newp : list F) : list F :=
  let newp := <[0 + i * (r + 1) := p0]> newp in
  let newp := <[1 + i * (r + 1) := (p0 * R)%fl]> newp in
  let normconst := bw_normconst a pi A B C D p0 in
  for_ 1 (r - 1) (fun j newp =>
      <[(j + 1) + i * (r + 1) := (ystar.[j] / normconst)%fl]> newp) newp.

(** The root [p0] found for the state [i]. *)
Definition bw_root (fuel : nat) (a pi A B C D E : F) : outcome F :=
  match bw_bracket fuel a pi A B C D E with
  | None => Out_of_fuel
  | Some (p0, p0_lo, p0_hi) =>
      if (p0_lo >? fone)%fl || (p0_hi <? fzero)%fl then Bracketing_failed
      else Done (bw_newton a pi A B C D E p0 p0_lo p0_hi)
  end.

(** The body of the loop "Update 'p'" for the state [i]. *)
Definition bw_update_state (fuel m r n : nat) (y index : list Z) (i0 : Z)
    (a pi R : F) (phi : list F) (i : nat) (newp : list F)
    : outcome (list F) :=
  let s := bw_sums m r n y index i0 phi i in
  let C := (fone + R)%fl in
  let E := bw_E r (s_ystar s) in
  match bw_root fuel a pi (s_A s) (s_B s) C (s_D s) E with
  | Done p0 =>
      Done (bw_write_newp r a pi R (s_A s) (s_B s) C (s_D s) (s_ystar s) p0 i
              newp)
  | Bracketing_failed => Bracketing_failed
  | Out_of_fuel => Out_of_fuel
  end.

(** The loop "Update 'p'" over the states. *)
Definition bw_update_p (fuel m r n : nat) (y index : list Z) (i0 : Z)
    (a pi R : F) (phi : list F) (newp : list F) : outcome (list F) :=
  for_ 0 m (fun i acc =>
      match acc with
      | Done newp => bw_update_state fuel m r n y index i0 a pi R phi i newp
      | _ => acc
      end) (Done newp).

(** "Check convergence": [maxd]. *)
Definition bw_maxd (m r : nat) (newp p : list F) : F :=
  for_ 0 (m * (r + 1)) (fun i maxd =>
      let thisd := fabs (newp.[i] - p.[i])%fl in
      if (thisd >? maxd)%fl then thisd else maxd) fzero.

(** The working buffers of [bw_zinm] beside the parameters. *)
Record bw_buffers := {
  b_pem : list F;
  b_phi : list F;
  b_newp : list F;
}.

(** How one Baum-Welch cycle ends, with the structure [jahmm] as the
    cycle leaves it. *)
Inductive cycle :=
  | Continue (j : jahmm_t F) (b : bw_buffers)     (* 'p' overwritten by 'newp' *)
  | Converged (j : jahmm_t F) (b : bw_buffers)    (* break *)
  | Aborted (j : jahmm_t F)                       (* bracketing failed: return *)
  | Starved.                                      (* bound of the model exceeded *)

(** "Update emission probabilities and run the block forward backward
    algorithm": the result of [block_fwdb] in a cycle. *)
Definition cycle_fwdb (index : list Z) (prob : list F) (jahmm : jahmm_t F)
    (b : bw_buffers) : fwdb_out F :=
  block_fwdb (jm jahmm) (chip_nb (jChIP jahmm)) (chip_size (jChIP jahmm))
    (jQ jahmm) prob (snd (zinm_prob jahmm index 4 (b_pem b))) (b_phi b).

(** One Baum-Welch cycle: the body of the loop over [iter]. *)
Definition bw_cycle (fuel : nat) (index : list Z) (i0 : Z) (R : F)
    (prob : list F) (jahmm : jahmm_t F) (b : bw_buffers) : cycle :=
  let ChIP := jChIP jahmm in
  let m := jm jahmm in
  let r := chip_r ChIP in
  let n := chip_n ChIP in
  let o := cycle_fwdb index prob jahmm b in
  let l := out_loglik o in
  let trans := out_sumtrans o in
  (* Update 'Q'. *)
  let Q := update_trans m (jQ jahmm) trans in
  let jahmm :=
    {| jm := m; jChIP := ChIP; jQ := Q; ja := ja jahmm; jpi := jpi jahmm;
       jp := jp jahmm; jpem := jpem jahmm; jphi := jphi jahmm;
       jpath := jpath jahmm; jl := l |} in
  (* Update 'p'. *)
  match bw_update_p fuel m r n (chip_y ChIP) index i0 (ja jahmm) (jpi jahmm) R
          (out_phi o) (b_newp b) with
  | Bracketing_failed => Aborted jahmm
  | Out_of_fuel => Starved
  | Done newp =>
      let b := {| b_pem := out_prob o; b_phi := out_phi o; b_newp := newp |} in
      if (bw_maxd m r newp (jp jahmm) <? TOLERANCE)%fl then Converged jahmm b
      else
        Continue
          {| jm := m; jChIP := ChIP; jQ := Q; ja := ja jahmm; jpi := jpi jahmm;
             jp := memcpy fzero 0 0 (m * (r + 1)) newp (jp jahmm);
             jpem := jpem jahmm; jphi := jphi jahmm; jpath := jpath jahmm;
             jl := l |} b
  end.

(** The loop over [iter], at most [iters] cycles; [Continue] when the
    loop ends without [break]. *)
Fixpoint bw_cycles (iters fuel : nat) (index : list Z) (i0 : Z) (R : F)
    (prob : list F) (jahmm : jahmm_t F) (b : bw_buffers) : cycle :=
  match iters with
  | O => Continue jahmm b
  | S iters' =>
      match bw_cycle fuel index i0 R prob jahmm b with
      | Continue jahmm' b' => bw_cycles iters' fuel index i0 R prob jahmm' b'
      | c => c
      end
  end.

(** [bw_zinm(jahmm)]: the structure [jahmm] when the call returns, or
    [None] when a [while] loop exceeded [fuel].  [pem0] and [phi0] stand
    for the content of the freshly allocated buffers. *)
Definition bw_zinm (fuel : nat) (pem0 phi0 : list F) (jahmm : jahmm_t F)
    : option (jahmm_t F) :=
  let ChIP := jChIP jahmm in
  let n := chip_n ChIP in
  let m := jm jahmm in
  let r := chip_r ChIP in
  let R := ((jp jahmm).[1] / (jp jahmm).[0])%fl in
  let prob := map (fun _ => (fone / of_int (Z.of_nat m))%fl) (seq 0 m) in
  let '(i0, index) := indexts n r (chip_y ChIP) in
  match bw_cycles MAXITER fuel index i0 R prob jahmm
          {| b_pem := pem0; b_phi := phi0;
             b_newp := repeat fzero (m * (r + 1)) |} with
  | Starved => None
  | Aborted jahmm' => Some jahmm'
  | Continue jahmm' b | Converged jahmm' b =>
      (* Compute final emission probs in log space. *)
      let pem := snd (zinm_prob jahmm' index 5 (b_pem b)) in
      Some {| jm := jm jahmm'; jChIP := jChIP jahmm'; jQ := jQ jahmm';
              ja := ja jahmm'; jpi := jpi jahmm'; jp := jp jahmm';
              jpem := Some pem; jphi := Some (b_phi b);
              jpath := jpath jahmm'; jl := jl jahmm' |}
  end.
(** The update of [P_new[i, j]], [j >= 2], as the specification writes
    it: [ystar_j / ((D + a*A)/p0 + B*pi*a*p0^(a-1)/(pi*p0^a + 1 - pi)) * 1/C]. *)
Definition spec_newp_entry (a pi A B C D p0 ystar_j : F) : F :=
  (ystar_j
   / ((D + a * A) / p0
      + B * pi * a * c_pow p0 (a - fone) / (pi * c_pow p0 a + fone - pi))
   * (fone / C))%fl.
End BaumWelch.
Arguments bw_stats F : clear implicits.
Arguments newton_st F : clear implicits.
Arguments bw_buffers F : clear implicits.
Arguments cycle F : clear implicits.

(* ================================================================= *)
(** ** The two arithmetics *)

(** *** IEEE 754 binary64 *)

Definition double : Type := spec_float.

#[export] Instance ieee64 : Arith double := {|
  fzero := S754_zero false;
  fone := S754_finite false 4503599627370496 (-52);
  fnan := S754_nan;
  fadd := SFadd 53 1024;
  fsub := SFsub 53 1024;
  fmul := SFmul 53 1024;
  fdiv := SFdiv 53 1024;
  fneg := SFopp;
  fabs := SFabs;
  fltb := SFltb;
  feqb := SFeqb;
  of_int := fun z => binary_normalize 53 1024 z 0 false;
|}.

(** *** The x87 extended format of [long double] (64 bits of precision) *)

Record long_double := LD { ld_val : spec_float }.

Definition ld_lift2 (f : spec_float -> spec_float -> spec_float)
    (x y : long_double) : long_double :=
  LD (f (ld_val x) (ld_val y)).

#[export] Instance x87 : Arith long_double := {|
  fzero := LD (S754_zero false);
  fone := LD (S754_finite false 9223372036854775808 (-63));
  fnan := LD S754_nan;
  fadd := ld_lift2 (SFadd 64 16384);
  fsub := ld_lift2 (SFsub 64 16384);
  fmul := ld_lift2 (SFmul 64 16384);
  fdiv := ld_lift2 (SFdiv 64 16384);
  fneg := fun x => LD (SFopp (ld_val x));
  fabs := fun x => LD (SFabs (ld_val x));
  fltb := fun x y => SFltb (ld_val x) (ld_val y);
  feqb := fun x y => SFeqb (ld_val x) (ld_val y);
  of_int := fun z => LD (binary_normalize 64 16384 z 0 false);
|}.

(** The value [x] in the format of precision [prec] and exponent bound
    [emax], rounded to nearest even. *)
Definition sf_convert (prec emax : Z) (x : spec_float) : spec_float :=
  match x with
  | S754_finite s m e => binary_normalize prec emax (cond_Zopp s (Z.pos m)) e s
  | _ => x
  end.

Definition double_to_long (x : double) : long_double := LD (sf_convert 64 16384 x).
Definition long_to_double (x : long_double) : double := sf_convert 53 1024 (ld_val x).

(** A [double] from a decimal literal [n/d]. *)
Definition dbl (n d : Z) : double := lit n d.

(** The zeros of binary64, of either sign. *)
Definition is_zero (x : double) : Prop :=
  match x with S754_zero _ => True | _ => False end.

(** *** Exact arithmetic: rationals and one NaN *)

Inductive xq := XNaN | XQ (q : Qc).

Definition xq_lift2 (f : Qc -> Qc -> Qc) (x y : xq) : xq :=
  match x, y with
  | XQ a, XQ b => XQ (f a b)
  | _, _ => XNaN
  end.

Definition xq_lift1 (f : Qc -> Qc) (x : xq) : xq :=
  match x with
  | XQ a => XQ (f a)
  | XNaN => XNaN
  end.

Definition xq_div (x y : xq) : xq :=
  match x, y with
  | XQ a, XQ b => if Qc_eq_bool b 0%Qc then XNaN else XQ (a / b)%Qc
  | _, _ => XNaN
  end.

Definition xq_ltb (x y : xq) : bool :=
  match x, y with
  | XQ a, XQ b => match (a ?= b)%Qc with Lt => true | _ => false end
  | _, _ => false
  end.

Definition xq_eqb (x y : xq) : bool :=
  match x, y with
  | XQ a, XQ b => Qc_eq_bool a b
  | _, _ => false
  end.

Definition Qc_abs (a : Qc) : Qc :=
  match (a ?= 0)%Qc with Lt => (- a)%Qc | _ => a end.

#[export] Instance exact : Arith xq := {|
  fzero := XQ 0%Qc;
  fone := XQ 1%Qc;
  fnan := XNaN;
  fadd := xq_lift2 Qcplus;
  fsub := xq_lift2 Qcminus;
  fmul := xq_lift2 Qcmult;
  fdiv := xq_div;
  fneg := xq_lift1 Qcopp;
  fabs := xq_lift1 Qc_abs;
  fltb := xq_ltb;
  feqb := xq_eqb;
  of_int := fun z => XQ (Q2Qc (inject_Z z));
|}.

(** The value of a finite number, [0] for NaN. *)
Definition fin (x : xq) : Qc := match x with XQ q => q | XNaN => 0%Qc end.

(** The value as a fraction in lowest terms, [None] for NaN. *)
Definition xq_val (x : xq) : option QArith_base.Q :=
  match x with XQ q => Some (this q) | XNaN => None end.

(** The sum [f 0 + ... + f (n-1)] of rationals. *)
Fixpoint qsumf (n : nat) (f : nat -> Qc) : Qc :=
  match n with
  | O => 0%Qc
  | S n' => (qsumf n' f + f n')%Qc
  end.

(** *** Values of libm used by the concrete runs

    The concrete runs below call libm only at arguments where the result
    is known exactly: [exp(+-0) = 1], [log(1) = 0], [log(+-0) = -1/0]
    (minus infinity in binary64), [pow(x, +-0) = 1] (C11, F.10),
    [pow(x, 1) = x], [pow(x, -1) = 1/x] (the correctly rounded values),
    [lgamma(1) = lgamma(2) = 0].  [libm_fixed] returns these values and
    NaN, for "not determined here", everywhere else. *)
Definition libm_fixed {F} `{Arith F} : Libm F := {|
  c_exp := fun x => if feqb x fzero then fone else fnan;
  c_log := fun x =>
    if feqb x fone then fzero
    else if feqb x fzero then (- (fone / fzero))%fl else fnan;
  c_pow := fun x y =>
    if feqb y fzero then fone
    else if feqb y fone then x
    else if feqb y (of_int (-1)) then (fone / x)%fl
    else fnan;
  c_lgamma := fun x =>
    if feqb x fone || feqb x (of_int 2) then fzero else fnan;
|}.

(** In binary64, [exp(x)] moreover underflows to [+0] for every
    [x <= -746] (e^-746 is below half the least subnormal number). *)
Definition libm_ieee : Libm double := {|
  c_exp := fun x =>
    if SFleb x (of_int (-746)) then S754_zero false
    else c_exp (Libm := libm_fixed) x;
  c_log := c_log (Libm := libm_fixed);
  c_pow := c_pow (Libm := libm_fixed);
  c_lgamma := c_lgamma (Libm := libm_fixed);
|}.

(* ================================================================= *)
(** ** Concrete inputs *)

(** Scenario A of the specification: one block, two states, two tracks. *)
Definition chip_A : ChIP_t := {|
  chip_r := 2;
  chip_nb := 1;
  chip_y := [10; 0; 10; 0; 0; 0; 0; 5]%Z;
  chip_size := [4];
|}.

Definition jahmm_A : jahmm_t double := {|
  jm := 2;
  jChIP := chip_A;
  jQ := [dbl 95 100; dbl 5 100; dbl 5 100; dbl 95 100];
  ja := dbl 2 1;
  jpi := dbl 5 10;
  jp := [dbl 5 10; dbl 3 10; dbl 2 10; dbl 2 10; dbl 5 10; dbl 3 10];
  jpem := None;
  jphi := None;
  jpath := None;
  jl := fzero;
|}.

(** Scenario C of the specification: a single row of zeros, three
    tracks; the rows of [p] sum to one.  In exact arithmetic. *)
Definition chip_C : ChIP_t := {|
  chip_r := 3;
  chip_nb := 1;
  chip_y := [0; 0; 0]%Z;
  chip_size := [1];
|}.

Definition xqc (n d : Z) : xq := lit n d.

Definition jahmm_C : jahmm_t xq := {|
  jm := 2;
  jChIP := chip_C;
  jQ := [xqc 1 2; xqc 1 2; xqc 1 2; xqc 1 2];
  ja := xqc 2 1;
  jpi := xqc 1 2;
  jp := [xqc 1 2; xqc 1 4; xqc 1 8; xqc 1 8; xqc 1 4; xqc 1 4; xqc 1 4; xqc 1 4];
  jpem := None;
  jphi := None;
  jpath := None;
  jl := fzero;
|}.


(** One state, three tracks, one observation: [[1, 1, 1]], or
    [[1, 2, 0]]. *)
Definition obs_111 : list Z := [1; 1; 1]%Z.
Definition obs_120 : list Z := [1; 2; 0]%Z.

(** Observations with a missing value ([-1]) in the second track of the
    rows 0 and 2, and a row of zeros between them; the state 0 emits
    zeros only and there is no zero inflation ([pi = 1]). *)
Definition chip_NA : ChIP_t := {|
  chip_r := 2;
  chip_nb := 1;
  chip_y := [0; -1; 0; 0; 0; -1]%Z;
  chip_size := [3];
|}.

Definition jahmm_NA : jahmm_t double := {|
  jm := 2;
  jChIP := chip_NA;
  jQ := [dbl 3 4; dbl 1 2; dbl 1 4; dbl 1 2];
  ja := dbl 1 1;
  jpi := dbl 1 1;
  jp := [dbl 1 1; dbl 0 1; dbl 0 1; dbl 0 1; dbl 1 1; dbl 0 1];
  jpem := None;
  jphi := None;
  jpath := None;
  jl := fzero;
|}.

Definition bufs_NA : bw_buffers double := {|
  b_pem := repeat fzero 6;
  b_phi := repeat fzero 6;
  b_newp := repeat fzero 6;
|}.

(* ================================================================= *)
(** ** hmm.c: the Viterbi decoder of a fragmented series *)

Section BlockViterbi.
Context {F L : Type} {AF : Arith F} {AL : Arith L} {LM : Libm F}.
Variable widen : F -> L.
Variable narrow : L -> F.
Variable minus_infinity : F.        (* -INFINITY *)
Local Notation "a .[ i ]" := (get fzero a i) (at level 1, format "a .[ i ]").

(** The loop of [is_undefined]: the state is the value returned from
    inside the loop, if any, and the counter [n_inf]. *)
Definition is_undefined_loop (slice : list F) (m : nat) : option bool * nat :=
  for_ 0 m (fun i '(ret, n_inf) =>
      match ret with
      | Some _ => (ret, n_inf)
      | None =>
          if isnan slice.[i] then (Some true, n_inf)
          else (None, if feqb slice.[i] minus_infinity then S n_inf else n_inf)
      end) (None, 0).

(** [is_undefined(slice, m)] *)
Definition is_undefined (slice : list F) (m : nat) : bool :=
  match is_undefined_loop slice m with
  | (Some b, _) => b
  | (None, n_inf) => Nat.eqb n_inf m
  end.

(** [if (is_undefined(log_p + offset + k*m, m))
       memset(log_p + offset + k*m, 0, m * sizeof(double));] *)
Definition viterbi_na_step (m offset k : nat) (log_p : list F) : list F :=
  if is_undefined (drop (offset + k * m) log_p) m
  then take (offset + k * m) log_p
       ++ memset fzero m (drop (offset + k * m) log_p)
  else log_p.

(** "If an emssion probability is not available at some step, all the
    log values are set to 0": the loop over the blocks; the state is
    [offset] and [log_p]. *)
Definition viterbi_na (m nblocks : nat) (size : list nat) (log_p : list F)
    : nat * list F :=
  for_ 0 nblocks (fun i '(offset, log_p) =>
      (offset + m * get 0 size i,
       for_ 0 (get 0 size i) (viterbi_na_step m offset) log_p))
    (0, log_p).

(** The loop of the calls of [viterbi] on the views [log_p + m*offset]
    and [path + offset]; the state is [offset] and [path]. *)
Definition viterbi_blocks (m nblocks : nat) (size : list nat)
    (log_Q log_i log_p : list F) (path : list nat) : nat * list nat :=
  for_ 0 nblocks (fun i '(offset, path) =>
      (offset + get 0 size i,
       take offset path
       ++ viterbi widen narrow m (get 0 size i) log_Q log_i
            (drop (m * offset) log_p) (drop offset path)))
    (0, path).

(** [block_viterbi(m, nblocks, size, Q, init, prob, arglog, path)]: the
    returned value and [path]. *)
Definition block_viterbi (m nblocks : nat) (size : list nat)
    (Q init prob : list F) (arglog : nat) (path : list nat) : Z * list nat :=
  let n := for_ 0 nblocks (fun i n => n + get 0 size i) 0 in
  let conv := if Nat.eqb arglog 0 then c_log else (fun x : F => x) in
  let log_p := map (fun i => conv prob.[i]) (seq 0 (n * m)) in
  let log_Q := map (fun i => conv Q.[i]) (seq 0 (m * m)) in
  let log_i := map (fun i => conv init.[i]) (seq 0 m) in
  if existsb (fun i => isnan log_Q.[i]) (seq 0 (m * m)) then
    ((-1)%Z, path)        (* "invalid 'Q' parameter in 'block_viterbi'" *)
  else if existsb (fun i => isnan log_i.[i]) (seq 0 m) then
    ((-1)%Z, path)        (* "invalid 'init' parameter in 'block_viterbi'" *)
  else
    let log_p := snd (viterbi_na m nblocks size log_p) in
    (0%Z, snd (viterbi_blocks m nblocks size log_Q log_i log_p path)).
End BlockViterbi.

(* ================================================================= *)
(** ** jahmm.c: the constructors *)

(** [new_ChIP(r, nb, y, size)]; the flexible array [size] comes from
    [calloc] and receives the first [nb] entries of the argument. *)
Definition new_ChIP (r nb : nat) (y : list Z) (size : list nat) : ChIP_t :=
  {| chip_r := r;
     chip_nb := nb;
     chip_y := y;
     chip_size := memcpy 0 0 0 nb size (repeat 0 nb) |}.

Section Constructors.
Context {F : Type} {AF : Arith F}.

(** [new_jahmm(m, ChIP)]: [NULL] for a [NULL] argument.  The structure
    comes from [calloc]; [newQ] and [newp] stand for the buffers of
    [m*m] and [m*(r+1)] entries returned by [malloc], whose content is
    not determined. *)
Definition new_jahmm (newQ newp : list F) (m : nat) (ChIP : option ChIP_t)
    : option (jahmm_t F) :=
  match ChIP with
  | None => None
  | Some ChIP =>
      Some {| jm := m; jChIP := ChIP; jQ := newQ; ja := fzero; jpi := fzero;
              jp := newp; jpem := None; jphi := None; jpath := None;
              jl := fzero |}
  end.

(** [set_jahmm_par(jahmm, Q, a, pi, p)] *)
Definition set_jahmm_par (jahmm : jahmm_t F) (Q : list F) (a pi : F)
    (p : list F) : jahmm_t F :=
  let m := jm jahmm in
  let r := chip_r (jChIP jahmm) in
  {| jm := jm jahmm; jChIP := jChIP jahmm;
     jQ := memcpy fzero 0 0 (m * m) Q (jQ jahmm);
     ja := a; jpi := pi;
     jp := memcpy fzero 0 0 (m * (r + 1)) p (jp jahmm);
     jpem := jpem jahmm; jphi := jphi jahmm; jpath := jpath jahmm;
     jl := jl jahmm |}.
End Constructors.

(* ================================================================= *)
(** ** mnmultinom.c: the emissions of the two-component mixture *)

Section Mnmultinom.
Context {F : Type} {AF : Arith F} {LM : Libm F}.
Local Notation "a .[ i ]" := (get fzero a i) (at level 1, format "a .[ i ]").

(** [x >= y], false when either is NaN. *)
Definition fgeb (x y : F) : bool := fltb y x || feqb x y.

(** [p_term] (and [q_term]) for the state [i] at the observation [k]:
    [log_w + a * logp[0+i*(r+1)]], then the sum over the tracks. *)
Definition mn_term (log_w a : F) (r : nat) (yz : list Z) (logp : list F)
    (k i : nat) : F :=
  for_ 0 r (fun j t =>
      (t + of_int (get 0%Z yz (j + k * r)) * logp.[j + 1 + i * (r + 1)])%fl)
    (log_w + a * logp.[0 + i * (r + 1)])%fl.

(** [switch ( *output)] *)
Definition mn_entry (output : Z) (p_term q_term : F) : F :=
  match output with
  | 3%Z => (c_exp p_term + c_exp q_term)%fl
  | 2%Z => (fone / (fone + c_exp (q_term - p_term)))%fl
  | _ =>
      let small := if (q_term <? p_term)%fl then q_term else p_term in
      let big := if fgeb q_term p_term then q_term else p_term in
      (big + c_log (fone + c_exp (small - big)))%fl
  end.

(** The row of emissions computed for a valid first occurrence [k]. *)
Definition mn_row (m r : nat) (yz : list Z) (t a : F) (logp logq : list F)
    (output : Z) (k : nat) : list F :=
  let log_theta := c_log t in
  let log_one_minus_theta := c_log (fone - t)%fl in
  let row :=
    map (fun i => mn_entry output (mn_term log_theta a r yz logp k i)
                    (mn_term log_one_minus_theta a r yz logq k i))
        (seq 0 m) in
  if (output =? 0)%Z then
    let lin := map c_exp row in
    if (vsum lin >? fzero)%fl then lin else row
  else row.

(** One turn of the main loop of [mnmultinom_prob]. *)
Definition mn_step (m r : nat) (yz : list Z) (t a : F) (logp logq : list F)
    (output : Z) (index : list Z) (k : nat) (pem : list F) : list F :=
  if (get 0%Z index k <? Z.of_nat k)%Z then
    memcpy fzero (k * m) (Z.to_nat (get 0%Z index k) * m) m pem pem
  else if is_invalid yz k r then
    memcpy fzero (k * m) 0 m (repeat fnan m) pem
  else
    memcpy fzero (k * m) 0 m (mn_row m r yz t a logp logq output k) pem.

(** [mnmultinom_prob(&m, &n, &r, yz, &t, &a, p, q, index, &output, pem)]:
    [index], which is computed when its first entry is negative, and
    [pem]. *)
Definition mnmultinom_prob (m n r : nat) (yz : list Z) (t a : F)
    (p q : list F) (index : list Z) (output : Z) (pem : list F)
    : list Z * list F :=
  let index :=
    if (get 0%Z index 0 <? 0)%Z then snd (indexts n r yz) else index in
  let logp := logp_of m r p in
  let logq := logp_of m r q in
  (index, for_ 0 n (mn_step m r yz t a logp logq output index) pem).
End Mnmultinom.

(* ================================================================= *)
(** * Properties *)

(** ** Loops and arrays *)

Section ArrayFacts.
Context {A : Type}.
Implicit Types (a : list A) (d : A).

Lemma for_0 {St} lo (body : nat -> St -> St) s : for_ lo 0 body s = s.
Proof. reflexivity. Qed.

Lemma for_S {St} lo n (body : nat -> St -> St) s :
  for_ lo (S n) body s = for_ (S lo) n body (body lo s).
Proof. reflexivity. Qed.

Lemma for_snoc {St} lo n (body : nat -> St -> St) s :
  for_ lo (S n) body s = body (lo + n) (for_ lo n body s).
Proof. unfold for_. rewrite seq_S, fold_left_app. reflexivity. Qed.

(** Loop invariants. *)
Lemma for_ind {St} (P : nat -> St -> Prop) lo n (body : nat -> St -> St) s :
  P lo s ->
  (forall i s, lo <= i < lo + n -> P i s -> P (S i) (body i s)) ->
  P (lo + n) (for_ lo n body s).
Proof.
  intros H0 Hstep. induction n as [|n IH].
  - rewrite Nat.add_0_r. exact H0.
  - rewrite for_snoc, Nat.add_succ_r. apply Hstep; [lia|].
    apply IH. intros i s' Hi. apply Hstep. lia.
Qed.

Lemma for_ext {St} lo n (f g : nat -> St -> St) s :
  (forall i s, lo <= i < lo + n -> f i s = g i s) ->
  for_ lo n f s = for_ lo n g s.
Proof.
  intros Hfg. induction n as [|n IH]; [reflexivity|].
  rewrite !for_snoc, IH; [apply Hfg; lia|]. intros; apply Hfg; lia.
Qed.

Lemma get_insert_eq d a i v : i < length a -> get d (<[i:=v]> a) i = v.
Proof.
  intros Hi. unfold get. rewrite nth_lookup, list_lookup_insert_eq; done.
Qed.

Lemma get_insert_ne d a i j v : i <> j -> get d (<[i:=v]> a) j = get d a j.
Proof.
  intros Hi. unfold get. rewrite !nth_lookup, list_lookup_insert_ne; done.
Qed.

Lemma get_insert d a i j v :
  get d (<[i:=v]> a) j = if decide (i = j /\ i < length a) then v else get d a j.
Proof.
  case_decide as Hd.
  - destruct Hd as [-> Hl]. by apply get_insert_eq.
  - destruct (decide (i = j)) as [->|Hne].
    + rewrite list_insert_ge; [done|lia].
    + by apply get_insert_ne.
Qed.

Lemma get_map_seq {B} (d : B) (f : nat -> B) n i :
  i < n -> get d (map f (seq 0 n)) i = f i.
Proof.
  intros Hi. unfold get.
  rewrite (nth_indep _ d (f 0)) by (rewrite length_map, length_seq; done).
  rewrite (map_nth f (seq 0 n) 0 i), seq_nth; done.
Qed.

Lemma length_memcpy d doff soff m src dst :
  length (memcpy d doff soff m src dst) = length dst.
Proof.
  unfold memcpy.
  apply (for_ind (fun _ x => length x = length dst)); [done|].
  intros i s _ Hs. by rewrite length_insert.
Qed.

(** [memcpy] writes the [m] entries from [doff] on, and nothing else. *)
Lemma get_memcpy d doff soff m src dst x :
  get d (memcpy d doff soff m src dst) x =
    if decide (doff <= x < doff + m /\ x < length dst)
    then get d src (x - doff + soff) else get d dst x.
Proof.
  unfold memcpy.
  enough (Hgen : forall n,
    get d (for_ 0 n (fun j dst0 => <[j + doff:=get d src (j + soff)]> dst0) dst) x
    = (if decide (doff <= x < doff + n /\ x < length dst)
       then get d src (x - doff + soff) else get d dst x)
    /\ length (for_ 0 n (fun j dst0 =>
                 <[j + doff:=get d src (j + soff)]> dst0) dst) = length dst).
  { apply Hgen. }
  induction n as [|n [IH IHl]].
  - split; [|done]. rewrite for_0. case_decide; [lia|done].
  - rewrite for_snoc. split; [|by rewrite length_insert].
    rewrite get_insert, IH, IHl. simpl.
    repeat case_decide; try lia; try done.
    f_equal. lia.
Qed.

Lemma slice_ext d off off' m a a' :
  (forall j, j < m -> get d a (j + off) = get d a' (j + off')) ->
  slice d off m a = slice d off' m a'.
Proof.
  intros Hj. unfold slice. apply map_ext_in. intros j Hin.
  apply Hj. apply in_seq in Hin. lia.
Qed.
End ArrayFacts.

Lemma idx_inj m i j i' j' :
  i < m -> i' < m -> i + j * m = i' + j' * m -> i = i' /\ j = j'.
Proof.
  intros Hi Hi' Heq.
  assert (Hmod : (i + j * m) mod m = (i' + j' * m) mod m) by (by rewrite Heq).
  rewrite !Nat.Div0.mod_add, !Nat.mod_small in Hmod by done.
  subst i'. split; [done|].
  apply Nat.add_cancel_l in Heq. apply Nat.mul_cancel_r in Heq; lia.
Qed.

Section InsertLoops.
Context {A : Type}.
Implicit Types (a : list A) (d : A).

Lemma length_for_insert (idx : nat -> nat) (v : nat -> A) lo n a :
  length (for_ lo n (fun j a => <[idx j := v j]> a) a) = length a.
Proof.
  apply (for_ind (fun _ x => length x = length a)); [done|].
  intros i s _ Hs. by rewrite length_insert.
Qed.

Lemma get_for_insert_miss d (idx : nat -> nat) (v : nat -> A) lo n a x :
  (forall j, lo <= j < lo + n -> idx j <> x) ->
  get d (for_ lo n (fun j a => <[idx j := v j]> a) a) x = get d a x.
Proof.
  intros Hx. induction n as [|n IH]; [done|].
  rewrite for_snoc, get_insert_ne by (apply Hx; lia).
  apply IH. intros j Hj. apply Hx. lia.
Qed.

Lemma get_for_insert_hit d (idx : nat -> nat) (v : nat -> A) lo n a j :
  lo <= j < lo + n -> idx j < length a ->
  (forall j', lo <= j' < lo + n -> j' <> j -> idx j' <> idx j) ->
  get d (for_ lo n (fun j a => <[idx j := v j]> a) a) (idx j) = v j.
Proof.
  intros Hj Hlen Hinj. induction n as [|n IH]; [lia|].
  rewrite for_snoc. destruct (decide (j = lo + n)) as [->|Hne].
  - rewrite get_insert_eq; [done|]. by rewrite length_for_insert.
  - rewrite get_insert_ne by (apply Hinj; lia).
    apply IH; [lia|]. intros j' Hj'. apply Hinj. lia.
Qed.
End InsertLoops.


(** ** The emission evaluator *)

Section ZinmFacts.
Context {F : Type} {AF : Arith F} {LM : Libm F}.

Lemma length_zinm_step m r y a pi logp ct ot index k pem :
  length (zinm_step m r y a pi logp ct ot index k pem) = length pem.
Proof. unfold zinm_step. case_match; apply length_memcpy. Qed.

(** A turn of the loop writes the row [k] only. *)
Lemma get_zinm_step_other m r y a pi logp ct ot index k pem x :
  ~ (k * m <= x < k * m + m) ->
  get fzero (zinm_step m r y a pi logp ct ot index k pem) x = get fzero pem x.
Proof.
  intros Hx. unfold zinm_step.
  case_match; rewrite get_memcpy; case_decide; done || lia.
Qed.

Lemma length_zinm_loop m r y a pi logp ct ot index n pem :
  length (zinm_loop m r y a pi logp ct ot index n pem) = length pem.
Proof.
  unfold zinm_loop. apply (for_ind (fun _ x => length x = length pem)); [done|].
  intros i s _ Hs. by rewrite length_zinm_step.
Qed.

(** The rows below [n] are final once the loop has passed them. *)
Lemma get_zinm_loop_below m r y a pi logp ct ot index n n' pem x :
  n <= n' -> x < n * m ->
  get fzero (zinm_loop m r y a pi logp ct ot index n' pem) x =
  get fzero (zinm_loop m r y a pi logp ct ot index n pem) x.
Proof.
  intros Hn Hx. induction Hn as [|n' Hn IH]; [done|].
  unfold zinm_loop in *. rewrite for_snoc, get_zinm_step_other; [done|].
  simpl. nia.
Qed.

(** The entry [j + k*m] after the loop is the one written at the turn [k]. *)
Lemma get_zinm_loop_at m r y a pi logp ct ot index n pem k j :
  k < n -> j < m ->
  get fzero (zinm_loop m r y a pi logp ct ot index n pem) (j + k * m) =
  get fzero (zinm_step m r y a pi logp ct ot index k
               (zinm_loop m r y a pi logp ct ot index k pem)) (j + k * m).
Proof.
  intros Hk Hj.
  rewrite (get_zinm_loop_below _ _ _ _ _ _ _ _ _ (S k) n) by (lia || nia).
  unfold zinm_loop at 1. by rewrite for_snoc.
Qed.

Lemma zinm_loop_cache m r y a pi logp ct ot index n pem k j :
  n * m <= length pem -> k < n -> j < m ->
  (0 <= get 0%Z index k < Z.of_nat k)%Z ->
  let pem' := zinm_loop m r y a pi logp ct ot index n pem in
  get fzero pem' (j + k * m) =
  get fzero pem' (j + Z.to_nat (get 0%Z index k) * m).
Proof.
  intros Hlen Hk Hj Hidx pem'. subst pem'.
  set (k' := Z.to_nat (get 0%Z index k)).
  assert (Hk' : k' < k) by lia.
  rewrite get_zinm_loop_at by done.
  rewrite (get_zinm_loop_below _ _ _ _ _ _ _ _ _ k n _ (j + k' * m))
    by (lia || nia).
  unfold zinm_step.
  destruct (Z.ltb_spec (get 0%Z index k) (Z.of_nat k)) as [_|]; [|lia].
  rewrite get_memcpy, length_zinm_loop. fold k'.
  case_decide as Hd; [|nia]. f_equal. lia.
Qed.

(** C8.  After the emission evaluator has returned (without the error
    "'p' negative"), every row [k] whose index [idx[k]] is a position
    below [k] is equal, in all its [m] slots and whatever the output
    type, to the row [idx[k]]. *)
Theorem zinm_prob_cache_sound (jahmm : jahmm_t F) index otype pem pem' k :
  zinm_prob jahmm index otype pem = (Zinm_done, pem') ->
  chip_n (jChIP jahmm) * jm jahmm <= length pem ->
  k < chip_n (jChIP jahmm) ->
  (0 <= get 0%Z index k < Z.of_nat k)%Z ->
  slice fzero (k * jm jahmm) (jm jahmm) pem' =
  slice fzero (Z.to_nat (get 0%Z index k) * jm jahmm) (jm jahmm) pem'.
Proof.
  unfold zinm_prob. intros Hrun Hlen Hk Hidx.
  destruct (output_type_of otype) as [ot|]; [|done].
  destruct (p_negative _ _ _); [done|].
  injection Hrun as <-.
  apply slice_ext. intros j Hj. by apply zinm_loop_cache.
Qed.
End ZinmFacts.

Lemma zinm_prob_cache_witness :
  let index := snd (indexts 4 2 (chip_y chip_A)) in
  let pem' := snd (zinm_prob (LM := libm_ieee) jahmm_A index 4 (repeat fzero 8)) in
  index = [0; 0; 2; 3]%Z /\
  slice fzero (1 * jm jahmm_A) (jm jahmm_A) pem' =
  slice fzero (Z.to_nat (get 0%Z index 1) * jm jahmm_A) (jm jahmm_A) pem'.
Proof.
  intros index pem'. split; [reflexivity|].
  apply (zinm_prob_cache_sound (LM := libm_ieee) jahmm_A index 4
           (repeat fzero 8) pem' 1).
  - reflexivity.
  - vm_compute. lia.
  - vm_compute. lia.
  - replace (get 0%Z index 1) with 0%Z by reflexivity. lia.
Defined.

(** ** The transition update *)

Section TransFacts.
Context {F : Type} {AF : Arith F}.

Lemma length_update_trans m Q trans : length (update_trans m Q trans) = length Q.
Proof.
  unfold update_trans. apply (for_ind (fun _ x => length x = length Q)); [done|].
  intros i s _ Hs. by rewrite length_for_insert.
Qed.

Lemma get_update_trans m Q trans i j :
  i < m -> j < m -> m * m <= length Q ->
  get fzero (update_trans m Q trans) (i + j * m) =
  (get fzero trans (i + j * m) / trans_rowsum m trans i)%fl.
Proof.
  intros Hi Hj Hlen. unfold update_trans.
  enough (Hgen : forall n, n <= m -> i < n ->
    get fzero (for_ 0 n (fun i Q =>
      for_ 0 m (fun j Q =>
        <[i + j * m := (get fzero trans (i + j * m) / trans_rowsum m trans i)%fl]> Q) Q) Q)
      (i + j * m) = (get fzero trans (i + j * m) / trans_rowsum m trans i)%fl
    /\ length (for_ 0 n (fun i Q =>
      for_ 0 m (fun j Q =>
        <[i + j * m := (get fzero trans (i + j * m) / trans_rowsum m trans i)%fl]> Q) Q) Q) = length Q).
  { by apply Hgen. }
  intros n Hnm Hn.
  split; [|apply (for_ind (fun _ x => length x = length Q)); [done|];
           intros i' s _ Hs; by rewrite length_for_insert].
  induction n as [|n IH]; [lia|].
  rewrite for_snoc. simpl.
  destruct (decide (i = n)) as [->|Hne].
  - apply (get_for_insert_hit fzero (fun j => n + j * m)
             (fun j => (get fzero trans (n + j * m) / trans_rowsum m trans n)%fl)).
    + lia.
    + assert (Hl : length (for_ 0 n (fun i Q =>
        for_ 0 m (fun j Q =>
        <[i + j * m := (get fzero trans (i + j * m) / trans_rowsum m trans i)%fl]> Q) Q) Q) = length Q).
      { apply (for_ind (fun _ x => length x = length Q)); [done|].
        intros i' s _ Hs; by rewrite length_for_insert. }
      rewrite Hl. assert (S j * m <= m * m) by (apply Nat.mul_le_mono_r; lia). lia.
    + intros j' Hj' Hne Heq. apply idx_inj in Heq; lia.
  - rewrite get_for_insert_miss; [apply IH; lia|].
    intros j' Hj' Heq. apply idx_inj in Heq; lia.
Qed.
End TransFacts.

Lemma ieee_sum_of_zeros (f : nat -> double) n :
  (forall i, i < n -> is_zero (f i)) -> sumf n f = fzero.
Proof.
  intros Hf. unfold sumf. induction n as [|n IH]; [done|].
  rewrite for_snoc, IH by (intros; apply Hf; lia).
  specialize (Hf (0 + n) ltac:(lia)). by destruct (f (0 + n)) as [[]| | |].
Qed.

(** C3 (amended).  [update_trans] divides every entry of the row [i] of
    [trans] by the sum of the row, whatever the sum: a row of zeros is
    not kept from the previous [Q], each of its entries becomes
    [0/0 = NaN]. *)
Theorem update_trans_rows m (Q trans : list double) i :
  i < m -> m * m <= length Q ->
  let Q' := update_trans m Q trans in
  (forall j, j < m ->
     get fzero Q' (i + j * m) =
     (get fzero trans (i + j * m) / trans_rowsum m trans i)%fl) /\
  ((forall j, j < m -> is_zero (get fzero trans (i + j * m))) ->
   forall j, j < m -> get fzero Q' (i + j * m) = fnan).
Proof.
  intros Hi Hlen Q'. split.
  - intros j Hj. by apply get_update_trans.
  - intros Hz j Hj. subst Q'. rewrite get_update_trans by done.
    unfold trans_rowsum.
    rewrite (ieee_sum_of_zeros (fun j => get fzero trans (i + j * m))) by done.
    specialize (Hz j Hj). by destruct (get fzero trans (i + j * m)) as [[]| | |].
Qed.

Lemma update_trans_rows_witness :
  let Q := [dbl 1 2; dbl 1 4; dbl 1 2; dbl 3 4] in
  let trans := [dbl 0 1; dbl 1 1; dbl 0 1; dbl 3 1] in
  let Q' := update_trans 2 Q trans in
  (forall j, j < 2 ->
     get fzero Q' (0 + j * 2) =
     (get fzero trans (0 + j * 2) / trans_rowsum 2 trans 0)%fl) /\
  ((forall j, j < 2 -> is_zero (get fzero trans (0 + j * 2))) ->
   forall j, j < 2 -> get fzero Q' (0 + j * 2) = fnan).
Proof.
  intros Q trans Q'. apply (update_trans_rows 2 Q trans 0); simpl; lia.
Defined.

(** C3, as stated, fails: the row 0 of [trans] sums to zero, the row 0 of
    [Q] is overwritten and holds NaN. *)
Lemma update_trans_zero_row_not_retained :
  let Q := [dbl 1 2; dbl 1 4; dbl 1 2; dbl 3 4] in
  let trans := [dbl 0 1; dbl 1 1; dbl 0 1; dbl 3 1] in
  let Q' := update_trans 2 Q trans in
  trans_rowsum 2 trans 0 = fzero /\
  Q' = [fnan; dbl 1 4; fnan; dbl 3 4] /\
  isnan (get fzero Q' (0 + 0 * 2)) = true /\
  get fzero Q' (0 + 0 * 2) <> get fzero Q (0 + 0 * 2).
Proof.
  vm_compute. repeat split; discriminate.
Qed.

(** ** The Viterbi decoder *)

(** C1 fails on the code.  With three states and the final maxima
    [newmax = [-5; -3; -4]], the loop that selects the final state
    compares every [newmax[j]] with [newmax[0]] and not with the maximum
    found so far: it ends on the state 2, though the state 1 holds the
    maximum. *)
Theorem viterbi_final_state_not_argmax :
  let log_Q := repeat (dbl (-1) 1) 9 in
  let log_i := repeat (dbl (-1) 1) 3 in
  let log_p := [dbl 0 1; dbl 0 1; dbl 0 1; dbl (-3) 1; dbl (-1) 1; dbl (-2) 1] in
  let newmax :=
    fst (viterbi_newmax double_to_long long_to_double 3 2 log_Q log_i log_p) in
  newmax = [of_int (-5); of_int (-3); of_int (-4)] /\
  (get fzero newmax 1 >? get fzero newmax 2)%fl = true /\
  final_state 3 newmax = 2 /\
  viterbi double_to_long long_to_double 3 2 log_Q log_i log_p [0; 0] = [0; 2].
Proof. vm_compute. repeat split. Qed.

(** ** The backward pass *)

(** NaN is absorbing for the IEEE sum and product. *)
Lemma ieee_add_nan_r (x : double) : (x + fnan)%fl = fnan.
Proof. by destruct x as [[]|[]| |[]]. Qed.

Lemma ieee_add_nan_l (x : double) : (fnan + x)%fl = fnan.
Proof. done. Qed.

Lemma ieee_mul_nan_r (x : double) : (x * fnan)%fl = fnan.
Proof. by destruct x as [[]|[]| |[]]. Qed.

(** The inner loop of [bwd_step] for the state [j'], when the row
    [R[j, .]] is NaN: the entries [phi[j'+k*m]] and [T[j'+j*m]] receive
    NaN, the other rows of [phi] and the entries of [T] that belong to
    other states [j'] are left as they are. *)
Lemma bwd_inner_nan m k (alpha Q : list double) j j' (phi T : list double) :
  j < m -> j' < m ->
  revkernel m k alpha Q j j' = fnan ->
  j' + k * m < length phi -> m * m <= length T ->
  let st' := for_ 0 m (fun i '(phi, T) =>
      let x := (get fzero phi (i + (k + 1) * m) * revkernel m k alpha Q i j')%fl in
      (<[j' + k * m := (get fzero phi (j' + k * m) + x)%fl]> phi,
       <[j' + i * m := (get fzero T (j' + i * m) + x)%fl]> T)) (phi, T) in
  (length (fst st') = length phi /\ length (snd st') = length T) /\
  (get fzero (fst st') (j' + k * m) = fnan /\
   get fzero (snd st') (j' + j * m) = fnan) /\
  (forall x, x <> j' + k * m -> get fzero (fst st') x = get fzero phi x) /\
  (forall j'' i, j'' < m -> j'' <> j' ->
     get fzero (snd st') (j'' + i * m) = get fzero T (j'' + i * m)).
Proof.
  intros Hj Hj' HR Hlphi HlT.
  set (body := fun (i : nat) '(phi, T) => _).
  assert (Hinv : forall n, n <= m ->
    let st := for_ 0 n body (phi, T) in
    (length (fst st) = length phi /\ length (snd st) = length T) /\
    (j < n -> get fzero (fst st) (j' + k * m) = fnan /\
              get fzero (snd st) (j' + j * m) = fnan) /\
    (forall x, x <> j' + k * m -> get fzero (fst st) x = get fzero phi x) /\
    (forall j'' i, j'' < m -> j'' <> j' ->
       get fzero (snd st) (j'' + i * m) = get fzero T (j'' + i * m))).
  { induction n as [|n IH]; intros Hn.
    - rewrite for_0. cbn [fst snd]. split; [done|]. split; [lia|]. done.
    - specialize (IH ltac:(lia)). cbv zeta in IH |- *.
      rewrite for_snoc, Nat.add_0_l.
      destruct (for_ 0 n body (phi, T)) as [p1 T1].
      cbn [fst snd] in IH. destruct IH as ([Hl1 Hl2] & Hnan & Hfr1 & Hfr2).
      unfold body. cbv zeta. cbn [fst snd].
      split; [by rewrite !length_insert|]. split; [|split].
      + intros Hjn. destruct (decide (j = n)) as [->|Hne].
        * rewrite HR, ieee_mul_nan_r, !ieee_add_nan_r.
          rewrite !get_insert_eq; [done| |]; rewrite ?Hl1, ?Hl2; [|lia].
          assert (S n * m <= m * m) by (apply Nat.mul_le_mono_r; lia). lia.
        * destruct Hnan as [Hn1 Hn2]; [lia|].
          rewrite get_insert_eq by (rewrite Hl1; lia).
          rewrite Hn1, ieee_add_nan_l. split; [done|].
          rewrite get_insert_ne; [done|].
          intros Heq. apply idx_inj in Heq; lia.
      + intros x Hx. rewrite get_insert_ne by done. by apply Hfr1.
      + intros j'' i Hj'' Hne. rewrite get_insert_ne; [by apply Hfr2|].
        intros Heq. apply idx_inj in Heq; lia. }
  specialize (Hinv m ltac:(lia)). cbv zeta in Hinv.
  destruct Hinv as (Hl & Hnan & Hfr). split; [done|]. split; [by apply Hnan|done].
Qed.

(** One turn of the backward loop when the row [R[j, .]] is NaN: the
    whole row [k] of [phi] and the column of [T] of the state [j]
    become NaN. *)
Lemma bwd_step_nan m k (alpha Q : list double) j (phi T : list double) :
  j < m ->
  (forall i, i < m -> revkernel m k alpha Q j i = fnan) ->
  (k + 1) * m <= length phi -> m * m <= length T ->
  let st' := bwd_step m Q alpha k (phi, T) in
  forall j', j' < m ->
    get fzero (fst st') (j' + k * m) = fnan /\
    get fzero (snd st') (j' + j * m) = fnan.
Proof.
  intros Hj HR Hlphi HlT. unfold bwd_step.
  set (inner := fun (j' : nat) => for_ 0 m _).
  assert (Hinv : forall n, n <= m ->
    let st := for_ 0 n inner (phi, T) in
    (length (fst st) = length phi /\ length (snd st) = length T) /\
    forall j', j' < n ->
      get fzero (fst st) (j' + k * m) = fnan /\
      get fzero (snd st) (j' + j * m) = fnan).
  { induction n as [|n IH]; intros Hn.
    - rewrite for_0. cbn [fst snd]. split; [done|]. intros; lia.
    - specialize (IH ltac:(lia)). cbv zeta in IH |- *.
      rewrite for_snoc, Nat.add_0_l.
      destruct (for_ 0 n inner (phi, T)) as [p1 T1].
      cbn [fst snd] in IH. destruct IH as ([Hl1 Hl2] & Hnan).
      pose proof (bwd_inner_nan m k alpha Q j n p1 T1 Hj ltac:(lia)
                    (HR n ltac:(lia)) ltac:(rewrite Hl1; lia)
                    ltac:(rewrite Hl2; lia)) as Hin.
      cbv zeta in Hin. fold (inner n) in Hin.
      destruct (inner n (p1, T1)) as [p2 T2]. cbn [fst snd] in Hin |- *.
      destruct Hin as ([Hl3 Hl4] & [Hn1 Hn2] & Hfr1 & Hfr2).
      split; [by rewrite Hl3, Hl4|].
      intros j' Hj'. destruct (decide (j' = n)) as [->|Hne]; [done|].
      rewrite Hfr1, Hfr2 by lia. apply Hnan. lia. }
  specialize (Hinv m ltac:(lia)). cbv zeta in Hinv. by destruct Hinv.
Qed.

(** C5 (amended).  When every product [alpha[k,i] * Q[i,j]] is zero, the
    denominator of the reverse kernel is zero and every entry of
    [R[j, .]] is [0/0 = NaN], not zero; the turn [k] of the backward loop
    then leaves NaN in the whole row [phi[k, .]] and in the entries of
    [T] that count the transitions to the state [j]. *)
Theorem revkernel_zero_denominator m k (alpha Q : list double) j :
  j < m ->
  (forall i, i < m ->
     is_zero (get fzero alpha (i + k * m) * get fzero Q (i + j * m))%fl) ->
  revdenom m k alpha Q j = fzero /\
  (forall i, i < m -> revkernel m k alpha Q j i = fnan) /\
  forall phi T : list double,
    (k + 1) * m <= length phi -> m * m <= length T ->
    forall j', j' < m ->
      get fzero (fst (bwd_step m Q alpha k (phi, T))) (j' + k * m) = fnan /\
      get fzero (snd (bwd_step m Q alpha k (phi, T))) (j' + j * m) = fnan.
Proof.
  intros Hj Hz.
  assert (Hd : revdenom m k alpha Q j = fzero).
  { unfold revdenom.
    apply (ieee_sum_of_zeros
             (fun i => (get fzero alpha (i + k * m) * get fzero Q (i + j * m))%fl)).
    exact Hz. }
  assert (Hr : forall i, i < m -> revkernel m k alpha Q j i = fnan).
  { intros i Hi. unfold revkernel. rewrite Hd. specialize (Hz i Hi).
    by destruct (_ * _)%fl as [[]| | |]. }
  split; [exact Hd|]. split; [exact Hr|].
  intros phi T Hlphi HlT. by apply bwd_step_nan.
Qed.

Lemma revkernel_zero_denominator_witness :
  let Q := [dbl 1 1; dbl 1 1; dbl 0 1; dbl 0 1] in
  let alpha := [dbl 1 2; dbl 1 2; dbl 1 1; dbl 0 1] in
  revdenom 2 0 alpha Q 1 = fzero /\
  (forall i, i < 2 -> revkernel 2 0 alpha Q 1 i = fnan) /\
  forall phi T : list double,
    (0 + 1) * 2 <= length phi -> 2 * 2 <= length T ->
    forall j', j' < 2 ->
      get fzero (fst (bwd_step 2 Q alpha 0 (phi, T))) (j' + 0 * 2) = fnan /\
      get fzero (snd (bwd_step 2 Q alpha 0 (phi, T))) (j' + 1 * 2) = fnan.
Proof.
  intros Q alpha. apply (revkernel_zero_denominator 2 0 alpha Q 1); [lia|].
  intros i Hi. destruct i as [|[|i]]; [exact I|exact I|lia].
Defined.

(** C5, as stated, fails: the state 1 cannot be reached ([Q[0,1] = Q[1,1]
    = 0]), the row [R[1, .]] is NaN and not zero, and NaN is what [phi]
    and [T] receive. *)
Lemma bwd_unreachable_state_nan :
  let Q := [dbl 1 1; dbl 1 1; dbl 0 1; dbl 0 1] in
  let alpha := [dbl 1 2; dbl 1 2; dbl 1 1; dbl 0 1] in
  revdenom 2 0 alpha Q 1 = fzero /\
  revkernel 2 0 alpha Q 1 0 = fnan /\
  revkernel 2 0 alpha Q 1 1 = fnan /\
  bwd 2 2 Q alpha (repeat fzero 4) =
    ([fnan; fnan; dbl 1 1; dbl 0 1], [dbl 1 2; dbl 1 2; fnan; fnan]).
Proof. vm_compute. repeat split. Qed.

(** ** The forward pass *)

(** C6 fails on the code for a row given in log space.  The initial
    distribution excludes the state 0, the emissions [exp(-800)] and
    [exp(-2000)] are given by their logarithms, and [c] underflows to
    zero: [alpha] and [prob] receive the prediction, as for a missing
    observation, but the term [prob[w+k*m] = -800] has already been added
    to the log-likelihood. *)
Theorem fwd_collapse_keeps_log_term :
  let Q := [dbl 95 100; dbl 5 100; dbl 5 100; dbl 95 100] in
  let init := [dbl 0 1; dbl 1 1] in
  let prob := [dbl (-800) 1; dbl (-2000) 1] in
  fwd (LM := libm_ieee) 2 1 Q init prob = (dbl (-800) 1, init) /\
  fwd (LM := libm_ieee) 2 1 Q init [fnan; fnan] = (fzero, init).
Proof. vm_compute. repeat split. Qed.

(** ** The emission of an all-zero observation *)

Section ZinmRows.
Context {F : Type} {AF : Arith F} {LM : Libm F}.



End ZinmRows.


(** ** The emission update of the trainer *)

Section EmissionUpdate.
Context {F : Type} {AF : Arith F} {LM : Libm F}.

Lemma length_bw_write_newp r a pi R A B C D ystar p0 i (newp : list F) :
  length (bw_write_newp r a pi R A B C D ystar p0 i newp) = length newp.
Proof.
  unfold bw_write_newp.
  rewrite (length_for_insert (fun j => j + 1 + i * (r + 1))
             (fun j => (get fzero ystar j / bw_normconst a pi A B C D p0)%fl)).
  by rewrite !length_insert.
Qed.

Lemma get_bw_write_newp_0 r a pi R A B C D ystar p0 i (newp : list F) :
  1 <= r -> (i + 1) * (r + 1) <= length newp ->
  get fzero (bw_write_newp r a pi R A B C D ystar p0 i newp) (0 + i * (r + 1)) = p0.
Proof.
  intros Hr Hlen. unfold bw_write_newp.
  rewrite (get_for_insert_miss fzero (fun j => j + 1 + i * (r + 1))
             (fun j => (get fzero ystar j / bw_normconst a pi A B C D p0)%fl))
    by (intros; lia).
  rewrite get_insert_ne by lia. apply get_insert_eq. lia.
Qed.

Lemma get_bw_write_newp_1 r a pi R A B C D ystar p0 i (newp : list F) :
  1 <= r -> (i + 1) * (r + 1) <= length newp ->
  get fzero (bw_write_newp r a pi R A B C D ystar p0 i newp) (1 + i * (r + 1))
  = (p0 * R)%fl.
Proof.
  intros Hr Hlen. unfold bw_write_newp.
  rewrite (get_for_insert_miss fzero (fun j => j + 1 + i * (r + 1))
             (fun j => (get fzero ystar j / bw_normconst a pi A B C D p0)%fl))
    by (intros; lia).
  apply get_insert_eq. rewrite length_insert. lia.
Qed.

Lemma get_bw_write_newp_j r a pi R A B C D ystar p0 i (newp : list F) j :
  1 <= j < r -> (i + 1) * (r + 1) <= length newp ->
  get fzero (bw_write_newp r a pi R A B C D ystar p0 i newp)
      ((j + 1) + i * (r + 1))
  = (get fzero ystar j / bw_normconst a pi A B C D p0)%fl.
Proof.
  intros Hj Hlen. unfold bw_write_newp.
  apply (get_for_insert_hit fzero (fun j => j + 1 + i * (r + 1))
           (fun j => (get fzero ystar j / bw_normconst a pi A B C D p0)%fl)).
  - lia.
  - rewrite !length_insert. lia.
  - intros; lia.
Qed.

(** C2 (amended).  When the update of the state [i] completes, with the
    root [p0 = P_new[i,0]], then [P_new[i,1] = p0 * R] and, for every
    [j] with [1 <= j < r], [P_new[i,j+1] = ystar_j / normconst] with
    [normconst = ((D + a*A)/p0 + B*pi*a*p0^(a-1)/(pi*p0^a + 1 - pi)) / C]:
    the sum [ystar_j] of the track [j] goes to the entry [j+1], and it is
    multiplied by [C], not divided by it. *)
Theorem bw_update_state_newp fuel m r n y index i0 a pi R (phi : list F) i
    newp newp' :
  bw_update_state fuel m r n y index i0 a pi R phi i newp = Done newp' ->
  1 <= r -> (i + 1) * (r + 1) <= length newp ->
  let s := bw_sums m r n y index i0 phi i in
  let A := s_A s in
  let B := s_B s in
  let D := s_D s in
  let C := (fone + R)%fl in
  let p0 := get fzero newp' (0 + i * (r + 1)) in
  bw_root fuel a pi A B C D (bw_E r (s_ystar s)) = Done p0 /\
  get fzero newp' (1 + i * (r + 1)) = (p0 * R)%fl /\
  forall j, 1 <= j < r ->
    get fzero newp' ((j + 1) + i * (r + 1)) =
    (get fzero (s_ystar s) j
     / (((D + a * A) / p0
         + B * pi * a * c_pow p0 (a - fone) / (pi * c_pow p0 a + fone - pi))
        / C))%fl.
Proof.
  intros Hrun Hr Hlen s A B D C p0. unfold bw_update_state in Hrun.
  fold s in Hrun. fold A B D C in Hrun.
  destruct (bw_root fuel a pi A B C D (bw_E r (s_ystar s))) as [q| |] eqn:Hroot;
    try done.
  injection Hrun as <-. subst p0.
  rewrite get_bw_write_newp_0, get_bw_write_newp_1 by done.
  repeat split. intros j Hj. by rewrite get_bw_write_newp_j.
Qed.
End EmissionUpdate.

Lemma bw_update_state_newp_witness :
  let s := bw_sums 1 3 1 obs_111 [0%Z] (-1)%Z [dbl 1 1] 0 in
  let p0 := dbl 1 4 in 
  bw_root (LM := libm_ieee) 100 (dbl 1 1) (dbl 1 2) (s_A s) (s_B s) (fone + dbl 1 1)%fl
    (s_D s) (bw_E 3 (s_ystar s)) = Done p0 /\
  forall j, 1 <= j < 3 ->
    get fzero [dbl 1 4; dbl 1 4; dbl 1 4; dbl 1 4] ((j + 1) + 0 * (3 + 1)) =
    (get fzero (s_ystar s) j
     / (((s_D s + dbl 1 1 * s_A s) / p0
         + s_B s * dbl 1 2 * dbl 1 1 * c_pow (Libm := libm_ieee) p0 (dbl 1 1 - fone)
           / (dbl 1 2 * c_pow (Libm := libm_ieee) p0 (dbl 1 1) + fone - dbl 1 2))
        / (fone + dbl 1 1)))%fl.
Proof.
  intros s p0.
  pose proof (bw_update_state_newp (LM := libm_ieee) 100 1 3 1 obs_111 [0%Z] (-1)%Z
                (dbl 1 1) (dbl 1 2) (dbl 1 1) [dbl 1 1] 0 (repeat fzero 4)
                [dbl 1 4; dbl 1 4; dbl 1 4; dbl 1 4]) as Hthm.
  destruct Hthm as (Hroot & _ & Hj).
  - vm_compute. reflexivity.
  - lia.
  - vm_compute. lia.
  - split; [exact Hroot | exact Hj].
Defined.

(** C2, as stated, fails.  One state, [phi = 1], [a = 1], [R = 1].
    For the observation [[1, 2, 0]], [ystar = [0, 2, 0]], the root is
    [p0 = 1/4] and the code writes [P_new[0,2] = ystar_1 / normconst =
    1/2] (the new row [[1/4, 1/4, 1/2, 0]] sums to one), where the
    formula of the specification, on [ystar_2 = 0], gives [0].  For the
    observation [[1, 1, 1]], where [ystar_1 = ystar_2], the code writes
    [P_new[0,2] = 1/4] and the formula gives [1/16]: the quotient is
    multiplied by [C], not by [1/C]. *)
Lemma bw_update_state_not_spec_formula :
  let a := dbl 1 1 in
  let pi := dbl 1 2 in
  let R := dbl 1 1 in
  let s' := bw_sums 1 3 1 obs_120 [0%Z] (-1)%Z [dbl 1 1] 0 in
  let s := bw_sums 1 3 1 obs_111 [0%Z] (-1)%Z [dbl 1 1] 0 in
  (bw_update_state (LM := libm_ieee) 100 1 3 1 obs_120 [0%Z] (-1)%Z a pi R
     [dbl 1 1] 0 (repeat fzero 4) = Done [dbl 1 4; dbl 1 4; dbl 1 2; dbl 0 1] /\
   s_ystar s' = [dbl 0 1; dbl 2 1; dbl 0 1] /\
   spec_newp_entry (LM := libm_ieee) a pi (s_A s') (s_B s') (fone + R)%fl
     (s_D s') (dbl 1 4) (get fzero (s_ystar s') 2) = dbl 0 1 /\
   dbl 1 2 <> dbl 0 1) /\
  (bw_update_state (LM := libm_ieee) 100 1 3 1 obs_111 [0%Z] (-1)%Z a pi R
     [dbl 1 1] 0 (repeat fzero 4) = Done [dbl 1 4; dbl 1 4; dbl 1 4; dbl 1 4] /\
   spec_newp_entry (LM := libm_ieee) a pi (s_A s) (s_B s) (fone + R)%fl
     (s_D s) (dbl 1 4) (get fzero (s_ystar s) 2) = dbl 1 16 /\
   dbl 1 4 <> dbl 1 16).
Proof. vm_compute. repeat split; discriminate. Qed.

(** ** The trainer when the bracketing fails *)

Section Abort.
Context {F : Type} {AF : Arith F} {LM : Libm F}.

Lemma bw_cycle_aborted fuel index i0 R prob (jahmm : jahmm_t F) b jahmm' :
  bw_cycle fuel index i0 R prob jahmm b = Aborted jahmm' ->
  jp jahmm' = jp jahmm /\
  jQ jahmm' = update_trans (jm jahmm) (jQ jahmm)
                (out_sumtrans (cycle_fwdb index prob jahmm b)) /\
  jl jahmm' = out_loglik (cycle_fwdb index prob jahmm b).
Proof.
  unfold bw_cycle, cycle_fwdb. cbn.
  destruct (bw_update_p _ _ _ _ _ _ _ _ _ _ _ _) as [newp| |]; [|by intros [= <-]|done].
  by case_match.
Qed.

(** C4 (amended).  When the trainer aborts because the root finder
    cannot bracket [p0], the structure it leaves is that of the cycle
    [k] in which the bracketing failed: [p] is the one the cycle started
    with (the updates of the earlier cycles stay), but [Q] has already
    been overwritten by the transition update of that cycle, and [l] is
    the log-likelihood of its forward-backward pass. *)
Theorem bw_cycles_aborted iters fuel index i0 R prob (jahmm : jahmm_t F) b
    jahmm' :
  bw_cycles iters fuel index i0 R prob jahmm b = Aborted jahmm' ->
  exists k jahmm_k b_k,
    k < iters /\
    bw_cycles k fuel index i0 R prob jahmm b = Continue jahmm_k b_k /\
    bw_cycle fuel index i0 R prob jahmm_k b_k = Aborted jahmm' /\
    jp jahmm' = jp jahmm_k /\
    jQ jahmm' = update_trans (jm jahmm_k) (jQ jahmm_k)
                  (out_sumtrans (cycle_fwdb index prob jahmm_k b_k)) /\
    jl jahmm' = out_loglik (cycle_fwdb index prob jahmm_k b_k).
Proof.
  revert jahmm b. induction iters as [|iters IH]; intros jahmm b Hrun; [done|].
  simpl in Hrun.
  destruct (bw_cycle fuel index i0 R prob jahmm b) as [j1 b1|j1 b1|j1|] eqn:Hc;
    try done.
  - destruct (IH _ _ Hrun) as (k & jk & bk & Hk & Hpre & Hrest).
    exists (S k), jk, bk. split; [lia|]. split; [|exact Hrest].
    simpl. by rewrite Hc.
  - injection Hrun as ->. exists 0, jahmm, b.
    split; [lia|]. split; [done|]. split; [done|].
    by apply bw_cycle_aborted in Hc.
Qed.
End Abort.

Lemma bw_cycles_aborted_witness :
  exists jahmm', 
    bw_cycles (LM := libm_ieee) 1 100 [0; 1; 0]%Z 1%Z (dbl 0 1)
      [dbl 1 2; dbl 1 2] jahmm_NA bufs_NA = Aborted jahmm' /\
    exists k jahmm_k b_k,
    k < 1 /\
    bw_cycles (LM := libm_ieee) k 100 [0; 1; 0]%Z 1%Z (dbl 0 1) [dbl 1 2; dbl 1 2]
      jahmm_NA bufs_NA = Continue jahmm_k b_k /\
    bw_cycle (LM := libm_ieee) 100 [0; 1; 0]%Z 1%Z (dbl 0 1) [dbl 1 2; dbl 1 2]
      jahmm_k b_k = Aborted jahmm' /\
    jp jahmm' = jp jahmm_k /\
    jQ jahmm' = update_trans (jm jahmm_k) (jQ jahmm_k)
                  (out_sumtrans (cycle_fwdb (LM := libm_ieee) [0; 1; 0]%Z
                                   [dbl 1 2; dbl 1 2] jahmm_k b_k)) /\
    jl jahmm' = out_loglik (cycle_fwdb (LM := libm_ieee) [0; 1; 0]%Z
                              [dbl 1 2; dbl 1 2] jahmm_k b_k).
Proof.
  eexists. split.
  - vm_compute. reflexivity.
  - apply (bw_cycles_aborted (LM := libm_ieee) 1 100 [0; 1; 0]%Z 1%Z (dbl 0 1)
             [dbl 1 2; dbl 1 2] jahmm_NA bufs_NA).
    vm_compute. reflexivity.
Defined.

(** C4, as stated, fails: the bracketing fails in the first cycle
    ([f(1) < 0], [f(2) < 0 <= f(4)], hence [p0_lo = 2 > 1]), [bw_zinm]
    returns, [p] is untouched but [Q] is no longer the matrix the call
    was given.  (The log-likelihood of the run is [log(5/8)], outside
    the values of [libm_ieee]; it is not part of the statement.) *)
Lemma bw_abort_keeps_new_Q :
  exists jahmm',
    bw_zinm (LM := libm_ieee) 100 (repeat fzero 6) (repeat fzero 6) jahmm_NA
      = Some jahmm' /\
    bw_cycle (LM := libm_ieee) 100 [0; 1; 0]%Z 1%Z (dbl 0 1) [dbl 1 2; dbl 1 2]
      jahmm_NA bufs_NA = Aborted jahmm' /\
    jQ jahmm_NA = [dbl 3 4; dbl 1 2; dbl 1 4; dbl 1 2] /\
    jQ jahmm' = [dbl 27 32; dbl 1 1; dbl 5 32; dbl 0 1] /\
    jQ jahmm' <> jQ jahmm_NA /\
    jp jahmm' = jp jahmm_NA.
Proof.
  eexists. split; [vm_compute; reflexivity|].
  vm_compute. repeat split. discriminate.
Qed.

(** ** The block driver *)

Section FrameFacts.
Context {A : Type}.
Implicit Types (a : list A) (d : A).

Lemma drop_memcpy d doff soff m src dst N :
  doff + m <= N -> drop N (memcpy d doff soff m src dst) = drop N dst.
Proof.
  intros HN. unfold memcpy.
  enough (Hgen : forall n, n <= m ->
    drop N (for_ 0 n (fun j dst0 => <[j + doff:=get d src (j + soff)]> dst0) dst)
    = drop N dst) by (by apply Hgen).
  induction n as [|n IH]; intros Hn; [done|].
  rewrite for_snoc, drop_insert_lt by lia. apply IH. lia.
Qed.

Lemma length_memset (z : A) m dst : length (memset z m dst) = length dst.
Proof.
  unfold memset. apply (for_ind (fun _ x => length x = length dst)); [done|].
  intros i s _ Hs. by rewrite length_insert.
Qed.

Lemma drop_memset (z : A) m dst N :
  m <= N -> drop N (memset z m dst) = drop N dst.
Proof.
  intros HN. unfold memset.
  enough (Hgen : forall n, n <= m ->
    drop N (for_ 0 n (fun j dst0 => <[j:=z]> dst0) dst) = drop N dst)
    by (by apply Hgen).
  induction n as [|n IH]; intros Hn; [done|].
  rewrite for_snoc, drop_insert_lt by lia. apply IH. lia.
Qed.
End FrameFacts.

Section BlockFacts.
Context {F : Type} {AF : Arith F} {LM : Libm F}.

(** [fwd_step] keeps the length of [prob] and writes the row [k] only. *)
Lemma fwd_step_frame m Q init k (a prob : list F) loglik N :
  (k + 1) * m <= N ->
  let prob' := snd (fst (fwd_step m Q init k (a, prob, loglik))) in
  length prob' = length prob /\ drop N prob' = drop N prob.
Proof.
  intros HN. unfold fwd_step. 
  repeat case_match; simpl; (split; [apply length_memcpy | apply drop_memcpy; lia]).
Qed.

Lemma fwd_loop_frame m n Q init (prob : list F) N :
  n * m <= N ->
  let prob' := snd (fst (fwd_loop m n Q init prob)) in
  length prob' = length prob /\ drop N prob' = drop N prob.
Proof.
  intros HN. unfold fwd_loop.
  apply (for_ind (fun k st => k <= n ->
     length (snd (fst st)) = length prob /\ drop N (snd (fst st)) = drop N prob));
    [done| |lia].
  intros k [[a p] ll] Hk IH Hkn. simpl in IH.
  destruct IH as [IHl IHd]; [lia|].
  pose proof (fwd_step_frame m Q init k a p ll N) as [Hl Hd]; [nia|].
  split; [by rewrite Hl | by rewrite Hd].
Qed.

Lemma fwd_frame m n Q init (prob : list F) N :
  n * m <= N ->
  length (snd (fwd m n Q init prob)) = length prob /\
  drop N (snd (fwd m n Q init prob)) = drop N prob.
Proof.
  intros HN. pose proof (fwd_loop_frame m n Q init prob N HN) as H.
  unfold fwd. by destruct (fwd_loop m n Q init prob) as [[a p] ll].
Qed.

(** [bwd_step] writes the row [k] of [phi] only. *)
Lemma bwd_step_frame m Q alpha k (phi T : list F) N :
  (k + 1) * m <= N ->
  let phi' := fst (bwd_step m Q alpha k (phi, T)) in
  length phi' = length phi /\ drop N phi' = drop N phi.
Proof.
  intros HN. unfold bwd_step.
  apply (for_ind (fun j st => j <= m ->
     length (fst st) = length phi /\ drop N (fst st) = drop N phi)); [done| |lia].
  intros j st Hj IH Hjm. destruct IH as [IHl IHd]; [lia|].
  apply (for_ind (fun i st' => 
     length (fst st') = length phi /\ drop N (fst st') = drop N phi)); [done|].
  intros i [phi1 T1] Hi [IHl1 IHd1]. simpl in *.
  split; [by rewrite length_insert|]. rewrite drop_insert_lt by nia. done.
Qed.

Lemma bwd_frame m n Q alpha (phi : list F) N :
  1 <= n -> n * m <= N ->
  length (fst (bwd m n Q alpha phi)) = length phi /\
  drop N (fst (bwd m n Q alpha phi)) = drop N phi.
Proof.
  intros Hn HN. unfold bwd.
  set (phi0 := memcpy fzero ((n - 1) * m) ((n - 1) * m) m alpha
                 (memset fzero (m * n) phi)).
  assert (H0 : length phi0 = length phi /\ drop N phi0 = drop N phi).
  { subst phi0. rewrite length_memcpy, length_memset, drop_memcpy, drop_memset
      by nia. done. }
  assert (Hgen : forall ks st, (forall k, k ∈ ks -> (k + 1) * m <= N) ->
     length (fst st) = length phi /\ drop N (fst st) = drop N phi ->
     let st' := fold_left (fun st k => bwd_step m Q alpha k st) ks st in
     length (fst st') = length phi /\ drop N (fst st') = drop N phi).
  { induction ks as [|k ks IH]; intros st Hks Hst; [done|].
    simpl. apply IH; [intros; apply Hks; by right|].
    destruct st as [p T].
    pose proof (bwd_step_frame m Q alpha k p T N) as [Hl Hd];
      [apply Hks; by left|].
    simpl in *. destruct Hst as [Hsl Hsd]. by rewrite Hl, Hd. }
  apply Hgen; [|done].
  intros k Hk. apply list_elem_of_In in Hk. apply in_rev, in_seq in Hk. nia.
Qed.

Lemma fwdb_frame m n Q init (prob phi : list F) N :
  1 <= n -> n * m <= N ->
  let '(_, pv, phiv, _) := fwdb m n Q init prob phi in
  (length pv = length prob /\ drop N pv = drop N prob) /\
  (length phiv = length phi /\ drop N phiv = drop N phi).
Proof.
  intros Hn HN. unfold fwdb.
  pose proof (fwd_frame m n Q init prob N HN) as Hf.
  destruct (fwd m n Q init prob) as [ll alpha].
  pose proof (bwd_frame m n Q alpha phi N Hn HN) as Hb.
  destruct (bwd m n Q alpha phi) as [phi' T]. done.
Qed.
End BlockFacts.

Lemma block_views_snoc m offset l x :
  block_views m offset (l ++ [x]) =
  block_views m offset l ++ [(offset + m * sum_list l, x)].
Proof.
  revert offset. induction l as [|y l IH]; intros offset; simpl.
  - by rewrite Nat.mul_0_r, Nat.add_0_r.
  - by rewrite IH, Nat.mul_add_distr_l, Nat.add_assoc.
Qed.

Section Accumulate.
Context {A : Type}.
Lemma get_repeat (d : A) n i : get d (repeat d n) i = d.
Proof. unfold get. apply nth_repeat. Qed.

Lemma length_for_update d (g : nat -> A -> A) n (s0 : list A) :
  length (for_ 0 n (fun j s => <[j := g j (get d s j)]> s) s0) = length s0.
Proof.
  apply (for_ind (fun _ x => length x = length s0)); [done|].
  intros i s _ Hs. by rewrite length_insert.
Qed.

Lemma get_for_update d (g : nat -> A -> A) n (s0 : list A) x :
  get d (for_ 0 n (fun j s => <[j := g j (get d s j)]> s) s0) x =
  if decide (x < n /\ x < length s0) then g x (get d s0 x) else get d s0 x.
Proof.
  induction n as [|n IH]; [by case_decide; [lia|]|].
  rewrite for_snoc, get_insert, length_for_update. simpl.
  destruct (decide (n = x)) as [->|Hne].
  - rewrite IH. repeat case_decide; try lia; try done.
  - rewrite IH. repeat case_decide; try lia; try done.
Qed.
End Accumulate.

Section Blocks.
Context {F : Type} {AF : Arith F} {LM : Libm F}.
Implicit Types (Q init prob phi : list F).

Lemma block_alone_loglik m Q init prob phi v :
  out_loglik (block_alone m Q init prob phi v) =
  (fzero + block_ll m Q init prob phi v)%fl.
Proof.
  unfold block_alone, block_fwdb, blocks_done, block_ll.
  rewrite for_snoc, for_0. simpl.
  unfold block_step. simpl.
  by destruct (fwdb _ _ _ _ _ _) as [[[ll pv] phiv] T].
Qed.

Lemma block_alone_sumtrans m Q init prob phi v j :
  j < m * m ->
  get fzero (out_sumtrans (block_alone m Q init prob phi v)) j =
  (fzero + get fzero (block_T m Q init prob phi v) j)%fl.
Proof.
  intros Hj.
  unfold block_alone, block_fwdb, blocks_done, block_T.
  rewrite for_snoc, for_0. simpl.
  unfold block_step. simpl.
  destruct (fwdb _ _ _ _ _ _) as [[[ll pv] phiv] T]. simpl.
  rewrite (get_for_update fzero (fun j x => (x + get fzero T j)%fl)).
  rewrite repeat_length, get_repeat. by case_decide; [|lia].
Qed.

Lemma blocks_done_inv m (size : list nat) Q init prob phi n :
  Forall (fun sz => 1 <= sz) size ->
  m * sum_list size <= length prob -> m * sum_list size <= length phi ->
  n <= length size ->
  let st := blocks_done m n size Q init prob phi in
  let views := block_views m 0 (take n size) in
  fst st = m * sum_list (take n size) /\
  (length (out_prob (snd st)) = length prob /\
   drop (fst st) (out_prob (snd st)) = drop (fst st) prob) /\
  (length (out_phi (snd st)) = length phi /\
   drop (fst st) (out_phi (snd st)) = drop (fst st) phi) /\
  out_loglik (snd st) =
    fold_left (fun acc v => (acc + block_ll m Q init prob phi v)%fl) views fzero /\
  length (out_sumtrans (snd st)) = m * m /\
  forall j, j < m * m ->
    get fzero (out_sumtrans (snd st)) j =
    fold_left (fun acc v => (acc + get fzero (block_T m Q init prob phi v) j)%fl)
      views fzero.
Proof.
  intros Hpos Hlp Hlphi. induction n as [|n IH]; intros Hn.
  - simpl. rewrite repeat_length. repeat split; try done.
    intros j Hj. apply get_repeat.
  - destruct (lookup_lt_is_Some_2 size n ltac:(lia)) as [sz Hsz].
    assert (Hget : get 0 size n = sz).
    { unfold get. by rewrite nth_lookup, Hsz. }
    assert (Hsz1 : 1 <= sz).
    { rewrite Forall_lookup in Hpos. by apply (Hpos n). }
    assert (Hsum : sum_list (take n size) + sz <= sum_list size).
    { rewrite <- (take_drop (S n) size) at 2.
      rewrite (take_S_r _ _ _ Hsz), !sum_list_with_app. simpl. lia. }
    specialize (IH ltac:(lia)). cbv zeta in IH.
    intros st views. subst st views.
    unfold blocks_done in *. rewrite for_snoc. simpl. rewrite Hget.
    destruct (for_ 0 n _ _) as [offset o]. simpl in IH.
    destruct IH as (Hoff & [Hpl Hpd] & [Hphil Hphid] & Hll & Htl & HT).
    rewrite (take_S_r _ _ _ Hsz), block_views_snoc, !fold_left_app, sum_list_with_app.
    simpl. rewrite <- Hoff.
    unfold block_step. rewrite Hpd, Hphid.
    pose proof (fwdb_frame m sz Q init (drop offset prob) (drop offset phi)
                  (sz * m) Hsz1 ltac:(lia)) as Hfr.
    unfold block_ll, block_T. simpl.
    destruct (fwdb m sz Q init (drop offset prob) (drop offset phi))
      as [[[ll pv] phiv] T] eqn:Hfw. simpl.
    destruct Hfr as [[Hfl Hfd] [Hgl Hgd]].
    assert (Hop : offset + m * sz <= length prob) by nia.
    assert (Hophi : offset + m * sz <= length phi) by nia.
    split; [lia|]. split; [|split; [|split; [|split]]].
    + rewrite length_app, length_take, Hfl, length_drop, Hpl.
      split; [lia|].
      rewrite drop_app_ge by (rewrite length_take; lia).
      rewrite length_take, Hpl, Nat.min_l by lia.
      replace (offset + m * sz - offset) with (sz * m) by lia.
      rewrite Hfd, drop_drop. f_equal. lia.
    + rewrite length_app, length_take, Hgl, length_drop, Hphil.
      split; [lia|].
      rewrite drop_app_ge by (rewrite length_take; lia).
      rewrite length_take, Hphil, Nat.min_l by lia.
      replace (offset + m * sz - offset) with (sz * m) by lia.
      rewrite Hgd, drop_drop. f_equal. lia.
    + by rewrite Hll.
    + by rewrite (length_for_update fzero (fun j x => (x + get fzero T j)%fl)).
    + intros j Hj.
      rewrite (get_for_update fzero (fun j x => (x + get fzero T j)%fl)), Htl.
      case_decide; [|lia]. rewrite HT, fold_left_app by done.
      simpl. by rewrite Hfw.
Qed.

(** C7.  Run on a partition into [nb] blocks, [block_fwdb] returns as
    log-likelihood the sum, accumulated from [0.0] in the order of the
    blocks, of the log-likelihoods that [fwdb] computes on the blocks, and
    as [sumtrans] the sum, entry by entry and in the same order, of the
    matrices [T] that the backward pass computes on the blocks.  Run
    alone on a block with [nb = 1], it returns [0.0 + l] for the
    log-likelihood [l] of that block and [0.0 + T[j]] for every entry of
    its [T].  Hence the log-likelihood of the partition is the sum of the
    log-likelihoods of the separate runs, the terms being added in the
    same order, as soon as [0.0 + l = l] holds of the log-likelihood of
    every block (in binary64 it holds of every value but [-0.0]). *)
Theorem block_fwdb_sums_blocks m (size : list nat) Q init prob phi :
  Forall (fun sz => 1 <= sz) size ->
  m * sum_list size <= length prob -> m * sum_list size <= length phi ->
  let o := block_fwdb m (length size) size Q init prob phi in
  let views := block_views m 0 size in
  let alone := map (block_alone m Q init prob phi) views in
  out_loglik o =
    fold_left (fun acc v => (acc + block_ll m Q init prob phi v)%fl) views fzero /\
  (forall j, j < m * m ->
     get fzero (out_sumtrans o) j =
     fold_left (fun acc v => (acc + get fzero (block_T m Q init prob phi v) j)%fl)
       views fzero) /\
  (forall v, In v views ->
     out_loglik (block_alone m Q init prob phi v) =
       (fzero + block_ll m Q init prob phi v)%fl /\
     forall j, j < m * m ->
       get fzero (out_sumtrans (block_alone m Q init prob phi v)) j =
       (fzero + get fzero (block_T m Q init prob phi v) j)%fl) /\
  ((forall v, In v views ->
      (fzero + block_ll m Q init prob phi v)%fl = block_ll m Q init prob phi v) ->
   out_loglik o = fold_left fadd (map out_loglik alone) fzero).
Proof.
  intros Hpos Hlp Hlphi o views alone.
  pose proof (blocks_done_inv m size Q init prob phi (length size)
                Hpos Hlp Hlphi ltac:(lia)) as Hinv.
  cbv zeta in Hinv. rewrite firstn_all in Hinv.
  destruct Hinv as (_ & _ & _ & Hll & _ & HT).
  subst o alone. unfold block_fwdb. fold views in Hll, HT.
  split; [exact Hll|]. split; [exact HT|]. split.
  - intros v _. split; [apply block_alone_loglik|].
    intros j Hj. by apply block_alone_sumtrans.
  - intros H0. rewrite Hll, map_map. clear Hll HT.
    generalize (@fzero F AF). clearbody views.
    induction views as [|v l IH]; intros acc; [done|].
    simpl. rewrite block_alone_loglik, H0 by (by left).
    apply IH. intros w Hw. apply H0. by right.
Qed.
End Blocks.

Lemma ieee_add_0_l (x : double) : x <> S754_zero true -> (fzero + x)%fl = x.
Proof. by destruct x as [[]| | |]. Qed.

Lemma block_fwdb_sums_blocks_witness :
  let Q := [dbl 1 2; dbl 1 4; dbl 1 2; dbl 3 4] in
  let init := [dbl 1 2; dbl 1 2] in
  let prob := [dbl (-3) 1; dbl (-3) 1; dbl (-5) 1; dbl (-5) 1;
               dbl 2 1; dbl 0 1; dbl (-7) 1; dbl (-7) 1] in
  let phi := repeat fzero 8 in
  let o := block_fwdb (LM := libm_ieee) 2 (length [2; 2]) [2; 2] Q init prob phi in
  let views := block_views 2 0 [2; 2] in
  let alone := map (block_alone (LM := libm_ieee) 2 Q init prob phi) views in
  (out_loglik o =
     fold_left (fun acc v =>
                  (acc + block_ll (LM := libm_ieee) 2 Q init prob phi v)%fl)
       views fzero /\
   forall j, j < 2 * 2 ->
     get fzero (out_sumtrans o) j =
     fold_left (fun acc v =>
                  (acc + get fzero (block_T (LM := libm_ieee) 2 Q init prob phi v) j)%fl)
       views fzero) /\
  out_loglik o = fold_left fadd (map out_loglik alone) fzero /\
  map out_loglik alone = [dbl (-8) 1; dbl (-7) 1] /\
  out_loglik o = dbl (-15) 1 /\
  map (block_T (LM := libm_ieee) 2 Q init prob phi) views =
    [[dbl 1 4; dbl 1 8; dbl 1 4; dbl 3 8]; [dbl 1 2; dbl 0 1; dbl 1 2; dbl 0 1]] /\
  out_sumtrans o = [dbl 3 4; dbl 1 8; dbl 3 4; dbl 3 8].
Proof.
  intros Q init prob phi o views alone.
  destruct (block_fwdb_sums_blocks (LM := libm_ieee) 2 [2; 2] Q init prob phi)
    as (Hll & HT & _ & Hsum).
  - repeat constructor.
  - simpl. lia.
  - simpl. lia.
  - split; [split; [exact Hll | exact HT]|].
    split.
    + apply Hsum. intros v Hv. apply ieee_add_0_l.
      destruct Hv as [<-|[<-|[]]]; vm_compute; discriminate.
    + vm_compute. repeat split.
Defined.

(** ** Sums, and the rows of the forward pass *)

Section SumFacts.
Context {F : Type} {AF : Arith F}.
Lemma sumf_S n f : sumf (S n) f = (sumf n f + f n)%fl.
Proof. unfold sumf. by rewrite for_snoc. Qed.

Lemma sumf_ext n f g : (forall i, i < n -> f i = g i) -> sumf n f = sumf n g.
Proof.
  intros Hfg. induction n as [|n IH]; [done|].
  rewrite !sumf_S, IH by (intros; apply Hfg; lia). by rewrite Hfg by lia.
Qed.

Lemma vsum_map_seq n (f : nat -> F) : vsum (map f (seq 0 n)) = sumf n f.
Proof.
  unfold vsum, sumf, for_. generalize (@fzero F AF) (seq 0 n).
  intros acc l. revert acc. induction l as [|i l IH]; intros acc; [done|].
  simpl. apply IH.
Qed.
End SumFacts.

Lemma qsumf_ext n f g : (forall i, i < n -> f i = g i) -> qsumf n f = qsumf n g.
Proof.
  intros Hfg. induction n as [|n IH]; [done|].
  simpl. rewrite IH by (intros; apply Hfg; lia). by rewrite Hfg by lia.
Qed.

Lemma qsumf_scale_l n c f : qsumf n (fun i => (c * f i)%Qc) = (c * qsumf n f)%Qc.
Proof. induction n as [|n IH]; simpl; [ring|]. rewrite IH. ring. Qed.

Lemma qsumf_div n c f : qsumf n (fun i => (f i / c)%Qc) = (qsumf n f / c)%Qc.
Proof.
  unfold Qcdiv. induction n as [|n IH]; simpl; [ring|]. rewrite IH. ring.
Qed.

Lemma qsumf_plus n f g :
  qsumf n (fun i => (f i + g i)%Qc) = (qsumf n f + qsumf n g)%Qc.
Proof. induction n as [|n IH]; simpl; [ring|]. rewrite IH. ring. Qed.

Lemma qsumf_exchange n m (f : nat -> nat -> Qc) :
  qsumf n (fun j => qsumf m (fun i => f i j)) =
  qsumf m (fun i => qsumf n (fun j => f i j)).
Proof.
  induction n as [|n IH]; simpl.
  - induction m as [|m IHm]; simpl; [done|]. rewrite <- IHm. ring.
  - rewrite IH, <- qsumf_plus. done.
Qed.

(** Sums in exact arithmetic. *)
Lemma xq_sumf_fin n (g : nat -> xq) (f : nat -> Qc) :
  (forall i, i < n -> g i = XQ (f i)) -> sumf n g = XQ (qsumf n f).
Proof.
  intros Hg. induction n as [|n IH]; [done|].
  rewrite sumf_S, IH by (intros; apply Hg; lia). by rewrite Hg by lia.
Qed.

Lemma xq_sumf_inv n (g : nat -> xq) q :
  sumf n g = XQ q -> forall i, i < n -> g i = XQ (fin (g i)).
Proof.
  revert q. induction n as [|n IH]; intros q Hs i Hi; [lia|].
  rewrite sumf_S in Hs.
  destruct (sumf n g) as [|q'] eqn:Hn; [done|].
  destruct (g n) as [|qn] eqn:Hgn; [done|].
  destruct (decide (i = n)) as [->|Hne]; [by rewrite Hgn|].
  apply (IH q'); [done|lia].
Qed.

Lemma xq_sumf_val n (g : nat -> xq) q :
  sumf n g = XQ q -> q = qsumf n (fun i => fin (g i)).
Proof.
  intros Hs. pose proof (xq_sumf_inv n g q Hs) as Hfin.
  rewrite (xq_sumf_fin n g (fun i => fin (g i)) Hfin) in Hs. congruence.
Qed.

Lemma xq_ltb_pos (c : xq) :
  (fzero <? c)%fl = true -> exists qc, c = XQ qc /\ qc <> 0%Qc.
Proof.
  destruct c as [|qc]; [done|]. cbn. intros Hlt. exists qc. split; [done|].
  intros ->. vm_compute in Hlt. done.
Qed.

Lemma xq_div_fin (a c : Qc) : c <> 0%Qc -> (XQ a / XQ c)%fl = XQ (a / c)%Qc.
Proof.
  intros Hc. cbn. destruct (Qc_eq_bool c 0) eqn:He; [|done].
  by apply Qc_eq_bool_correct in He.
Qed.

Section ForwardSums.
Context {LM : Libm xq}.

(** The prediction sums to one when [a] and the rows of [Q] do. *)
Lemma predict_sum m (a Q : list xq) :
  sumf m (get fzero a) = fone ->
  (forall i, i < m -> trans_rowsum m Q i = fone) ->
  sumf m (get fzero (predict m a Q)) = fone.
Proof.
  intros Ha HQ.
  pose proof (xq_sumf_inv _ _ _ Ha) as Hafin.
  pose proof (xq_sumf_val _ _ _ Ha) as Haval.
  assert (HQfin : forall i j, i < m -> j < m ->
            get fzero Q (i + j * m) = XQ (fin (get fzero Q (i + j * m)))).
  { intros i j Hi Hj. by apply (xq_sumf_inv _ _ _ (HQ i Hi) j). }
  assert (HQval : forall i, i < m ->
            qsumf m (fun j => fin (get fzero Q (i + j * m))) = 1%Qc).
  { intros i Hi. symmetry. apply (xq_sumf_val _ _ _ (HQ i Hi)). }
  rewrite (xq_sumf_fin m _
    (fun j => qsumf m (fun i => (fin (get fzero a i)
                                 * fin (get fzero Q (i + j * m)))%Qc))).
  - rewrite qsumf_exchange.
    rewrite (qsumf_ext m _ (fun i => fin (get fzero a i))).
    + by rewrite <- Haval.
    + intros i Hi. rewrite qsumf_scale_l, HQval by done. ring.
  - intros j Hj. unfold predict. rewrite get_map_seq by done.
    apply xq_sumf_fin. intros i Hi.
    by rewrite (Hafin i Hi), (HQfin i j Hi Hj).
Qed.

(** Dividing by a positive sum yields a vector that sums to one. *)
Lemma normalize_sum m (h : nat -> xq) :
  (fzero <? sumf m h)%fl = true ->
  sumf m (fun j => (h j / sumf m h)%fl) = fone.
Proof.
  intros Hpos. destruct (xq_ltb_pos _ Hpos) as (qc & Hc & Hne).
  pose proof (xq_sumf_inv _ _ _ Hc) as Hfin.
  pose proof (xq_sumf_val _ _ _ Hc) as Hval.
  rewrite Hc.
  rewrite (xq_sumf_fin m _ (fun j => (fin (h j) / qc)%Qc)).
  - rewrite qsumf_div, <- Hval. cbn. f_equal. by field.
  - intros j Hj. by rewrite (Hfin j Hj), xq_div_fin.
Qed.
End ForwardSums.

Section ForwardRows.
Context {LM : Libm xq}.

(** Writing a vector that sums to one into the row [k]. *)
Lemma fwd_write_row m k (v prob : list xq) :
  sumf m (get fzero v) = fone -> (k + 1) * m <= length prob ->
  let prob' := memcpy fzero (k * m) 0 m v prob in
  sumf m (get fzero v) = fone /\
  (forall j, j < m -> get fzero prob' (j + k * m) = get fzero v j) /\
  length prob' = length prob /\
  (forall x, x < k * m -> get fzero prob' x = get fzero prob x).
Proof.
  intros Hv Hlen prob'. subst prob'. split; [done|].
  split; [|split; [apply length_memcpy|]].
  - intros j Hj. rewrite get_memcpy. case_decide; [|lia]. f_equal. lia.
  - intros x Hx. rewrite get_memcpy. by case_decide; [lia|].
Qed.

Lemma fwd_step_sums m Q init k (a prob : list xq) ll :
  (forall i, i < m -> trans_rowsum m Q i = fone) ->
  vsum (slice fzero 0 m init) = fone ->
  (k = 0 \/ sumf m (get fzero a) = fone) ->
  (k + 1) * m <= length prob ->
  let st' := fwd_step m Q init k (a, prob, ll) in
  sumf m (get fzero (fst (fst st'))) = fone /\
  (forall j, j < m ->
     get fzero (snd (fst st')) (j + k * m) = get fzero (fst (fst st')) j) /\
  length (snd (fst st')) = length prob /\
  (forall x, x < k * m -> get fzero (snd (fst st')) x = get fzero prob x).
Proof.
  intros HQ Hinit Ha Hlen. unfold fwd_step.
  set (tmp := if Nat.eqb k 0 then slice fzero 0 m init else predict m a Q).
  assert (Htmp : sumf m (get fzero tmp) = fone).
  { subst tmp. destruct (Nat.eqb_spec k 0) as [->|Hk].
    - rewrite <- Hinit. unfold slice. rewrite vsum_map_seq.
      apply sumf_ext. intros j Hj. by rewrite get_map_seq.
    - apply predict_sum; [|done]. by destruct Ha. }
  cbv zeta.
  destruct (existsb _ _); [by apply fwd_write_row|].
  set (h := fun j : nat =>
     if (get fzero prob (0 + k * m) <? fzero)%fl
     then (get fzero tmp j *
           c_exp (get fzero prob (j + k * m)
                  - get fzero prob (argmax_row m k prob + k * m)))%fl
     else (get fzero tmp j * get fzero prob (j + k * m))%fl).
  set (a1 := if (get fzero prob (0 + k * m) <? fzero)%fl then _ else _).
  assert (Ha1 : a1 = map h (seq 0 m)).
  { subst a1 h. destruct (_ <? _)%fl; done. }
  clearbody a1. subst a1.
  destruct (fzero <? vsum (map h (seq 0 m)))%fl eqn:Hc; simpl;
    [|by apply fwd_write_row].
  apply fwd_write_row; [|done].
  rewrite vsum_map_seq in *.
  rewrite <- (normalize_sum m h Hc). apply sumf_ext. intros j Hj.
  by rewrite map_map, get_map_seq.
Qed.

(** C10 (amended).  In exact arithmetic: if every row of [Q] sums to
    one and [init] sums to one, every row of [prob] sums to one when
    [fwd] has returned, whether the row holds the normalized alpha or,
    after NaN emissions or a sum [c] that is not positive, the prediction
    [tmp].  In binary64 the sums are one up to rounding only. *)
Theorem fwd_rows_sum_to_one m n (Q init prob : list xq) k :
  (forall i, i < m -> trans_rowsum m Q i = fone) ->
  vsum (slice fzero 0 m init) = fone ->
  n * m <= length prob ->
  k < n ->
  vsum (slice fzero (k * m) m (snd (fwd m n Q init prob))) = fone.
Proof.
  intros HQ Hinit Hlen Hk.
  assert (Hinv : forall n', n' <= n ->
    let st := for_ 0 n' (fwd_step m Q init) (repeat fzero m, prob, fzero) in
    (n' = 0 \/ sumf m (get fzero (fst (fst st))) = fone) /\
    length (snd (fst st)) = length prob /\
    forall k', k' < n' ->
      sumf m (fun j => get fzero (snd (fst st)) (j + k' * m)) = fone).
  { induction n' as [|n' IH]; intros Hn'.
    - simpl. split; [by left|]. split; [done|]. intros; lia.
    - specialize (IH ltac:(lia)). cbv zeta in IH. cbv zeta.
      rewrite for_snoc. simpl.
      destruct (for_ 0 n' _ _) as [[a p] ll]. simpl in IH.
      destruct IH as (Ha & Hl & Hrows).
      pose proof (fwd_step_sums m Q init n' a p ll HQ Hinit Ha
                    ltac:(rewrite Hl; nia)) as (Ha' & Hrow & Hl' & Hkeep).
      split; [by right|]. split; [by rewrite Hl'|].
      intros k' Hk'. destruct (decide (k' = n')) as [->|Hne].
      + etrans; [|exact Ha']. apply sumf_ext. intros j Hj. by apply Hrow.
      + etrans; [|apply (Hrows k'); lia]. apply sumf_ext. intros j Hj.
        apply Hkeep. nia. }
  specialize (Hinv n ltac:(lia)). cbv zeta in Hinv.
  destruct Hinv as (_ & _ & Hrows).
  unfold fwd, fwd_loop. destruct (for_ 0 n _ _) as [[a p] ll]. simpl in *.
  unfold slice. rewrite vsum_map_seq. by apply Hrows.
Qed.
End ForwardRows.

Lemma fwd_rows_sum_to_one_witness :
  let Q := [xqc 1 2; xqc 1 4; xqc 1 2; xqc 3 4] in
  let init := [xqc 1 2; xqc 1 2] in
  let prob := [xqc 1 2; xqc 1 4; fnan; fnan; xqc 0 1; xqc 0 1] in
  (forall k, k < 3 ->
     vsum (slice fzero (k * 2) 2 (snd (fwd (LM := libm_fixed) 2 3 Q init prob)))
     = fone) /\
  map xq_val (snd (fwd (LM := libm_fixed) 2 3 Q init prob)) =
    [Some (2 # 3); Some (1 # 3); Some (5 # 12); Some (7 # 12);
     Some (17 # 48); Some (31 # 48)]%Q.
Proof.
  intros Q init prob. split; [|reflexivity].
  intros k Hk.
  apply (fwd_rows_sum_to_one (LM := libm_fixed) 2 3 Q init prob k).
  - intros i Hi. destruct i as [|[|i]]; [| |lia]; vm_compute; f_equal;
      apply Qc_is_canon; reflexivity.
  - vm_compute. f_equal. apply Qc_is_canon. reflexivity.
  - simpl. lia.
  - exact Hk.
Defined.

(** C10, as stated, fails in binary64.  The rows of [Q] and [init] sum
    to one and the emissions [0.1] and [0.3] are given in linear space:
    [fwd] leaves in the row of [prob] the alphas [0.25] and
    [0.75 - 2^-53], whose sum is [1 - 2^-53 = 0.99999999999999989]. *)
Lemma fwd_row_sum_rounded :
  let Q := [dbl 1 2; dbl 1 4; dbl 1 2; dbl 3 4] in
  let init := [dbl 1 2; dbl 1 2] in
  let prob := [dbl 1 10; dbl 3 10] in
  let prob' := snd (fwd (LM := libm_ieee) 2 1 Q init prob) in
  (forall i, i < 2 -> trans_rowsum 2 Q i = fone) /\
  vsum (slice fzero 0 2 init) = fone /\
  1 * 2 <= length prob /\
  prob' = [S754_finite false 4503599627370496 (-54);
           S754_finite false 6755399441055743 (-53)] /\
  vsum (slice fzero (0 * 2) 2 prob') = S754_finite false 9007199254740991 (-53) /\
  vsum (slice fzero (0 * 2) 2 prob') <> fone.
Proof.
  cbv zeta. split.
  { intros i Hi. destruct i as [|[|i]]; [reflexivity|reflexivity|lia]. }
  split; [reflexivity|]. split; [simpl; lia|].
  split; [vm_compute; reflexivity|]. split; [vm_compute; reflexivity|].
  vm_compute. discriminate.
Qed.

(** ** The Viterbi path *)

Section ViterbiFacts.
Context {F L : Type} {AF : Arith F} {AL : Arith L}.
Variable widen : F -> L.
Variable narrow : L -> F.

Lemma final_state_lt m (newmax : list L) : 0 < m -> final_state m newmax < m.
Proof.
  intros Hm. unfold final_state.
  apply (for_ind (fun _ fs => fs < m)); [done|].
  intros j fs Hj Hfs. case_match; lia.
Qed.

Lemma viterbi_cell_lt m (log_Q : list F) (oldmax : list L) j :
  0 < m -> snd (viterbi_cell widen narrow m log_Q oldmax j) < m.
Proof.
  intros Hm. unfold viterbi_cell.
  apply (for_ind (fun _ (st : F * nat) => snd st < m)); [done|].
  intros i [thismax arg] Hi Harg. cbn [snd] in *. case_match; cbn [snd]; lia.
Qed.

(** A turn of the recursion writes the row [k] of [argmax], with states
    below [m], and nothing else of [argmax]. *)
Lemma viterbi_step_argmax m (log_Q log_p : list F) k
    (old0 new0 : list L) (argmax : list nat) :
  0 < m ->
  let argmax' :=
    snd (viterbi_step widen narrow m log_Q log_p k (old0, new0, argmax)) in
  length argmax' = length argmax /\
  (forall x, ~ (k * m <= x < k * m + m) -> get 0 argmax' x = get 0 argmax x) /\
  (forall j, j < m -> j + k * m < length argmax -> get 0 argmax' (j + k * m) < m).
Proof.
  intros Hm. unfold viterbi_step.
  set (body := fun (j : nat) (st : list L * list L * list nat) => _).
  enough (Hinv : forall n, n <= m ->
    let a' := snd (for_ 0 n body (new0, old0, argmax)) in
    length a' = length argmax /\
    (forall x, ~ (k * m <= x < k * m + n) -> get 0 a' x = get 0 argmax x) /\
    (forall j, j < n -> j + k * m < length argmax -> get 0 a' (j + k * m) < m)).
  { by apply Hinv. }
  induction n as [|n IH]; intros Hn.
  - rewrite for_0. cbn [snd]. split; [done|]. split; [done|]. intros; lia.
  - specialize (IH ltac:(lia)). cbv zeta in IH |- *.
    rewrite for_snoc, Nat.add_0_l.
    destruct (for_ 0 n body (new0, old0, argmax)) as [[om nm] am].
    cbn [snd] in IH. destruct IH as (Hl & Hfr & Hlt).
    unfold body.
    pose proof (viterbi_cell_lt m log_Q om n Hm) as Hc.
    destruct (viterbi_cell widen narrow m log_Q om n) as [thismax arg].
    cbn [snd] in Hc |- *.
    split; [by rewrite length_insert|]. split.
    + intros x Hx. rewrite get_insert_ne by lia. apply Hfr. lia.
    + intros j Hj Hlen. destruct (decide (j = n)) as [->|Hne].
      * rewrite get_insert_eq; [done|lia].
      * rewrite get_insert_ne by lia. apply Hlt; lia.
Qed.

(** After the recursion every entry of the rows [1 .. n-1] of [argmax]
    is a state. *)
Lemma viterbi_newmax_argmax m n (log_Q log_i log_p : list F) k j :
  0 < m -> 1 <= k < n -> j < m ->
  get 0 (snd (viterbi_newmax widen narrow m n log_Q log_i log_p)) (j + k * m) < m.
Proof.
  intros Hm Hk Hj. unfold viterbi_newmax.
  set (st0 := (repeat fzero m, viterbi_init widen m log_i log_p (repeat fzero m),
               repeat 0 (m * n))).
  enough (Hinv : forall K, K <= n - 1 ->
    let a' := snd (for_ 1 K (viterbi_step widen narrow m log_Q log_p) st0) in
    length a' = m * n /\
    forall k j, 1 <= k < 1 + K -> j < m -> get 0 a' (j + k * m) < m).
  { specialize (Hinv (n - 1) ltac:(lia)). cbv zeta in Hinv.
    destruct (for_ 1 (n - 1) _ st0) as [[om nm] am]. cbn [snd] in *.
    apply Hinv; lia. }
  induction K as [|K IH]; intros HK.
  - rewrite for_0. unfold st0. cbn [snd]. split; [by rewrite repeat_length|lia].
  - specialize (IH ltac:(lia)). cbv zeta in IH |- *.
    rewrite for_snoc.
    destruct (for_ 1 K _ st0) as [[om nm] am]. cbn [snd] in IH.
    destruct IH as [Hl Hlt].
    pose proof (viterbi_step_argmax m log_Q log_p (1 + K) om nm am Hm)
      as (Hl' & Hfr & Hnew).
    split; [by rewrite Hl'|].
    intros k' j' Hk' Hj'. destruct (decide (k' = 1 + K)) as [->|Hne].
    + apply Hnew; [done|]. rewrite Hl.
      assert ((1 + K) * m + m <= m * n) by nia. lia.
    + rewrite Hfr by nia. apply Hlt; lia.
Qed.

Lemma rev_seq_S N : rev (seq 0 (S N)) = N :: rev (seq 0 N).
Proof. by rewrite seq_S, rev_app_distr. Qed.

Lemma length_traceback m n (argmax path : list nat) :
  length (traceback m n argmax path) = length path.
Proof.
  unfold traceback. generalize (n - 1). intros N. revert path.
  induction N as [|N IH]; intros path; [done|].
  rewrite rev_seq_S. cbn [fold_left]. by rewrite IH, length_insert.
Qed.

(** The trace back writes the entries below [n-1] only. *)
Lemma get_traceback_above m n (argmax path : list nat) x :
  n - 1 <= x -> get 0 (traceback m n argmax path) x = get 0 path x.
Proof.
  unfold traceback. generalize (n - 1). intros N. revert path.
  induction N as [|N IH]; intros path Hx; [done|].
  rewrite rev_seq_S. cbn [fold_left]. rewrite IH by lia.
  apply get_insert_ne. lia.
Qed.

Lemma traceback_S m N (argmax path : list nat) :
  traceback m (S (S N)) argmax path =
  traceback m (S N) argmax
    (<[N := get 0 argmax (get 0 path (N + 1) + (N + 1) * m)]> path).
Proof.
  unfold traceback. replace (S (S N) - 1) with (S N) by lia.
  replace (S N - 1) with N by lia. by rewrite rev_seq_S.
Qed.

Lemma traceback_lt m N (argmax path : list nat) :
  S N <= length path ->
  (forall k j, 1 <= k < S N -> j < m -> get 0 argmax (j + k * m) < m) ->
  get 0 path N < m ->
  forall k, k <= N -> get 0 (traceback m (S N) argmax path) k < m.
Proof.
  revert path. induction N as [|N IH]; intros path Hlen Harg Hlast k Hk.
  - assert (k = 0) as -> by lia. done.
  - rewrite traceback_S.
    set (path1 := <[N := _]> path).
    destruct (decide (k = S N)) as [->|Hne].
    + rewrite get_traceback_above by lia. unfold path1.
      rewrite get_insert_ne by lia. done.
    + apply IH.
      * unfold path1. rewrite length_insert. lia.
      * intros k' j' Hk' Hj'. apply Harg; lia.
      * unfold path1. rewrite get_insert_eq by lia.
        apply Harg; [lia|]. by replace (N + 1) with (S N) by lia.
      * lia.
Qed.

(** The decoder preserves the length of [path], writes its first [n]
    entries only, and every entry it writes is a state of the model. *)
Lemma viterbi_path m n (log_Q log_i log_p : list F) (path : list nat) :
  0 < m -> 0 < n -> n <= length path ->
  let path' := viterbi widen narrow m n log_Q log_i log_p path in
  length path' = length path /\
  (forall k, n <= k -> get 0 path' k = get 0 path k) /\
  (forall k, k < n -> get 0 path' k < m).
Proof.
  intros Hm Hn Hlen. unfold viterbi.
  pose proof (fun k j => viterbi_newmax_argmax m n log_Q log_i log_p k j Hm)
    as Harg.
  destruct (viterbi_newmax widen narrow m n log_Q log_i log_p) as [newmax argmax].
  cbn [snd] in Harg. cbv zeta.
  split; [by rewrite length_traceback, length_insert|]. split.
  - intros k Hk. rewrite get_traceback_above by lia.
    apply get_insert_ne. lia.
  - intros k Hk. destruct n as [|N]; [lia|].
    apply traceback_lt.
    + by rewrite length_insert.
    + intros k' j' Hk' Hj'. by apply Harg.
    + replace (S N - 1) with N by lia. rewrite get_insert_eq by lia.
      by apply final_state_lt.
    + lia.
Qed.

(** X1.  Every entry that [viterbi] writes in [path] is a state of the
    model: for a series of [n >= 1] positions over [m >= 1] states, the
    entries [path[0 .. n-1]] are below [m], whatever the parameters and
    the emissions (NaN included); [path] keeps its length and the
    entries from [n] on. *)
Theorem viterbi_path_valid m n (log_Q log_i log_p : list F) (path : list nat) :
  0 < m -> 0 < n -> n <= length path ->
  length (viterbi widen narrow m n log_Q log_i log_p path) = length path /\
  (forall k, k < n ->
     get 0 (viterbi widen narrow m n log_Q log_i log_p path) k < m) /\
  (forall k, n <= k ->
     get 0 (viterbi widen narrow m n log_Q log_i log_p path) k = get 0 path k).
Proof.
  intros Hm Hn Hlen.
  destruct (viterbi_path m n log_Q log_i log_p path Hm Hn Hlen) as (H1 & H2 & H3).
  done.
Qed.
End ViterbiFacts.

Lemma viterbi_path_valid_witness :
  let log_Q := repeat (dbl (-1) 1) 9 in
  let log_i := [dbl (-1) 1; fnan; dbl (-1) 1] in
  let log_p := [dbl 0 1; dbl 0 1; dbl 0 1; dbl (-3) 1; dbl (-1) 1; fnan] in
  let path' :=
    viterbi double_to_long long_to_double 3 2 log_Q log_i log_p [7; 7; 7] in
  length path' = 3 /\
  (forall k, k < 2 -> get 0 path' k < 3) /\
  (forall k, 2 <= k -> get 0 path' k = get 0 [7; 7; 7] k).
Proof.
  intros log_Q log_i log_p path'.
  apply (viterbi_path_valid double_to_long long_to_double 3 2 log_Q log_i log_p
           [7; 7; 7]); simpl; lia.
Defined.

Section FinalState.
Context {L : Type} {AL : Arith L}.

(** X2.  What the loop "Get final state" of [viterbi] computes: the last
    state [j >= 1] with [newmax[j] > newmax[0]], and the state 0 when
    there is none. *)
Theorem final_state_last m (newmax : list L) :
  0 < m ->
  let fs := final_state m newmax in
  fs < m /\
  (fs = 0 \/ (get fzero newmax fs >? get fzero newmax 0)%fl = true) /\
  (forall j, fs < j < m ->
     (get fzero newmax j >? get fzero newmax 0)%fl = false).
Proof.
  intros Hm. unfold final_state.
  set (body := fun j fs : nat => _).
  assert (Hinv : (fun i fs =>
    fs < i /\
    (fs = 0 \/ (get fzero newmax fs >? get fzero newmax 0)%fl = true) /\
    (forall j, fs < j < i ->
       (get fzero newmax j >? get fzero newmax 0)%fl = false))
    (1 + (m - 1)) (for_ 1 (m - 1) body 0)).
  { apply for_ind.
    - split; [lia|]. split; [by left|]. intros; lia.
    - intros j fs Hj (Hlt & Hfs & Hab). unfold body.
      destruct (get fzero newmax j >? get fzero newmax 0)%fl eqn:Hcmp.
      + split; [lia|]. split; [by right|]. intros; lia.
      + split; [lia|]. split; [done|]. intros j' Hj'.
        destruct (decide (j' = j)) as [->|Hne]; [done|]. apply Hab. lia. }
  cbv beta in Hinv. by replace (1 + (m - 1)) with m in Hinv by lia.
Qed.
End FinalState.

Lemma final_state_last_witness :
  let newmax : list long_double := [of_int (-5); of_int (-3); of_int (-4)] in
  let fs := final_state 3 newmax in
  fs < 3 /\
  (fs = 0 \/ (get fzero newmax fs >? get fzero newmax 0)%fl = true) /\
  (forall j, fs < j < 3 ->
     (get fzero newmax j >? get fzero newmax 0)%fl = false).
Proof. intros newmax. apply (final_state_last 3 newmax). lia. Defined.

(** ** Undefined emissions *)

Section Undefined.
Context {F : Type} {AF : Arith F}.
Variable minus_infinity : F.

Lemma is_undefined_loop_inv (slice : list F) n :
  match is_undefined_loop minus_infinity slice n with
  | (Some b, _) =>
      b = true /\ exists i, i < n /\ isnan (get fzero slice i) = true
  | (None, n_inf) =>
      (forall i, i < n -> isnan (get fzero slice i) = false) /\
      n_inf <= n /\
      (n_inf = n <->
       forall i, i < n -> feqb (get fzero slice i) minus_infinity = true)
  end.
Proof.
  unfold is_undefined_loop. induction n as [|n IH].
  - rewrite for_0. split; [intros; lia|]. split; [done|].
    split; [intros; lia|done].
  - rewrite for_snoc, Nat.add_0_l.
    destruct (for_ 0 n _ _) as [[b|] n_inf].
    + destruct IH as [-> (i & Hi & Hnan)]. split; [done|].
      exists i. split; [lia|done].
    + destruct IH as (Hnn & Hle & Hiff).
      destruct (isnan (get fzero slice n)) eqn:Hn.
      * split; [done|]. exists n. split; [lia|done].
      * split.
        { intros i Hi. destruct (decide (i = n)) as [->|]; [done|].
          apply Hnn. lia. }
        destruct (feqb (get fzero slice n) minus_infinity) eqn:Hinf.
        -- split; [lia|]. split.
           ++ intros Heq i Hi. destruct (decide (i = n)) as [->|]; [done|].
              apply Hiff; lia.
           ++ intros Hall. f_equal. apply Hiff. intros i Hi. apply Hall. lia.
        -- split; [lia|]. split; [lia|].
           intros Hall. specialize (Hall n ltac:(lia)). congruence.
Qed.

(** The value of [is_undefined] depends on the [m] first entries only. *)
Lemma is_undefined_ext (s s' : list F) m :
  (forall i, i < m -> get fzero s i = get fzero s' i) ->
  is_undefined minus_infinity s m = is_undefined minus_infinity s' m.
Proof.
  intros Hs. unfold is_undefined, is_undefined_loop.
  rewrite (for_ext 0 m _
    (fun i '(ret, n_inf) =>
      match ret with
      | Some _ => (ret, n_inf)
      | None =>
          if isnan (get fzero s' i) then (Some true, n_inf)
          else (None, if feqb (get fzero s' i) minus_infinity
                      then S n_inf else n_inf)
      end)); [done|].
  intros i [ret n_inf] Hi. rewrite Hs by lia. done.
Qed.

(** X3.  [is_undefined] returns 1 exactly when some of the [m] values is
    NaN or all of them are equal to minus infinity; in particular an
    empty set of emissions ([m = 0]) is undefined. *)
Theorem is_undefined_spec (slice : list F) m :
  (is_undefined minus_infinity slice m = true <->
   (exists i, i < m /\ isnan (get fzero slice i) = true) \/
   (forall i, i < m -> feqb (get fzero slice i) minus_infinity = true)) /\
  is_undefined minus_infinity slice 0 = true.
Proof.
  split; [|done].
  pose proof (is_undefined_loop_inv slice m) as Hinv. unfold is_undefined.
  destruct (is_undefined_loop minus_infinity slice m) as [[b|] n_inf].
  - destruct Hinv as [-> Hex]. split; [by left|done].
  - destruct Hinv as (Hnn & Hle & Hiff). rewrite Nat.eqb_eq. split.
    + intros Heq. right. by apply Hiff.
    + intros [(i & Hi & Hnan)|Hall]; [|by apply Hiff].
      rewrite Hnn in Hnan by done. discriminate.
Qed.
End Undefined.

(** ** Views of an array *)

Section ViewFacts.
Context {A : Type}.
Implicit Types (l : list A) (d : A).

Lemma get_drop d o l x : get d (drop o l) x = get d l (o + x).
Proof. unfold get. by rewrite !nth_lookup, lookup_drop. Qed.

Lemma get_app_l d l1 l2 x : x < length l1 -> get d (l1 ++ l2) x = get d l1 x.
Proof. intros Hx. unfold get. by rewrite !nth_lookup, lookup_app_l. Qed.

Lemma get_app_r d l1 l2 x :
  length l1 <= x -> get d (l1 ++ l2) x = get d l2 (x - length l1).
Proof. intros Hx. unfold get. by rewrite !nth_lookup, lookup_app_r. Qed.

(** The array [l] whose view from [o] on has been replaced by [v]. *)
Lemma get_view d o l v x :
  o <= length l ->
  get d (take o l ++ v) x = if decide (x < o) then get d l x else get d v (x - o).
Proof.
  intros Ho. case_decide as Hx.
  - rewrite get_app_l by (rewrite length_take; lia).
    unfold get. by rewrite !nth_lookup, lookup_take_lt.
  - rewrite get_app_r by (rewrite length_take; lia).
    rewrite length_take. f_equal. lia.
Qed.

Lemma get_memset (z : A) m dst x :
  get z (memset z m dst) x = if decide (x < m) then z else get z dst x.
Proof.
  unfold memset. case_decide as Hx.
  - destruct (decide (x < length dst)) as [Hl|Hl].
    + by apply (get_for_insert_hit z (fun j => j) (fun _ => z)); [lia|lia|].
    + unfold get. rewrite nth_overflow; [done|].
      rewrite (length_for_insert (fun j => j) (fun _ => z)). lia.
  - apply (get_for_insert_miss z (fun j => j) (fun _ => z)). intros j Hj. lia.
Qed.

Lemma for_add {St} lo a b (body : nat -> St -> St) s :
  for_ lo (a + b) body s = for_ (lo + a) b body (for_ lo a body s).
Proof. unfold for_. by rewrite seq_app, fold_left_app. Qed.

Lemma for_shift {St} lo n k (body : nat -> St -> St) s :
  for_ (lo + k) n body s = for_ lo n (fun i => body (i + k)) s.
Proof.
  induction n as [|n IH]; [done|]. rewrite !for_snoc, IH.
  f_equal. lia.
Qed.
End ViewFacts.

(** The number of positions of the [i] first blocks. *)
Lemma total_size_le (size : list nat) i j :
  i <= j ->
  for_ 0 i (fun i n => n + get 0 size i) 0 <=
  for_ 0 j (fun i n => n + get 0 size i) 0.
Proof.
  intros Hij. induction Hij as [|j Hij IH]; [done|]. rewrite for_snoc. lia.
Qed.

(** ** The decoder of a fragmented series *)

Section BlockViterbiFacts.
Context {F L : Type} {AF : Arith F} {AL : Arith L} {LM : Libm F}.
Variable widen : F -> L.
Variable narrow : L -> F.
Variable minus_infinity : F.
Local Notation "'total' size i" :=
  (for_ 0 i (fun i n => n + get 0 size i) 0)
  (at level 10, size at level 9, i at level 9).

Lemma length_viterbi_na_step m offset k (log_p : list F) :
  length (viterbi_na_step minus_infinity m offset k log_p) = length log_p.
Proof.
  unfold viterbi_na_step. case_match; [|done].
  by rewrite length_app, length_memset, <- length_app, take_drop.
Qed.

(** A turn of the loop clears the row [K] when it is undefined, and
    leaves everything else. *)
Lemma get_viterbi_na_step m K (log_p : list F) x :
  K * m + m <= length log_p ->
  get fzero (viterbi_na_step minus_infinity m 0 K log_p) x =
  if is_undefined minus_infinity (drop (K * m) log_p) m
     && bool_decide (K * m <= x < K * m + m)
  then fzero else get fzero log_p x.
Proof.
  intros Hlen. unfold viterbi_na_step. rewrite Nat.add_0_l.
  destruct (is_undefined _ _ _); [|done]. cbn [andb].
  rewrite get_view by lia. rewrite get_memset, get_drop.
  case_bool_decide; repeat case_decide; try lia; try done.
  f_equal. lia.
Qed.

(** The loop over the blocks and their positions is the loop over the
    positions of the whole series. *)
Lemma viterbi_na_flat m nblocks (size : list nat) (log_p : list F) :
  viterbi_na minus_infinity m nblocks size log_p =
  (m * total size nblocks,
   for_ 0 (total size nblocks) (viterbi_na_step minus_infinity m 0) log_p).
Proof.
  unfold viterbi_na. induction nblocks as [|i IH].
  - rewrite !for_0. by rewrite Nat.mul_0_r.
  - rewrite for_snoc, IH, Nat.add_0_l. rewrite (for_snoc 0 i).
    rewrite Nat.add_0_l. f_equal; [lia|].
    rewrite for_add, Nat.add_0_l.
    rewrite <- (Nat.add_0_l (total size i)) at 3. rewrite for_shift.
    apply for_ext. intros k s _. unfold viterbi_na_step.
    by replace (0 + (k + total size i) * m) with (m * total size i + k * m) by lia.
Qed.

Lemma viterbi_na_rows m n (log_p : list F) :
  n * m <= length log_p ->
  let log_p' := for_ 0 n (viterbi_na_step minus_infinity m 0) log_p in
  length log_p' = length log_p /\
  (forall K j, K < n -> j < m ->
     get fzero log_p' (j + K * m) =
     if is_undefined minus_infinity (drop (K * m) log_p) m
     then fzero else get fzero log_p (j + K * m)) /\
  (forall x, n * m <= x -> get fzero log_p' x = get fzero log_p x).
Proof.
  intros Hlen. cbv zeta. induction n as [|n IH].
  - rewrite for_0. split; [done|]. split; [intros; lia|done].
  - destruct IH as (Hl & Hrows & Hfr); [lia|].
    rewrite for_snoc, Nat.add_0_l.
    set (lp := for_ 0 n _ log_p) in *.
    assert (Hund : is_undefined minus_infinity (drop (n * m) lp) m =
                   is_undefined minus_infinity (drop (n * m) log_p) m).
    { apply is_undefined_ext. intros i Hi. rewrite !get_drop. apply Hfr. lia. }
    split; [by rewrite length_viterbi_na_step|]. split.
    + intros K j HK Hj. rewrite get_viterbi_na_step by (simpl in Hlen; lia).
      rewrite Hund. destruct (decide (K = n)) as [->|Hne].
      * rewrite bool_decide_true by lia. rewrite andb_true_r.
        case_match; [done|]. apply Hfr. lia.
      * rewrite bool_decide_false by nia. rewrite andb_false_r.
        apply Hrows; lia.
    + intros x Hx. rewrite get_viterbi_na_step by (simpl in Hlen; lia).
      rewrite bool_decide_false by (simpl in Hx; lia). rewrite andb_false_r.
      apply Hfr. simpl in Hx. lia.
Qed.

(** The loop of the calls of [viterbi]. *)
Lemma viterbi_blocks_inv m nblocks (size : list nat)
    (log_Q log_i log_p : list F) (path : list nat) i :
  0 < m -> i <= nblocks ->
  (forall i, i < nblocks -> 0 < get 0 size i) ->
  total size nblocks <= length path ->
  let st := for_ 0 i (fun i '(offset, path) =>
      (offset + get 0 size i,
       take offset path
       ++ viterbi widen narrow m (get 0 size i) log_Q log_i
            (drop (m * offset) log_p) (drop offset path))) (0, path) in
  fst st = total size i /\
  length (snd st) = length path /\
  (forall k, k < total size i -> get 0 (snd st) k < m) /\
  (forall k, total size i <= k -> get 0 (snd st) k = get 0 path k).
Proof.
  intros Hm Hi Hpos Hlen. cbv zeta. induction i as [|i IH].
  - rewrite !for_0. cbn [fst snd]. split; [done|]. split; [done|].
    split; [intros; lia|done].
  - destruct IH as (Hoff & Hl & Hlt & Hfr); [lia|].
    rewrite for_snoc, Nat.add_0_l, (for_snoc 0 i), Nat.add_0_l.
    destruct (for_ 0 i _ (0, path)) as [offset path_i].
    cbn [fst snd] in *. subst offset.
    pose proof (total_size_le size (S i) nblocks ltac:(lia)) as Hle.
    rewrite for_snoc, Nat.add_0_l in Hle.
    set (o := total size i) in *. set (sz := get 0 size i) in *.
    pose proof (viterbi_path widen narrow m sz log_Q log_i
                  (drop (m * o) log_p) (drop o path_i) Hm
                  (Hpos i ltac:(lia))
                  ltac:(rewrite length_drop; lia)) as (Hvl & Hvfr & Hvlt).
    split; [done|]. split.
    { rewrite length_app, Hvl, <- length_app, take_drop. done. }
    split.
    + intros k Hk. rewrite get_view by lia. case_decide.
      * by apply Hlt.
      * apply Hvlt. lia.
    + intros k Hk. rewrite get_view by lia. case_decide; [lia|].
      rewrite Hvfr by lia. rewrite get_drop.
      replace (o + (k - o)) with k by lia. apply Hfr. lia.
Qed.

(** X4.  Before decoding, [block_viterbi] replaces by zeros exactly the
    rows of emissions that [is_undefined] reports, the position [K] being
    counted over the whole series whatever its partition in blocks; all
    the other emissions are left as they are. *)
Theorem viterbi_na_clears_undefined_rows m nblocks (size : list nat)
    (log_p : list F) K j :
  total size nblocks * m <= length log_p ->
  K < total size nblocks -> j < m ->
  get fzero (snd (viterbi_na minus_infinity m nblocks size log_p)) (j + K * m) =
  if is_undefined minus_infinity (drop (K * m) log_p) m
  then fzero else get fzero log_p (j + K * m).
Proof.
  intros Hlen HK Hj. rewrite viterbi_na_flat. cbn [snd].
  by apply viterbi_na_rows.
Qed.

(** X5.  [block_viterbi] returns 0 or -1.  With -1 (a NaN among the
    logarithms of [Q] or of [init]) [path] is left as it was; with 0, when
    no block is empty, each of the [n] first entries of [path] is a state
    of the model.  The entries of [path] from [n] on are never written. *)
Theorem block_viterbi_path_valid m nblocks (size : list nat)
    (Q init prob : list F) arglog (path : list nat) :
  0 < m ->
  (forall i, i < nblocks -> 0 < get 0 size i) ->
  total size nblocks <= length path ->
  let res :=
    block_viterbi widen narrow minus_infinity m nblocks size Q init prob
      arglog path in
  (fst res = 0%Z \/ fst res = (-1)%Z) /\
  length (snd res) = length path /\
  (fst res = (-1)%Z -> snd res = path) /\
  (fst res = 0%Z ->
   forall k, k < total size nblocks -> get 0 (snd res) k < m) /\
  (forall k, total size nblocks <= k -> get 0 (snd res) k = get 0 path k).
Proof.
  intros Hm Hpos Hlen. unfold block_viterbi. cbv zeta.
  destruct (existsb _ (seq 0 (m * m))); [by repeat split; auto|].
  destruct (existsb _ (seq 0 m)); [by repeat split; auto|].
  cbn [fst snd]. unfold viterbi_blocks.
  match goal with
  | |- context [viterbi widen narrow m _ ?lq ?li (drop _ ?lp)] =>
      pose proof (viterbi_blocks_inv m nblocks size lq li lp path nblocks Hm
                    ltac:(lia) Hpos Hlen) as (_ & Hl & Hlt & Hfr)
  end.
  split; [by left|]. split; [done|]. split; [done|]. split; [|done].
  intros _. exact Hlt.
Qed.
End BlockViterbiFacts.

Lemma viterbi_na_clears_undefined_rows_witness :
  let size := [1; 2] in
  let log_p :=
    [dbl (-1) 1; dbl (-2) 1; fnan; dbl (-3) 1;
     S754_infinity true; S754_infinity true] in
  let log_p' := snd (viterbi_na (S754_infinity true) 2 2 size log_p) in
  log_p' = [dbl (-1) 1; dbl (-2) 1; fzero; fzero; fzero; fzero] /\
  get fzero log_p' (1 + 1 * 2) =
  if is_undefined (S754_infinity true) (drop (1 * 2) log_p) 2
  then fzero else get fzero log_p (1 + 1 * 2).
Proof.
  intros size log_p log_p'. split; [reflexivity|].
  apply (viterbi_na_clears_undefined_rows (S754_infinity true) 2 2 size log_p 1 1).
  - vm_compute. lia.
  - vm_compute. lia.
  - lia.
Defined.

Lemma block_viterbi_path_valid_witness :
  let size := [1; 2] in
  let Q := repeat (dbl (-1) 1) 4 in
  let init := [dbl (-1) 1; dbl (-2) 1] in
  let prob :=
    [dbl (-1) 1; dbl (-2) 1; fnan; dbl (-3) 1; dbl (-3) 1; dbl (-1) 1] in
  let res :=
    block_viterbi (LM := libm_ieee) double_to_long long_to_double
      (S754_infinity true) 2 2 size Q init prob 1 [9; 9; 9; 9] in
  res = (0%Z, [0; 0; 1; 9]) /\
  (fst res = 0%Z \/ fst res = (-1)%Z) /\
  length (snd res) = 4 /\
  (fst res = (-1)%Z -> snd res = [9; 9; 9; 9]) /\
  (fst res = 0%Z -> forall k, k < 3 -> get 0 (snd res) k < 2) /\
  (forall k, 3 <= k -> get 0 (snd res) k = get 0 [9; 9; 9; 9] k).
Proof.
  intros size Q init prob res. split; [reflexivity|].
  apply (block_viterbi_path_valid (LM := libm_ieee) double_to_long
           long_to_double (S754_infinity true) 2 2 size Q init prob 1
           [9; 9; 9; 9]).
  - lia.
  - intros i Hi. destruct i as [|[|i]]; simpl; lia.
  - vm_compute. lia.
Defined.

(** ** The emission evaluator: missing values, frame, initial content *)

Section ZinmMore.
Context {F : Type} {AF : Arith F} {LM : Libm F}.

Lemma get_repeat_lt {A} (d x : A) n i : i < n -> get d (repeat x n) i = x.
Proof.
  revert i. induction n as [|n IH]; intros [|i] Hi; try lia; [done|].
  apply IH. lia.
Qed.

(** The entries from [n*m] on are never written. *)
Lemma get_zinm_loop_above m r y a pi logp ct ot index n (pem : list F) x :
  n * m <= x ->
  get fzero (zinm_loop m r y a pi logp ct ot index n pem) x = get fzero pem x.
Proof.
  intros Hx. unfold zinm_loop. induction n as [|n IH]; [done|].
  rewrite for_snoc, get_zinm_step_other by (simpl in *; lia).
  apply IH. simpl in Hx. lia.
Qed.

(** The row written for a first occurrence that holds a negative value. *)
Lemma zinm_loop_invalid m r y a pi logp ct ot index n (pem : list F) k j :
  n * m <= length pem -> k < n -> j < m ->
  get 0%Z index k = Z.of_nat k ->
  is_invalid y k r = true ->
  get fzero (zinm_loop m r y a pi logp ct ot index n pem) (j + k * m) = fnan.
Proof.
  intros Hlen Hk Hj Hidx Hinv. rewrite get_zinm_loop_at by done.
  unfold zinm_step. rewrite Hidx, Z.ltb_irrefl.
  rewrite get_memcpy, length_zinm_loop. case_decide as Hd; [|nia].
  unfold zinm_row. rewrite Hinv.
  replace (j + k * m - k * m + 0) with j by lia. by apply get_repeat_lt.
Qed.

Lemma existsb_ext_in {A} (f g : A -> bool) l :
  (forall x, In x l -> f x = g x) -> existsb f l = existsb g l.
Proof.
  induction l as [|x l IH]; intros Hfg; [done|]. cbn [existsb].
  rewrite Hfg by (by left). f_equal. apply IH. intros; apply Hfg. by right.
Qed.

Lemma is_invalid_ext y r k k' :
  (forall i, i < r -> get 0%Z y (i + k * r) = get 0%Z y (i + k' * r)) ->
  is_invalid y k r = is_invalid y k' r.
Proof.
  intros Hy. unfold is_invalid. apply existsb_ext_in.
  intros i Hi. apply in_seq in Hi. rewrite Hy by lia. done.
Qed.

(** X6.  Missing values: when a row of observations holds a negative
    value, and the index (without negative entry) sends it to an equal
    row that is its own first occurrence, the [m] emissions of the row
    are NaN, whatever the output type. *)
Theorem zinm_prob_invalid_row (jahmm : jahmm_t F) index otype pem pem' k :
  zinm_prob jahmm index otype pem = (Zinm_done, pem') ->
  chip_n (jChIP jahmm) * jm jahmm <= length pem ->
  (forall k', k' < chip_n (jChIP jahmm) -> (0 <= get 0%Z index k')%Z) ->
  k < chip_n (jChIP jahmm) ->
  (get 0%Z index k <= Z.of_nat k)%Z ->
  get 0%Z index (Z.to_nat (get 0%Z index k)) = get 0%Z index k ->
  (forall i, i < chip_r (jChIP jahmm) ->
     get 0%Z (chip_y (jChIP jahmm)) (i + k * chip_r (jChIP jahmm)) =
     get 0%Z (chip_y (jChIP jahmm))
       (i + Z.to_nat (get 0%Z index k) * chip_r (jChIP jahmm))) ->
  is_invalid (chip_y (jChIP jahmm)) k (chip_r (jChIP jahmm)) = true ->
  forall j, j < jm jahmm -> get fzero pem' (j + k * jm jahmm) = fnan.
Proof.
  unfold zinm_prob. intros Hrun Hlen Hpos Hk Hidx Hfirst Hrow Hinv j Hj.
  specialize (Hpos k Hk).
  destruct (output_type_of otype) as [ot|]; [|done].
  destruct (p_negative _ _ _); [done|].
  injection Hrun as <-.
  set (k0 := Z.to_nat (get 0%Z index k)) in *.
  rewrite (is_invalid_ext _ _ k k0) in Hinv by done.
  assert (Hk0 : get 0%Z index k0 = Z.of_nat k0) by (rewrite Hfirst; lia).
  destruct (decide (k0 = k)) as [Heq|Hne].
  - rewrite <- Heq. apply zinm_loop_invalid; try done; lia.
  - rewrite zinm_loop_cache by (done || lia). fold k0.
    apply zinm_loop_invalid; try done; lia.
Qed.

(** X7.  For an output type that exists, an array [pem] of [n*m]
    entries at least and an index without negative entry: [zinm_prob]
    keeps the length of [pem] and never writes beyond its [n*m] first
    entries; when it stops on the error "'p' negative" it does not
    write at all. *)
Theorem zinm_prob_frame (jahmm : jahmm_t F) index otype (pem : list F) :
  output_type_of otype <> None ->
  chip_n (jChIP jahmm) * jm jahmm <= length pem ->
  (forall k, k < chip_n (jChIP jahmm) -> (0 <= get 0%Z index k)%Z) ->
  let res := zinm_prob jahmm index otype pem in
  length (snd res) = length pem /\
  (forall x, chip_n (jChIP jahmm) * jm jahmm <= x ->
     get fzero (snd res) x = get fzero pem x) /\
  (fst res <> Zinm_done -> fst res = Zinm_negative_p /\ snd res = pem).
Proof.
  intros Hot _ _. unfold zinm_prob. cbv zeta.
  destruct (output_type_of otype) as [ot|]; [|done].
  destruct (p_negative _ _ _); [done|]. cbn [fst snd].
  split; [apply length_zinm_loop|]. split; [|done].
  intros x Hx. by apply get_zinm_loop_above.
Qed.

(** Two runs of the loop on arrays [pem] of different content agree on
    the rows that have been computed. *)
Lemma zinm_loop_initial m r y a pi logp ct ot index n (pem1 pem2 : list F) :
  n * m <= length pem1 -> n * m <= length pem2 ->
  (forall k, k < n -> (0 <= get 0%Z index k)%Z) ->
  forall x, x < n * m ->
    get fzero (zinm_loop m r y a pi logp ct ot index n pem1) x =
    get fzero (zinm_loop m r y a pi logp ct ot index n pem2) x.
Proof.
  intros Hl1 Hl2 Hidx. induction n as [|n IH]; [intros; lia|].
  intros x Hx. unfold zinm_loop. rewrite !for_snoc, Nat.add_0_l.
  fold (zinm_loop m r y a pi logp ct ot index n pem1).
  fold (zinm_loop m r y a pi logp ct ot index n pem2).
  specialize (IH ltac:(simpl in *; lia) ltac:(simpl in *; lia)
                 ltac:(intros; apply Hidx; lia)).
  destruct (decide (x < n * m)) as [Hlt|Hge].
  - rewrite !get_zinm_step_other by lia. by apply IH.
  - unfold zinm_step. specialize (Hidx n ltac:(lia)).
    destruct (Z.ltb_spec (get 0%Z index n) (Z.of_nat n)) as [Hc|Hc].
    + rewrite !get_memcpy, !length_zinm_loop.
      simpl in Hx, Hl1, Hl2.
      repeat case_decide; try lia. apply IH.
      assert (Z.to_nat (get 0%Z index n) < n) by lia. nia.
    + rewrite !get_memcpy, !length_zinm_loop.
      simpl in Hx, Hl1, Hl2. repeat case_decide; try lia. done.
Qed.

(** X8.  The [n*m] emissions that [zinm_prob] returns do not depend on
    the previous content of [pem] (which [bw_zinm] takes from [malloc]),
    as soon as no entry of the index is negative. *)
Theorem zinm_prob_initial_content (jahmm : jahmm_t F) index otype
    (pem1 pem2 : list F) :
  chip_n (jChIP jahmm) * jm jahmm <= length pem1 ->
  chip_n (jChIP jahmm) * jm jahmm <= length pem2 ->
  (forall k, k < chip_n (jChIP jahmm) -> (0 <= get 0%Z index k)%Z) ->
  fst (zinm_prob jahmm index otype pem1) = Zinm_done ->
  fst (zinm_prob jahmm index otype pem2) = Zinm_done /\
  forall x, x < chip_n (jChIP jahmm) * jm jahmm ->
    get fzero (snd (zinm_prob jahmm index otype pem1)) x =
    get fzero (snd (zinm_prob jahmm index otype pem2)) x.
Proof.
  unfold zinm_prob. cbv zeta. intros Hl1 Hl2 Hidx.
  destruct (output_type_of otype) as [ot|]; [|done].
  destruct (p_negative _ _ _); [done|]. cbn [fst snd]. intros _.
  split; [done|]. by apply zinm_loop_initial.
Qed.
End ZinmMore.

(** ** Exact arithmetic: scaling *)

Lemma xq_mul_add_distr (c : Qc) (x y : xq) :
  (XQ c * (x + y))%fl = (XQ c * x + XQ c * y)%fl.
Proof. destruct x, y; cbn; try done. f_equal. ring. Qed.

Lemma xq_sumf_scale (c : Qc) n (g : nat -> xq) :
  sumf n (fun i => (XQ c * g i)%fl) = (XQ c * sumf n g)%fl.
Proof.
  induction n as [|n IH].
  - cbn. f_equal. ring.
  - by rewrite !sumf_S, IH, xq_mul_add_distr.
Qed.

Lemma Qc_eq_bool_true (x y : Qc) : x = y -> Qc_eq_bool x y = true.
Proof. intros ->. unfold Qc_eq_bool. by destruct (Qc_eq_dec y y). Qed.

Lemma Qc_eq_bool_false (x y : Qc) : x <> y -> Qc_eq_bool x y = false.
Proof. intros Hne. unfold Qc_eq_bool. by destruct (Qc_eq_dec x y). Qed.

Lemma xq_scale_div (c : Qc) (x s : xq) :
  c <> 0%Qc -> (XQ c * x / (XQ c * s))%fl = (x / s)%fl.
Proof.
  intros Hc. destruct x as [|x], s as [|s]; cbn; try done.
  destruct (Qc_eq_dec s 0) as [->|Hs].
  - rewrite !Qc_eq_bool_true; [done|done|ring].
  - rewrite !Qc_eq_bool_false; [|done|].
    + f_equal. by field.
    + intros Hcs. apply Qcmult_integral in Hcs. by destruct Hcs.
Qed.

Lemma xq_scale_ltb_0 (c : Qc) (x : xq) :
  (0 < c)%Qc -> (XQ c * x <? fzero)%fl = (x <? fzero)%fl.
Proof.
  intros Hc. destruct x as [|x]; [done|].
  change (match (c * x ?= 0)%Qc with Lt => true | _ => false end =
          match (x ?= 0)%Qc with Lt => true | _ => false end).
  destruct (x ?= 0)%Qc eqn:Hx.
  - apply Qceq_alt in Hx. subst x.
    replace (c * 0)%Qc with 0%Qc by ring. done.
  - assert (Hlt : (c * x < 0)%Qc).
    { replace 0%Qc with (0 * c)%Qc by ring. rewrite (Qcmult_comm c x).
      apply Qcmult_lt_compat_r; [done|]. by apply Qclt_alt. }
    by rewrite (proj1 (Qclt_alt _ _) Hlt).
  - assert (Hgt : (0 < c * x)%Qc).
    { replace 0%Qc with (0 * c)%Qc at 1 by ring. rewrite (Qcmult_comm c x).
      apply Qcmult_lt_compat_r; [done|]. by apply (Qcgt_alt x 0). }
    by rewrite (proj1 (Qcgt_alt _ _) Hgt).
Qed.

Section Rescale.
Context {LM : Libm xq}.

Lemma sump_scale r (c : Qc) (p p' : list xq) i :
  (forall j, j < r + 1 ->
     get fzero p' (j + i * (r + 1)) = (XQ c * get fzero p (j + i * (r + 1)))%fl) ->
  sump r p' i = (XQ c * sump r p i)%fl.
Proof.
  intros Hp. unfold sump. rewrite <- xq_sumf_scale. by apply sumf_ext.
Qed.

Lemma logp_of_scale m r (c : nat -> Qc) (p p' : list xq) :
  (forall i, i < m -> c i <> 0%Qc) ->
  (forall i j, i < m -> j < r + 1 ->
     get fzero p' (j + i * (r + 1)) =
     (XQ (c i) * get fzero p (j + i * (r + 1)))%fl) ->
  logp_of m r p' = logp_of m r p.
Proof.
  intros Hc Hp. unfold logp_of. apply map_ext_in. intros x Hx.
  apply in_seq in Hx. f_equal.
  set (i := x / (r + 1)). set (j := x mod (r + 1)).
  assert (Hi : i < m).
  { apply Nat.Div0.div_lt_upper_bound. lia. }
  assert (Hj : j < r + 1) by (apply Nat.mod_upper_bound; lia).
  assert (Hxij : x = j + i * (r + 1)).
  { pose proof (Nat.div_mod_eq x (r + 1)). subst i j. lia. }
  clearbody i j. subst x.
  rewrite (sump_scale r (c i) p p' i) by (intros; by apply Hp).
  rewrite Hp by done. apply xq_scale_div. by apply Hc.
Qed.

Lemma p_negative_scale m r (c : nat -> Qc) (p p' : list xq) :
  (forall i, i < m -> (0 < c i)%Qc) ->
  (forall i j, i < m -> j < r + 1 ->
     get fzero p' (j + i * (r + 1)) =
     (XQ (c i) * get fzero p (j + i * (r + 1)))%fl) ->
  p_negative m r p' = p_negative m r p.
Proof.
  intros Hc Hp. unfold p_negative. apply existsb_ext_in. intros i Hi.
  apply in_seq in Hi. apply existsb_ext_in. intros j Hj. apply in_seq in Hj.
  rewrite Hp by lia. apply xq_scale_ltb_0. apply Hc. lia.
Qed.

(** X9.  In exact arithmetic the emissions do not depend on the scale of
    the rows of [p]: [zinm_prob] normalizes each row by its sum, so that
    multiplying the row of each state by a positive factor changes
    neither the status nor any value of [pem] (for an output type that
    exists). *)
Theorem zinm_prob_scale_invariant (jahmm : jahmm_t xq) (c : nat -> Qc)
    (p' : list xq) index otype pem :
  output_type_of otype <> None ->
  (forall i, i < jm jahmm -> (0 < c i)%Qc) ->
  (forall i j, i < jm jahmm -> j < chip_r (jChIP jahmm) + 1 ->
     get fzero p' (j + i * (chip_r (jChIP jahmm) + 1)) =
     (XQ (c i) * get fzero (jp jahmm) (j + i * (chip_r (jChIP jahmm) + 1)))%fl) ->
  zinm_prob
    {| jm := jm jahmm; jChIP := jChIP jahmm; jQ := jQ jahmm; ja := ja jahmm;
       jpi := jpi jahmm; jp := p'; jpem := jpem jahmm; jphi := jphi jahmm;
       jpath := jpath jahmm; jl := jl jahmm |} index otype pem =
  zinm_prob jahmm index otype pem.
Proof.
  intros Hot Hc Hp. unfold zinm_prob. cbn [jm jChIP jp ja jpi].
  destruct (output_type_of otype) as [ot|]; [|done].
  rewrite (p_negative_scale _ _ c (jp jahmm) p') by done.
  destruct (p_negative _ _ _); [done|].
  rewrite (logp_of_scale _ _ c (jp jahmm) p'); [done| |done].
  intros i Hi Hz. specialize (Hc i Hi). rewrite Hz in Hc. done.
Qed.
End Rescale.

(** ** Exact arithmetic: the rows of the updated parameters *)

Lemma normalize_sum_ne m (h : nat -> xq) (qc : Qc) :
  sumf m h = XQ qc -> qc <> 0%Qc ->
  sumf m (fun j => (h j / sumf m h)%fl) = fone.
Proof.
  intros Hc Hne.
  pose proof (xq_sumf_inv _ _ _ Hc) as Hfin.
  pose proof (xq_sumf_val _ _ _ Hc) as Hval.
  rewrite Hc.
  rewrite (xq_sumf_fin m _ (fun j => (fin (h j) / qc)%Qc)).
  - rewrite qsumf_div, <- Hval. cbn. f_equal. by field.
  - intros j Hj. by rewrite (Hfin j Hj), xq_div_fin.
Qed.

(** X10.  In exact arithmetic, a row of [trans] whose sum is not zero
    becomes a row of [Q] that sums to one: the update of the transitions
    yields a stochastic matrix, whatever [Q] was before. *)
Theorem update_trans_row_sums_to_one m (Q trans : list xq) i (s : Qc) :
  i < m -> m * m <= length Q ->
  trans_rowsum m trans i = XQ s -> s <> 0%Qc ->
  trans_rowsum m (update_trans m Q trans) i = fone.
Proof.
  intros Hi Hlen Hs Hne. unfold trans_rowsum in *.
  rewrite <- (normalize_sum_ne m (fun j => get fzero trans (i + j * m)) s Hs Hne).
  apply sumf_ext. intros j Hj. by rewrite get_update_trans.
Qed.

Lemma update_trans_row_sums_to_one_witness :
  let Q := [xqc 1 2; xqc 1 4; xqc 1 2; xqc 3 4] in
  let trans := [xqc 3 1; xqc 0 1; xqc 2 1; xqc 7 1] in
  map xq_val (update_trans 2 Q trans) =
    [Some (3 # 5); Some (0 # 1); Some (2 # 5); Some (1 # 1)]%Q /\
  trans_rowsum 2 (update_trans 2 Q trans) 0 = fone.
Proof.
  intros Q trans. split; [reflexivity|].
  apply (update_trans_row_sums_to_one 2 Q trans 0 (Q2Qc 5)).
  - lia.
  - simpl. lia.
  - vm_compute. f_equal; apply Qc_is_canon; reflexivity.
  - discriminate.
Defined.

Lemma qsumf_first n (f : nat -> Qc) :
  qsumf (S n) f = (f O + qsumf n (fun k => f (S k)))%Qc.
Proof.
  induction n as [|n IH]; [cbn; ring|].
  change (qsumf (S (S n)) f) with (qsumf (S n) f + f (S n))%Qc.
  rewrite IH. cbn [qsumf]. ring.
Qed.

Section NewpRow.
Context {LM : Libm xq}.

(** [E] is the sum of [ystar[1 .. r-1]]. *)
Lemma bw_E_sumf r (ystar : list xq) :
  bw_E r ystar = sumf (r - 1) (fun k => get fzero ystar (k + 1)).
Proof.
  unfold bw_E, sumf.
  by rewrite (for_shift 0 (r - 1) 1 (fun j E => (E + get fzero ystar j)%fl)).
Qed.

(** X11.  In exact arithmetic, the row that the trainer writes in [newp]
    for a state sums to [1 + C * f(p0)], [f] being the function
    [eval_bw_f] whose root the trainer looks for: the new emission
    parameters of a state sum to one exactly when [p0] is a root. *)
Theorem bw_write_newp_row_sum r (a pi R A B D : xq) (ystar : list xq)
    (p0 : xq) i (newp : list xq) (q0 nc : Qc) :
  1 <= r -> (i + 1) * (r + 1) <= length newp ->
  p0 = XQ q0 ->
  bw_normconst a pi A B (fone + R)%fl D p0 = XQ nc -> nc <> 0%Qc ->
  (forall j, 1 <= j < r -> get fzero ystar j <> XNaN) ->
  let C := (fone + R)%fl in
  let f := eval_bw_f a pi p0 A B C D (bw_E r ystar) in
  sump r (bw_write_newp r a pi R A B C D ystar p0 i newp) i = (fone + C * f)%fl /\
  (f = fzero ->
   sump r (bw_write_newp r a pi R A B C D ystar p0 i newp) i = fone).
Proof.
  intros Hr Hlen Hp0 Hnc Hne Hy C f. subst C f.
  unfold eval_bw_f.
  assert (Hnc' := Hnc). unfold bw_normconst in Hnc'.
  remember (fone + R)%fl as C eqn:HC.
  remember ((D + a * A) / p0
            + B * pi * a * c_pow p0 (a - fone) / (pi * c_pow p0 a + fone - pi))%fl
    as T eqn:HT.
  destruct T as [|t]; [done|]. destruct C as [|c]; [done|].
  cbn in Hnc'. destruct (Qc_eq_bool c 0) eqn:Hc0; [done|].
  assert (Hc : c <> 0%Qc).
  { intros ->. by rewrite Qc_eq_bool_true in Hc0. }
  injection Hnc' as Hnc'.
  assert (Ht : t <> 0%Qc).
  { intros ->. apply Hne. rewrite <- Hnc'. by field. }
  assert (HR : R = XQ (c - 1)).
  { destruct R as [|qR]; [done|]. cbn in HC. injection HC as ->.
    f_equal. ring. }
  set (y := fun j => fin (get fzero ystar j)).
  assert (Hyj : forall j, 1 <= j < r -> get fzero ystar j = XQ (y j)).
  { intros j Hj. specialize (Hy j Hj). unfold y.
    by destruct (get fzero ystar j). }
  rewrite bw_E_sumf.
  rewrite (xq_sumf_fin (r - 1) _ (fun k => y (k + 1)))
    by (intros k Hk; apply Hyj; lia).
  set (e := qsumf (r - 1) (fun k => y (k + 1))).
  assert (Hmain :
    sump r (bw_write_newp r a pi R A B (XQ c) D ystar p0 i newp) i =
    XQ (1 + c * (q0 + e / t - 1 / c))).
  { unfold sump.
    rewrite (xq_sumf_fin (r + 1) _
      (fun j => match j with
                | 0 => q0
                | 1 => (q0 * (c - 1))%Qc
                | S j' => (y j' / nc)%Qc
                end)).
    - replace (r + 1) with (S (S (r - 1))) by lia.
      rewrite !qsumf_first.
      rewrite (qsumf_ext _ _ (fun k : nat => (y (k + 1)%nat / nc)%Qc))
        by (intros k Hk; by replace (S k) with (k + 1) by lia).
      rewrite qsumf_div. fold e. f_equal. rewrite <- Hnc'. by field.
    - intros j Hj. destruct j as [|[|j]].
      + by rewrite get_bw_write_newp_0.
      + rewrite get_bw_write_newp_1 by done. by rewrite Hp0, HR.
      + replace (S (S j) + i * (r + 1)) with ((S j + 1) + i * (r + 1)) by lia.
        rewrite get_bw_write_newp_j by (done || lia).
        rewrite Hnc, Hyj by lia. by rewrite xq_div_fin. }
  rewrite Hmain, Hp0. change (@fone xq exact) with (XQ 1%Qc).
  rewrite !xq_div_fin by done.
  cbn [fadd fsub fmul fzero exact xq_lift2].
  split; [done|]. intros Hf.
  assert (Hq : (q0 + e / t - 1 / c)%Qc = 0%Qc) by congruence.
  f_equal. rewrite Hq. ring.
Qed.
End NewpRow.

(** ** The forward pass: a position without emissions *)

Section ForwardMissing.
Context {F : Type} {AF : Arith F} {LM : Libm F}.

Lemma predict_ext m (a a' Q : list F) :
  (forall i, i < m -> get fzero a i = get fzero a' i) ->
  predict m a Q = predict m a' Q.
Proof.
  intros Ha. unfold predict. apply map_ext_in. intros j _.
  apply sumf_ext. intros i Hi. by rewrite Ha.
Qed.

(** After a turn of the loop, the row [k] of [prob] is the vector [a];
    the rows below are kept. *)
Lemma fwd_step_row m Q init k (a prob : list F) ll :
  (k + 1) * m <= length prob ->
  let st' := fwd_step m Q init k (a, prob, ll) in
  (forall j, j < m ->
     get fzero (snd (fst st')) (j + k * m) = get fzero (fst (fst st')) j) /\
  (forall x, x < k * m -> get fzero (snd (fst st')) x = get fzero prob x).
Proof.
  intros Hlen. unfold fwd_step.
  repeat case_match; cbn [fst snd]; (split; [intros j Hj|intros x Hx]);
    rewrite get_memcpy; case_decide; try lia; try done; f_equal; lia.
Qed.

Lemma fwd_loop_row m n Q init (prob : list F) :
  (n + 1) * m <= length prob ->
  let st := fwd_loop m (S n) Q init prob in
  forall j, j < m ->
    get fzero (snd (fst st)) (j + n * m) = get fzero (fst (fst st)) j.
Proof.
  intros Hlen. unfold fwd_loop. rewrite for_snoc, Nat.add_0_l.
  pose proof (fwd_loop_frame m n Q init prob (n * m) ltac:(lia)) as [Hl _].
  unfold fwd_loop in Hl.
  destruct (for_ 0 n (fwd_step m Q init) _) as [[a p] ll]. cbn [fst snd] in Hl.
  apply fwd_step_row. by rewrite Hl.
Qed.

(** X12.  A position whose emissions hold a NaN is treated as missing:
    appending such a position to a series changes neither the
    log-likelihood that [fwd] returns nor the alphas of the positions
    before it, and its own alphas are the prediction, [init] for the
    first position and [a * Q] after, [a] being the alphas of the
    previous position. *)
Theorem fwd_missing_last m n Q init (prob : list F) j0 :
  (n + 1) * m <= length prob ->
  j0 < m -> isnan (get fzero prob (j0 + n * m)) = true ->
  let alpha := snd (fwd m n Q init prob) in
  let alpha' := snd (fwd m (S n) Q init prob) in
  fst (fwd m (S n) Q init prob) = fst (fwd m n Q init prob) /\
  (forall x, x < n * m -> get fzero alpha' x = get fzero alpha x) /\
  slice fzero (n * m) m alpha' =
    (if Nat.eqb n 0 then slice fzero 0 m init
     else predict m (slice fzero ((n - 1) * m) m alpha) Q).
Proof.
  intros Hlen Hj0 Hnan. cbv zeta. unfold fwd, fwd_loop.
  rewrite for_snoc, Nat.add_0_l.
  pose proof (fwd_loop_frame m n Q init prob (n * m) ltac:(lia)) as [Hl Hd].
  assert (Hrow : n <> 0 -> forall j, j < m ->
    get fzero (snd (fst (fwd_loop m n Q init prob))) (j + (n - 1) * m) =
    get fzero (fst (fst (fwd_loop m n Q init prob))) j).
  { intros Hn. destruct n as [|n']; [done|].
    replace (S n' - 1) with n' by lia. apply fwd_loop_row. lia. }
  unfold fwd_loop in Hl, Hd, Hrow.
  destruct (for_ 0 n (fwd_step m Q init) _) as [[a p] ll].
  cbn [fst snd] in Hl, Hd, Hrow.
  assert (Hp : forall j, get fzero p (j + n * m) = get fzero prob (j + n * m)).
  { intros j. replace (j + n * m) with (n * m + j) by lia.
    rewrite <- !get_drop. by rewrite Hd. }
  unfold fwd_step.
  assert (Hex : existsb (fun j => isnan (get fzero p (j + n * m))) (seq 0 m) = true).
  { apply existsb_exists. exists j0. split; [apply in_seq; lia|]. by rewrite Hp. }
  rewrite Hex. cbn [fst snd]. split; [done|]. split.
  - intros x Hx. rewrite get_memcpy. case_decide; [lia|done].
  - destruct (Nat.eqb_spec n 0) as [->|Hn].
    + apply slice_ext. intros j Hj. rewrite get_memcpy. case_decide; [|lia].
      cbn [Nat.eqb]. unfold slice. rewrite get_map_seq by lia. f_equal. lia.
    + rewrite (predict_ext m (slice fzero ((n - 1) * m) m p) a).
      * unfold slice.
        etrans; [apply map_ext_in; intros j Hj; apply in_seq in Hj;
                 rewrite get_memcpy; case_decide; [|lia];
                 replace (j + n * m - n * m + 0) with j by lia;
                 unfold predict; rewrite get_map_seq by lia; reflexivity|].
        done.
      * intros i Hi. unfold slice. rewrite get_map_seq by done. by apply Hrow.
Qed.
End ForwardMissing.

(** ** The backward pass *)

Section BackwardFacts.
Context {F : Type} {AF : Arith F}.

(** The inner loop of a turn of the backward pass, for the state [j]. *)
Lemma bwd_inner_get m k (alpha Q : list F) j (phi T : list F) :
  j < m -> (k + 2) * m <= length phi -> m * m <= length T ->
  let R i := revkernel m k alpha Q i j in
  let st' := for_ 0 m (fun i '(phi, T) =>
      let x := (get fzero phi (i + (k + 1) * m) * revkernel m k alpha Q i j)%fl in
      (<[j + k * m := (get fzero phi (j + k * m) + x)%fl]> phi,
       <[j + i * m := (get fzero T (j + i * m) + x)%fl]> T)) (phi, T) in
  (length (fst st') = length phi /\ length (snd st') = length T) /\
  get fzero (fst st') (j + k * m) =
    for_ 0 m (fun i acc => (acc + get fzero phi (i + (k + 1) * m) * R i)%fl)
      (get fzero phi (j + k * m)) /\
  (forall x, x <> j + k * m -> get fzero (fst st') x = get fzero phi x) /\
  (forall i, i < m ->
     get fzero (snd st') (j + i * m) =
     (get fzero T (j + i * m) + get fzero phi (i + (k + 1) * m) * R i)%fl) /\
  (forall x, (forall i, i < m -> x <> j + i * m) ->
     get fzero (snd st') x = get fzero T x).
Proof.
  intros Hj Hlphi HlT R.
  set (body := fun (i : nat) (st : list F * list F) => _).
  enough (Hinv : forall n, n <= m ->
    let st' := for_ 0 n body (phi, T) in
    (length (fst st') = length phi /\ length (snd st') = length T) /\
    get fzero (fst st') (j + k * m) =
      for_ 0 n (fun i acc => (acc + get fzero phi (i + (k + 1) * m) * R i)%fl)
        (get fzero phi (j + k * m)) /\
    (forall x, x <> j + k * m -> get fzero (fst st') x = get fzero phi x) /\
    (forall i, i < n ->
       get fzero (snd st') (j + i * m) =
       (get fzero T (j + i * m) + get fzero phi (i + (k + 1) * m) * R i)%fl) /\
    (forall x, (forall i, i < n -> x <> j + i * m) ->
       get fzero (snd st') x = get fzero T x)).
  { by apply Hinv. }
  induction n as [|n IH]; intros Hn.
  - rewrite !for_0. cbn [fst snd]. repeat split; try done. intros; lia.
  - specialize (IH ltac:(lia)). cbv zeta in IH |- *.
    rewrite !for_snoc, Nat.add_0_l.
    destruct (for_ 0 n body (phi, T)) as [p t]. cbn [fst snd] in IH.
    destruct IH as ([Hl1 Hl2] & Hrow & Hfr & HT & HTf).
    unfold body. cbv zeta. cbn [fst snd].
    assert (Hx : get fzero p (n + (k + 1) * m) = get fzero phi (n + (k + 1) * m))
      by (apply Hfr; lia).
    assert (S n * m <= m * m) by (apply Nat.mul_le_mono; lia).
    split; [by rewrite !length_insert|]. split; [|split; [|split]].
    + rewrite get_insert_eq by lia. by rewrite Hrow, Hx.
    + intros x Hne. rewrite get_insert_ne by done. by apply Hfr.
    + intros i Hi. destruct (decide (i = n)) as [->|Hne].
      * rewrite get_insert_eq by lia. rewrite Hx. f_equal.
        apply HTf. intros i Hi' Heq. apply idx_inj in Heq; lia.
      * rewrite get_insert_ne by (intros Heq; apply idx_inj in Heq; lia).
        apply HT. lia.
    + intros x Hx'. rewrite get_insert_ne by (intros Heq; apply (Hx' n); lia).
      apply HTf. intros i Hi. apply Hx'. lia.
Qed.

(** A turn of the backward pass: the row [k] of [phi] receives the sums
    [phi[j+k*m] + sum_i phi[i+(k+1)*m] * R[i+j*m]], and [T] the terms. *)
Lemma bwd_step_get m Q alpha k (phi T : list F) :
  (k + 2) * m <= length phi -> m * m <= length T ->
  let st' := bwd_step m Q alpha k (phi, T) in
  (length (fst st') = length phi /\ length (snd st') = length T) /\
  (forall j, j < m ->
     get fzero (fst st') (j + k * m) =
     for_ 0 m (fun i acc =>
         (acc + get fzero phi (i + (k + 1) * m) * revkernel m k alpha Q i j)%fl)
       (get fzero phi (j + k * m))) /\
  (forall x, ~ (k * m <= x < k * m + m) -> get fzero (fst st') x = get fzero phi x) /\
  (forall j i, j < m -> i < m ->
     get fzero (snd st') (j + i * m) =
     (get fzero T (j + i * m)
      + get fzero phi (i + (k + 1) * m) * revkernel m k alpha Q i j)%fl) /\
  (forall x, m * m <= x -> get fzero (snd st') x = get fzero T x).
Proof.
  intros Hlphi HlT. unfold bwd_step.
  set (inner := fun (j : nat) => for_ 0 m _).
  enough (Hinv : forall n, n <= m ->
    let st' := for_ 0 n inner (phi, T) in
    (length (fst st') = length phi /\ length (snd st') = length T) /\
    (forall j, j < n ->
       get fzero (fst st') (j + k * m) =
       for_ 0 m (fun i acc =>
           (acc + get fzero phi (i + (k + 1) * m) * revkernel m k alpha Q i j)%fl)
         (get fzero phi (j + k * m))) /\
    (forall x, ~ (k * m <= x < k * m + n) ->
       get fzero (fst st') x = get fzero phi x) /\
    (forall j i, j < n -> i < m ->
       get fzero (snd st') (j + i * m) =
       (get fzero T (j + i * m)
        + get fzero phi (i + (k + 1) * m) * revkernel m k alpha Q i j)%fl) /\
    (forall x, (forall j i, j < n -> i < m -> x <> j + i * m) ->
       get fzero (snd st') x = get fzero T x)).
  { destruct (Hinv m ltac:(lia)) as (Hl & Hrow & Hfr & HT & HTf).
    repeat split; try done; try apply Hl.
    intros x Hx. apply HTf. intros j i Hj Hi.
    assert (S i * m <= m * m) by (apply Nat.mul_le_mono; lia). lia. }
  induction n as [|n IH]; intros Hn.
  - rewrite for_0. cbn [fst snd]. repeat split; try done; intros; lia.
  - specialize (IH ltac:(lia)). cbv zeta in IH |- *.
    rewrite for_snoc, Nat.add_0_l.
    destruct (for_ 0 n inner (phi, T)) as [p t]. cbn [fst snd] in IH.
    destruct IH as ([Hl1 Hl2] & Hrow & Hfr & HT & HTf).
    pose proof (bwd_inner_get m k alpha Q n p t ltac:(lia)
                  ltac:(rewrite Hl1; lia) ltac:(rewrite Hl2; lia)) as Hin.
    cbv zeta in Hin. fold (inner n) in Hin.
    destruct (inner n (p, t)) as [p' t']. cbn [fst snd] in Hin |- *.
    destruct Hin as ([Hl3 Hl4] & Hrow' & Hfr' & HT' & HTf').
    split; [by rewrite Hl3, Hl4|]. split; [|split; [|split]].
    + intros j Hj. destruct (decide (j = n)) as [->|Hne].
      * rewrite Hrow', Hfr by lia. apply for_ext. intros i acc Hi.
        rewrite Hfr by lia. done.
      * rewrite Hfr' by lia. apply Hrow. lia.
    + intros x Hx. rewrite Hfr' by lia. apply Hfr. lia.
    + intros j i Hj Hi. destruct (decide (j = n)) as [->|Hne].
      * rewrite HT' by done. rewrite (Hfr (i + (k + 1) * m)) by lia. f_equal.
        apply HTf. intros j' i' Hj' Hi' Heq. apply idx_inj in Heq; lia.
      * rewrite HTf' by (intros i' Hi' Heq; apply idx_inj in Heq; lia).
        apply HT; lia.
    + intros x Hx. rewrite HTf' by (intros i Hi; apply Hx; lia).
      apply HTf. intros j i Hj Hi. apply Hx; lia.
Qed.
End BackwardFacts.

Section BackwardSpec.
Context {F : Type} {AF : Arith F}.

(** The loop of the backward pass over the positions [N-1 .. 0], from a
    state whose rows below [N] are zero. *)
Lemma bwd_fold_spec m Q alpha N (phi T : list F) :
  (N + 1) * m <= length phi -> m * m <= length T ->
  (forall x, x < N * m -> get fzero phi x = fzero) ->
  let st' := fold_left (fun st k => bwd_step m Q alpha k st) (rev (seq 0 N))
               (phi, T) in
  (length (fst st') = length phi /\ length (snd st') = length T) /\
  (forall x, N * m <= x -> get fzero (fst st') x = get fzero phi x) /\
  (forall k j, k < N -> j < m ->
     get fzero (fst st') (j + k * m) =
     sumf m (fun i => (get fzero (fst st') (i + (k + 1) * m)
                       * revkernel m k alpha Q i j)%fl)) /\
  (forall j i, j < m -> i < m ->
     get fzero (snd st') (j + i * m) =
     fold_left (fun acc k =>
         (acc + get fzero (fst st') (i + (k + 1) * m)
                * revkernel m k alpha Q i j)%fl)
       (rev (seq 0 N)) (get fzero T (j + i * m))) /\
  (forall x, m * m <= x -> get fzero (snd st') x = get fzero T x).
Proof.
  revert phi T. induction N as [|N IH]; intros phi T Hlphi HlT Hzero.
  - cbn [seq rev fold_left fst snd]. repeat split; try done. intros; lia.
  - rewrite rev_seq_S. cbn [fold_left].
    pose proof (bwd_step_get m Q alpha N phi T ltac:(lia) HlT) as Hstep.
    cbv zeta in Hstep.
    destruct (bwd_step m Q alpha N (phi, T)) as [p1 T1]. cbn [fst snd] in Hstep.
    destruct Hstep as ([Hl1 Hl2] & Hrow & Hfr & HT & HTf).
    specialize (IH p1 T1 ltac:(rewrite Hl1; lia) ltac:(rewrite Hl2; lia)).
    destruct IH as ([Hl3 Hl4] & Hfr' & Hrec & HT' & HTf').
    { intros x Hx. rewrite Hfr by lia. apply Hzero. lia. }
    cbv zeta.
    set (st' := fold_left _ (rev (seq 0 N)) (p1, T1)) in *.
    split; [by rewrite Hl3, Hl4|]. split; [|split; [|split]].
    + intros x Hx. rewrite Hfr' by lia. apply Hfr. lia.
    + intros k j Hk Hj. destruct (decide (k = N)) as [->|Hne].
      * rewrite Hfr' by lia. rewrite Hrow by done.
        rewrite Hzero by lia. unfold sumf. apply for_ext. intros i acc Hi.
        rewrite Hfr' by lia. rewrite Hfr by lia. done.
      * apply Hrec; lia.
    + intros j i Hj Hi. rewrite HT' by done. rewrite HT by done.
      rewrite (Hfr' (i + (N + 1) * m)) by lia.
      rewrite (Hfr (i + (N + 1) * m)) by lia. done.
    + intros x Hx. rewrite HTf' by done. by apply HTf.
Qed.

(** What [bwd] returns. *)
Lemma bwd_spec m n Q alpha (phi : list F) :
  1 <= n -> n * m <= length phi ->
  let phi' := fst (bwd m n Q alpha phi) in
  let T' := snd (bwd m n Q alpha phi) in
  (length phi' = length phi /\ length T' = m * m) /\
  (forall j, j < m ->
     get fzero phi' (j + (n - 1) * m) = get fzero alpha (j + (n - 1) * m)) /\
  (forall k j, k < n - 1 -> j < m ->
     get fzero phi' (j + k * m) =
     sumf m (fun i => (get fzero phi' (i + (k + 1) * m)
                       * revkernel m k alpha Q i j)%fl)) /\
  (forall j i, j < m -> i < m ->
     get fzero T' (j + i * m) =
     fold_left (fun acc k =>
         (acc + get fzero phi' (i + (k + 1) * m) * revkernel m k alpha Q i j)%fl)
       (rev (seq 0 (n - 1))) fzero).
Proof.
  intros Hn Hlen. unfold bwd. cbv zeta.
  set (phi0 := memcpy fzero ((n - 1) * m) ((n - 1) * m) m alpha
                 (memset fzero (m * n) phi)).
  assert (Hl0 : length phi0 = length phi).
  { unfold phi0. by rewrite length_memcpy, length_memset. }
  assert (Hget0 : forall x, x < n * m ->
    get fzero phi0 x =
    if decide ((n - 1) * m <= x) then get fzero alpha x else fzero).
  { intros x Hx. unfold phi0. rewrite get_memcpy, length_memset, get_memset.
    assert (n * m = (n - 1) * m + m) by nia.
    repeat case_decide; try lia; try done. f_equal. lia. }
  pose proof (bwd_fold_spec m Q alpha (n - 1) phi0 (repeat fzero (m * m))
                ltac:(rewrite Hl0; nia) ltac:(rewrite repeat_length; lia))
    as Hspec.
  destruct Hspec as ([Hl1 Hl2] & Hfr & Hrec & HT & _).
  { intros x Hx. rewrite Hget0 by nia. case_decide; [lia|done]. }
  set (st' := fold_left _ (rev (seq 0 (n - 1))) _) in *.
  split; [split; [by rewrite Hl1|by rewrite Hl2, repeat_length]|].
  split; [|split].
  - intros j Hj. rewrite Hfr by lia. rewrite Hget0 by nia.
    case_decide; [done|lia].
  - intros k j Hk Hj. by apply Hrec.
  - intros j i Hj Hi. rewrite HT by done. by rewrite get_repeat.
Qed.
End BackwardSpec.

Lemma fold_left_ext_in {A B} (f g : A -> B -> A) l a :
  (forall a x, In x l -> f a x = g a x) -> fold_left f l a = fold_left g l a.
Proof.
  revert a. induction l as [|x l IH]; intros a Hfg; [done|].
  cbn [fold_left]. rewrite Hfg by (by left). apply IH.
  intros a' x' Hx'. apply Hfg. by right.
Qed.

Lemma split_index m x n : x < n * m -> x = x mod m + x / m * m /\ x mod m < m /\ x / m < n.
Proof.
  intros Hx. assert (Hm : m <> 0) by (intros ->; lia).
  pose proof (Nat.div_mod_eq x m). pose proof (Nat.mod_upper_bound x m Hm).
  split; [lia|]. split; [done|].
  apply Nat.Div0.div_lt_upper_bound. lia.
Qed.

Section BackwardOutput.
Context {F : Type} {AF : Arith F}.

(** X13.  What [bwd] computes from the alphas: the last row of [phi] is
    the last row of [alpha]; every row [k] below is obtained from the
    row [k+1] through the reverse kernel,
    [phi[j+k*m] = sum_i phi[i+(k+1)*m] * R_k[i+j*m]] with
    [R_k[i+j*m] = alpha[j+k*m] * Q[j+i*m] / sum_j' alpha[j'+k*m] * Q[j'+i*m]];
    and [T[j+i*m]] accumulates the terms of these sums over the positions
    [n-2 .. 0]. *)
Theorem bwd_recursion m n Q alpha (phi : list F) :
  1 <= n -> n * m <= length phi ->
  let phi' := fst (bwd m n Q alpha phi) in
  let T' := snd (bwd m n Q alpha phi) in
  (length phi' = length phi /\ length T' = m * m) /\
  (forall j, j < m ->
     get fzero phi' (j + (n - 1) * m) = get fzero alpha (j + (n - 1) * m)) /\
  (forall k j, k < n - 1 -> j < m ->
     get fzero phi' (j + k * m) =
     sumf m (fun i => (get fzero phi' (i + (k + 1) * m)
                       * revkernel m k alpha Q i j)%fl)) /\
  (forall j i, j < m -> i < m ->
     get fzero T' (j + i * m) =
     fold_left (fun acc k =>
         (acc + get fzero phi' (i + (k + 1) * m) * revkernel m k alpha Q i j)%fl)
       (rev (seq 0 (n - 1))) fzero).
Proof. intros Hn Hlen. by apply bwd_spec. Qed.

(** The rows of [phi] do not depend on its previous content. *)
Lemma bwd_rows_initial m n Q alpha (phi1 phi2 : list F) :
  1 <= n -> n * m <= length phi1 -> n * m <= length phi2 ->
  forall k j, k < n -> j < m ->
    get fzero (fst (bwd m n Q alpha phi1)) (j + k * m) =
    get fzero (fst (bwd m n Q alpha phi2)) (j + k * m).
Proof.
  intros Hn Hl1 Hl2.
  destruct (bwd_spec m n Q alpha phi1 Hn Hl1) as (_ & Hlast1 & Hrec1 & _).
  destruct (bwd_spec m n Q alpha phi2 Hn Hl2) as (_ & Hlast2 & Hrec2 & _).
  enough (Hd : forall d k, k + d = n - 1 -> forall j, j < m ->
    get fzero (fst (bwd m n Q alpha phi1)) (j + k * m) =
    get fzero (fst (bwd m n Q alpha phi2)) (j + k * m)).
  { intros k j Hk Hj. apply (Hd (n - 1 - k)); [lia|done]. }
  induction d as [|d IH]; intros k Hk j Hj.
  - replace k with (n - 1) by lia. by rewrite Hlast1, Hlast2.
  - rewrite Hrec1, Hrec2 by (lia || done). apply sumf_ext. intros i Hi.
    rewrite (IH (k + 1)) by (lia || done). done.
Qed.

(** X14.  The first [n*m] entries of [phi] and the whole of [T] that
    [bwd] returns do not depend on the previous content of [phi] (which
    [bw_zinm] takes from [malloc]). *)
Theorem bwd_initial_content m n Q alpha (phi1 phi2 : list F) :
  1 <= n -> n * m <= length phi1 -> n * m <= length phi2 ->
  snd (bwd m n Q alpha phi1) = snd (bwd m n Q alpha phi2) /\
  forall x, x < n * m ->
    get fzero (fst (bwd m n Q alpha phi1)) x =
    get fzero (fst (bwd m n Q alpha phi2)) x.
Proof.
  intros Hn Hl1 Hl2.
  pose proof (bwd_rows_initial m n Q alpha phi1 phi2 Hn Hl1 Hl2) as Hrows.
  destruct (bwd_spec m n Q alpha phi1 Hn Hl1) as ([_ HlT1] & _ & _ & HT1).
  destruct (bwd_spec m n Q alpha phi2 Hn Hl2) as ([_ HlT2] & _ & _ & HT2).
  split.
  - apply (nth_ext _ _ fzero fzero); [by rewrite HlT1, HlT2|].
    intros x Hx. rewrite HlT1 in Hx.
    destruct (split_index m x m Hx) as (Hxe & Hj & Hi).
    fold (get fzero (snd (bwd m n Q alpha phi1)) x).
    fold (get fzero (snd (bwd m n Q alpha phi2)) x).
    rewrite Hxe, HT1, HT2 by done.
    apply fold_left_ext_in. intros acc k Hk.
    apply in_rev, in_seq in Hk.
    rewrite (Hrows (k + 1) (x / m)) by (lia || done). done.
  - intros x Hx. destruct (split_index m x n Hx) as (Hxe & Hj & Hk).
    rewrite Hxe. by apply Hrows.
Qed.
End BackwardOutput.

Lemma bwd_recursion_witness :
  let Q := [dbl 1 2; dbl 1 4; dbl 1 2; dbl 3 4] in
  let alpha := [dbl 1 2; dbl 1 2; dbl 1 4; dbl 3 4] in
  let phi' := fst (bwd 2 2 Q alpha (repeat fnan 4)) in
  let T' := snd (bwd 2 2 Q alpha (repeat fnan 4)) in
  (length phi' = 4 /\ length T' = 2 * 2) /\
  (forall j, j < 2 ->
     get fzero phi' (j + (2 - 1) * 2) = get fzero alpha (j + (2 - 1) * 2)) /\
  (forall k j, k < 2 - 1 -> j < 2 ->
     get fzero phi' (j + k * 2) =
     sumf 2 (fun i => (get fzero phi' (i + (k + 1) * 2)
                       * revkernel 2 k alpha Q i j)%fl)) /\
  (forall j i, j < 2 -> i < 2 ->
     get fzero T' (j + i * 2) =
     fold_left (fun acc k =>
         (acc + get fzero phi' (i + (k + 1) * 2) * revkernel 2 k alpha Q i j)%fl)
       (rev (seq 0 (2 - 1))) fzero).
Proof.
  intros Q alpha phi' T'.
  apply (bwd_recursion 2 2 Q alpha (repeat fnan 4)); simpl; lia.
Defined.

Lemma bwd_initial_content_witness :
  let Q := [dbl 1 2; dbl 1 4; dbl 1 2; dbl 3 4] in
  let alpha := [dbl 1 2; dbl 1 2; dbl 1 4; dbl 3 4] in
  snd (bwd 2 2 Q alpha (repeat fnan 5)) = snd (bwd 2 2 Q alpha (repeat fone 4)) /\
  forall x, x < 2 * 2 ->
    get fzero (fst (bwd 2 2 Q alpha (repeat fnan 5))) x =
    get fzero (fst (bwd 2 2 Q alpha (repeat fone 4))) x.
Proof.
  intros Q alpha.
  apply (bwd_initial_content 2 2 Q alpha (repeat fnan 5) (repeat fone 4));
    simpl; lia.
Defined.

(** ** Exact arithmetic: the posterior probabilities *)

(** A row of the reverse kernel whose denominator is not zero. *)
Lemma revkernel_fin m k (alpha Q : list xq) i (d : Qc) :
  revdenom m k alpha Q i = XQ d -> d <> 0%Qc ->
  let aq j := fin (get fzero alpha (j + k * m) * get fzero Q (j + i * m))%fl in
  d = qsumf m aq /\
  forall j, j < m -> revkernel m k alpha Q i j = XQ (aq j / d).
Proof.
  intros Hd Hne aq. unfold revdenom in Hd.
  pose proof (xq_sumf_inv _ _ _ Hd) as Hfin.
  pose proof (xq_sumf_val _ _ _ Hd) as Hval.
  split; [done|]. intros j Hj. unfold revkernel, revdenom.
  rewrite Hd, (Hfin j Hj). by apply xq_div_fin.
Qed.

(** One turn of the recursion keeps the sum of the row. *)
Lemma bwd_row_sum m k (alpha Q : list xq) (next : nat -> xq) :
  sumf m next = fone ->
  (forall i, i < m ->
     exists d, revdenom m k alpha Q i = XQ d /\ d <> 0%Qc) ->
  sumf m (fun j => sumf m (fun i => (next i * revkernel m k alpha Q i j)%fl))
  = fone.
Proof.
  intros Hnext Hden.
  pose proof (xq_sumf_inv _ _ _ Hnext) as Hnfin.
  pose proof (xq_sumf_val _ _ _ Hnext) as Hnval.
  set (f := fun i => fin (next i)) in *.
  set (aq := fun i j =>
    fin (get fzero alpha (j + k * m) * get fzero Q (j + i * m))%fl).
  set (d := fun i => qsumf m (aq i)).
  assert (Hk : forall i j, i < m -> j < m ->
    revkernel m k alpha Q i j = XQ (aq i j / d i) /\ d i <> 0%Qc).
  { intros i j Hi Hj. destruct (Hden i Hi) as (di & Hdi & Hne).
    destruct (revkernel_fin m k alpha Q i di Hdi Hne) as [Hde Hr].
    fold (aq i) in Hde, Hr. fold (d i) in Hde. subst di.
    split; [by apply Hr|done]. }
  rewrite (xq_sumf_fin m _
    (fun j => qsumf m (fun i => (f i * (aq i j / d i))%Qc))).
  - rewrite qsumf_exchange.
    rewrite (qsumf_ext m _ f).
    + by rewrite <- Hnval.
    + intros i Hi. rewrite qsumf_scale_l, qsumf_div. fold (d i).
      destruct m as [|m']; [lia|].
      destruct (Hk i 0 Hi ltac:(lia)) as [_ Hne]. by field.
  - intros j Hj. apply xq_sumf_fin. intros i Hi.
    destruct (Hk i j Hi Hj) as [-> _]. by rewrite (Hnfin i Hi).
Qed.

Lemma bwd_rows_sum m n (Q alpha phi : list xq) k :
  1 <= n -> n * m <= length phi ->
  sumf m (fun j => get fzero alpha (j + (n - 1) * m)) = fone ->
  (forall k i, k < n - 1 -> i < m ->
     exists d, revdenom m k alpha Q i = XQ d /\ d <> 0%Qc) ->
  k < n ->
  sumf m (fun j => get fzero (fst (bwd m n Q alpha phi)) (j + k * m)) = fone.
Proof.
  intros Hn Hlen Hlast Hden Hk.
  destruct (bwd_spec m n Q alpha phi Hn Hlen) as (_ & Hl & Hrec & _).
  enough (Hd : forall d k, k + d = n - 1 ->
    sumf m (fun j => get fzero (fst (bwd m n Q alpha phi)) (j + k * m)) = fone).
  { apply (Hd (n - 1 - k)). lia. }
  clear k Hk. induction d as [|d IH]; intros k Hk.
  - replace k with (n - 1) by lia. rewrite <- Hlast.
    apply sumf_ext. intros j Hj. by apply Hl.
  - rewrite <- (bwd_row_sum m k alpha Q
                  (fun i => get fzero (fst (bwd m n Q alpha phi)) (i + (k + 1) * m))).
    + apply sumf_ext. intros j Hj. apply Hrec; [lia|done].
    + apply IH. lia.
    + intros i Hi. apply Hden; [lia|done].
Qed.

(** X15.  In exact arithmetic: when the last row of [alpha] sums to one
    and no denominator of the reverse kernel is zero, every row of the
    posterior probabilities [phi] that [bwd] returns sums to one. *)
Theorem bwd_rows_sum_to_one m n (Q alpha phi : list xq) k :
  1 <= n -> n * m <= length phi ->
  sumf m (fun j => get fzero alpha (j + (n - 1) * m)) = fone ->
  (forall k i, k < n - 1 -> i < m ->
     exists d, revdenom m k alpha Q i = XQ d /\ d <> 0%Qc) ->
  k < n ->
  sumf m (fun j => get fzero (fst (bwd m n Q alpha phi)) (j + k * m)) = fone.
Proof. intros. by apply bwd_rows_sum. Qed.

Lemma bwd_rows_sum_to_one_witness :
  let Q := [xqc 1 2; xqc 1 4; xqc 1 2; xqc 3 4] in
  let alpha := [xqc 1 2; xqc 1 2; xqc 1 4; xqc 3 4] in
  map xq_val (fst (bwd 2 2 Q alpha (repeat fnan 4))) =
    [Some (7 # 15); Some (8 # 15); Some (1 # 4); Some (3 # 4)]%Q /\
  sumf 2 (fun j => get fzero (fst (bwd 2 2 Q alpha (repeat fnan 4))) (j + 0 * 2))
  = fone.
Proof.
  intros Q alpha. split; [reflexivity|].
  apply (bwd_rows_sum_to_one 2 2 Q alpha (repeat fnan 4) 0).
  - lia.
  - simpl. lia.
  - vm_compute. f_equal; apply Qc_is_canon; reflexivity.
  - intros k i Hk Hi. assert (k = 0) as -> by lia.
    destruct i as [|[|i]]; [| |lia].
    + exists (Q2Qc (3 # 8)). split; [|discriminate].
      vm_compute. f_equal; apply Qc_is_canon; reflexivity.
    + exists (Q2Qc (5 # 8)). split; [|discriminate].
      vm_compute. f_equal; apply Qc_is_canon; reflexivity.
  - lia.
Defined.

(** A sum accumulated over the positions [N-1 .. 0]. *)
Lemma xq_fold_rev_fin N (g : nat -> xq) (f : nat -> Qc) (a : Qc) :
  (forall k, k < N -> g k = XQ (f k)) ->
  fold_left (fun acc k => (acc + g k)%fl) (rev (seq 0 N)) (XQ a) =
  XQ (a + qsumf N f).
Proof.
  revert a. induction N as [|N IH]; intros a Hg.
  - cbn. f_equal. ring.
  - rewrite rev_seq_S. cbn [fold_left]. rewrite (Hg N) by lia.
    change (XQ a + XQ (f N))%fl with (XQ (a + f N)).
    rewrite IH by (intros; apply Hg; lia). f_equal. cbn [qsumf]. ring.
Qed.

(** X16.  In exact arithmetic, under the same conditions: the sum of the
    row [p] of [T] (the transitions out of the state [p], the
    denominator of [update_trans]) is the sum of the posterior
    probabilities of the state [p] over the positions [0 .. n-2]. *)
Theorem bwd_trans_row_is_occupancy m n (Q alpha phi : list xq) p :
  1 <= n -> n * m <= length phi ->
  sumf m (fun j => get fzero alpha (j + (n - 1) * m)) = fone ->
  (forall k i, k < n - 1 -> i < m ->
     exists d, revdenom m k alpha Q i = XQ d /\ d <> 0%Qc) ->
  p < m ->
  trans_rowsum m (snd (bwd m n Q alpha phi)) p =
  sumf (n - 1) (fun k => get fzero (fst (bwd m n Q alpha phi)) (p + k * m)).
Proof.
  intros Hn Hlen Hlast Hden Hp.
  pose proof (fun k => bwd_rows_sum m n Q alpha phi k Hn Hlen Hlast Hden) as Hsum.
  destruct (bwd_spec m n Q alpha phi Hn Hlen) as (_ & _ & Hrec & HT).
  set (phi' := fst (bwd m n Q alpha phi)) in *.
  set (Fq := fun k s => fin (get fzero phi' (s + (k + 1) * m))).
  set (Rq := fun k s => fin (revkernel m k alpha Q s p)).
  assert (Hphi : forall k s, k < n - 1 -> s < m ->
    get fzero phi' (s + (k + 1) * m) = XQ (Fq k s)).
  { intros k s Hk Hs.
    apply (xq_sumf_inv _ _ _ (Hsum (k + 1) ltac:(lia)) s Hs). }
  assert (HR : forall k s, k < n - 1 -> s < m ->
    revkernel m k alpha Q s p = XQ (Rq k s)).
  { intros k s Hk Hs. destruct (Hden k s Hk Hs) as (d & Hd & Hne).
    destruct (revkernel_fin m k alpha Q s d Hd Hne) as [_ Hr].
    unfold Rq. by rewrite (Hr p Hp). }
  unfold trans_rowsum.
  rewrite (xq_sumf_fin m _
    (fun s => qsumf (n - 1) (fun k => (Fq k s * Rq k s)%Qc))).
  - rewrite (xq_sumf_fin (n - 1) _
      (fun k => qsumf m (fun s => (Fq k s * Rq k s)%Qc))).
    + by rewrite qsumf_exchange.
    + intros k Hk. rewrite Hrec by done. apply xq_sumf_fin. intros s Hs.
      by rewrite Hphi, HR.
  - intros s Hs. rewrite HT by done.
    change (@fzero xq exact) with (XQ 0%Qc).
    rewrite (xq_fold_rev_fin (n - 1) _ (fun k => (Fq k s * Rq k s)%Qc)).
    + f_equal. ring.
    + intros k Hk. by rewrite Hphi, HR.
Qed.

Lemma bwd_trans_row_is_occupancy_witness :
  let Q := [xqc 1 2; xqc 1 4; xqc 1 2; xqc 3 4] in
  let alpha := [xqc 1 2; xqc 1 2; xqc 1 4; xqc 3 4] in
  map xq_val (snd (bwd 2 2 Q alpha (repeat fnan 4))) =
    [Some (1 # 6); Some (1 # 12); Some (3 # 10); Some (9 # 20)]%Q /\
  trans_rowsum 2 (snd (bwd 2 2 Q alpha (repeat fnan 4))) 0 =
  sumf (2 - 1) (fun k => get fzero (fst (bwd 2 2 Q alpha (repeat fnan 4))) (0 + k * 2)).
Proof.
  intros Q alpha. split; [reflexivity|].
  apply (bwd_trans_row_is_occupancy 2 2 Q alpha (repeat fnan 4) 0).
  - lia.
  - simpl. lia.
  - vm_compute. f_equal; apply Qc_is_canon; reflexivity.
  - intros k i Hk Hi. assert (k = 0) as -> by lia.
    destruct i as [|[|i]]; [| |lia].
    + exists (Q2Qc (3 # 8)). split; [|discriminate].
      vm_compute. f_equal; apply Qc_is_canon; reflexivity.
    + exists (Q2Qc (5 # 8)). split; [|discriminate].
      vm_compute. f_equal; apply Qc_is_canon; reflexivity.
  - lia.
Defined.

(** ** The trainer: convergence test and bracketing *)

Lemma xq_ltb_lt (a b : Qc) : xq_ltb (XQ a) (XQ b) = true <-> (a < b)%Qc.
Proof.
  cbn [xq_ltb]. rewrite Qclt_alt. destruct (a ?= b)%Qc; split; done.
Qed.

Lemma xq_ltb_ge (a b : Qc) : xq_ltb (XQ a) (XQ b) = false <-> (b <= a)%Qc.
Proof.
  split.
  - intros Hf. apply Qcnot_lt_le. intros Hlt. apply xq_ltb_lt in Hlt. congruence.
  - intros Hle. destruct (xq_ltb (XQ a) (XQ b)) eqn:Hlt; [|done].
    apply xq_ltb_lt in Hlt. by apply Qcle_not_lt in Hle.
Qed.

(** X17.  In exact arithmetic, when no parameter is NaN, [maxd] is an
    upper bound of the changes [|newp[i] - p[i]|] of all the parameters,
    so that the test [maxd < TOLERANCE] of convergence holds only when
    every parameter has changed by less than [TOLERANCE]. *)
Theorem bw_maxd_upper_bound m r (newp p : list xq) i :
  (forall i, i < m * (r + 1) ->
     get fzero newp i <> XNaN /\ get fzero p i <> XNaN) ->
  i < m * (r + 1) ->
  (fabs (get fzero newp i - get fzero p i) >? bw_maxd m r newp p)%fl = false /\
  ((bw_maxd m r newp p <? TOLERANCE)%fl = true ->
   (fabs (get fzero newp i - get fzero p i) <? TOLERANCE)%fl = true).
Proof.
  intros Hfin Hi.
  set (d := fun i => Qc_abs (fin (get fzero newp i) - fin (get fzero p i))).
  assert (Hd : forall i, i < m * (r + 1) ->
    fabs (get fzero newp i - get fzero p i)%fl = XQ (d i)).
  { intros i' Hi'. destruct (Hfin i' Hi') as [H1 H2]. unfold d.
    by destruct (get fzero newp i'), (get fzero p i'). }
  assert (Hinv : exists M, bw_maxd m r newp p = XQ M /\
    forall i, i < m * (r + 1) -> (d i <= M)%Qc).
  { unfold bw_maxd. set (body := fun (i : nat) (maxd : xq) => _).
    enough (Hn : forall n, n <= m * (r + 1) ->
      exists M, for_ 0 n body fzero = XQ M /\ forall i, i < n -> (d i <= M)%Qc).
    { by apply Hn. }
    induction n as [|n IH]; intros Hn.
    - exists 0%Qc. split; [done|]. intros; lia.
    - destruct IH as (M & HM & Hle); [lia|].
      rewrite for_snoc, Nat.add_0_l, HM. unfold body. cbv zeta.
      rewrite Hd by lia.
      change (XQ M <? XQ (d n))%fl with (xq_ltb (XQ M) (XQ (d n))).
      destruct (xq_ltb (XQ M) (XQ (d n))) eqn:Hc.
      + exists (d n). split; [done|]. intros i' Hi'.
        apply xq_ltb_lt in Hc.
        destruct (decide (i' = n)) as [->|Hne]; [apply Qcle_refl|].
        apply Qclt_le_weak. eapply Qcle_lt_trans; [|exact Hc].
        apply Hle. lia.
      + exists M. split; [done|]. intros i' Hi'.
        apply xq_ltb_ge in Hc.
        destruct (decide (i' = n)) as [->|Hne]; [done|]. apply Hle. lia. }
  destruct Hinv as (M & HM & Hle).
  rewrite HM, Hd by done. specialize (Hle i Hi).
  split.
  - by apply xq_ltb_ge.
  - unfold TOLERANCE, lit.
    set (tol := (of_int 1 / of_int 1000000)%fl).
    assert (Htol : tol = XQ (Q2Qc (1 # 1000000))).
    { vm_compute. f_equal; apply Qc_is_canon; reflexivity. }
    rewrite Htol.
    change (XQ M <? XQ (Q2Qc (1 # 1000000)))%fl
      with (xq_ltb (XQ M) (XQ (Q2Qc (1 # 1000000)))).
    change (XQ (d i) <? XQ (Q2Qc (1 # 1000000)))%fl
      with (xq_ltb (XQ (d i)) (XQ (Q2Qc (1 # 1000000)))).
    rewrite !xq_ltb_lt. intros HM'. by eapply Qcle_lt_trans.
Qed.

Lemma bw_maxd_upper_bound_witness :
  let newp := [xqc 1 2; xqc 1 4; xqc 1 4] in
  let p := [xqc 1 2; xqc 1 3; xqc 1 6] in
  map xq_val [bw_maxd 1 2 newp p] = [Some (1 # 12)%Q] /\
  (fabs (get fzero newp 1 - get fzero p 1) >? bw_maxd 1 2 newp p)%fl = false /\
  ((bw_maxd 1 2 newp p <? TOLERANCE)%fl = true ->
   (fabs (get fzero newp 1 - get fzero p 1) <? TOLERANCE)%fl = true).
Proof.
  intros newp p. split; [reflexivity|].
  apply (bw_maxd_upper_bound 1 2 newp p 1); [|simpl; lia].
  intros i Hi. destruct i as [|[|[|i]]]; [| | |simpl in Hi; lia];
    split; discriminate.
Defined.

(** X18.  In binary64 the test of convergence does not see NaN: a
    difference [newp[i] - p[i]] that is NaN never enters [maxd], so that
    when every entry of [newp] is NaN, [maxd] is zero and the test
    [maxd < TOLERANCE] succeeds. *)
Theorem bw_maxd_skips_nan m r (newp p : list double) :
  (forall i, i < m * (r + 1) -> get fzero newp i = fnan) ->
  bw_maxd m r newp p = fzero /\
  (bw_maxd m r newp p <? TOLERANCE)%fl = true.
Proof.
  intros Hnan.
  assert (Hz : bw_maxd m r newp p = fzero).
  { unfold bw_maxd. induction (m * (r + 1)) as [|n IH]; [done|].
    rewrite for_snoc, Nat.add_0_l, IH by (intros; apply Hnan; lia).
    cbv zeta. by rewrite Hnan by lia. }
  split; [done|]. rewrite Hz. by vm_compute.
Qed.

Lemma bw_maxd_skips_nan_witness :
  bw_maxd 1 2 [fnan; fnan; fnan] [dbl 1 2; dbl 1 4; dbl 1 4] = fzero /\
  (bw_maxd 1 2 [fnan; fnan; fnan] [dbl 1 2; dbl 1 4; dbl 1 4] <? TOLERANCE)%fl
  = true.
Proof.
  apply (bw_maxd_skips_nan 1 2 [fnan; fnan; fnan] [dbl 1 2; dbl 1 4; dbl 1 4]).
  intros i Hi. destruct i as [|[|[|i]]]; [done|done|done|simpl in Hi; lia].
Defined.

(** A [while] loop that ends establishes the negation of its condition
    and keeps its invariant. *)
Lemma while_inv {St} (P : St -> Prop) fuel (cond : St -> bool) body s s' :
  P s -> (forall s, P s -> cond s = true -> P (body s)) ->
  while_ fuel cond body s = Some s' -> P s' /\ cond s' = false.
Proof.
  intros HP Hstep. revert s HP. induction fuel as [|fuel IH]; intros s HP Hrun.
  - cbn in Hrun. destruct (cond s) eqn:Hc; [done|]. by injection Hrun as <-.
  - cbn in Hrun. destruct (cond s) eqn:Hc.
    + apply (IH (body s)); [by apply Hstep|done].
    + by injection Hrun as <-.
Qed.

Lemma xq_double_half (x : xq) : (x * of_int 2 / of_int 2)%fl = x.
Proof.
  destruct x as [|q]; [done|].
  change (XQ q * of_int 2)%fl with (XQ (q * Q2Qc 2)).
  change (of_int 2 : xq) with (XQ (Q2Qc 2)).
  rewrite xq_div_fin by discriminate. f_equal. field. discriminate.
Qed.

Lemma xq_half_double (x : xq) : (x / of_int 2 * of_int 2)%fl = x.
Proof.
  destruct x as [|q]; [done|].
  change (of_int 2 : xq) with (XQ (Q2Qc 2)).
  rewrite xq_div_fin by discriminate.
  change (XQ (q / Q2Qc 2) * XQ (Q2Qc 2))%fl with (XQ (q / Q2Qc 2 * Q2Qc 2)).
  f_equal. field. discriminate.
Qed.

Lemma xq_ltb_asym (x y : xq) : (x <? y)%fl = true -> (y <? x)%fl = false.
Proof.
  destruct x as [|a], y as [|b]; try done.
  change (xq_ltb (XQ a) (XQ b) = true -> xq_ltb (XQ b) (XQ a) = false).
  rewrite xq_ltb_lt, xq_ltb_ge. apply Qclt_le_weak.
Qed.

Lemma xq_eq_val (x y : xq) : xq_val x = xq_val y -> x = y.
Proof.
  destruct x as [|a], y as [|b]; cbn; try done.
  intros Hab. f_equal. apply Qc_is_canon. by injection Hab as ->.
Qed.

Lemma xq_triple_eq (x y z x' y' z' : xq) :
  xq_val x = xq_val x' -> xq_val y = xq_val y' -> xq_val z = xq_val z' ->
  Some (x, y, z) = Some (x', y', z').
Proof. by intros ->%xq_eq_val ->%xq_eq_val ->%xq_eq_val. Qed.

Section Bracket.
Context {LM : Libm xq}.

(** X19.  In exact arithmetic, when the search of the bounds of [p0]
    ends, the bounds are [p0_hi = 2 * p0_lo], one of them is the last
    [p0] tried, and they enclose a change of sign of [f]: [f(p0_lo)] is
    not positive and [f(p0_hi)] is not negative. *)
Theorem bw_bracket_encloses_root fuel (a pi A B C D E p0 lo hi : xq) :
  bw_bracket fuel a pi A B C D E = Some (p0, lo, hi) ->
  let f x := eval_bw_f a pi x A B C D E in
  hi = (lo * of_int 2)%fl /\ (p0 = lo \/ p0 = hi) /\
  (f lo >? fzero)%fl = false /\ (f hi <? fzero)%fl = false.
Proof.
  intros Hrun. cbv zeta beta. unfold bw_bracket in Hrun. cbv zeta beta in Hrun.
  set (f := fun x => eval_bw_f a pi x A B C D E).
  change (eval_bw_f a pi lo A B C D E) with (f lo).
  change (eval_bw_f a pi hi A B C D E) with (f hi).
  destruct (eval_bw_f a pi (lit 5 10) A B C D E <? fzero)%fl eqn:H0.
  - destruct (while_ fuel _ _ _) as [s|] eqn:Hw; [|done].
    injection Hrun as <- <- <-.
    apply (while_inv (fun s => (f (s / of_int 2) <? fzero)%fl = true)) in Hw.
    + destruct Hw as [Hlo Hhi]. split; [by rewrite xq_half_double|].
      split; [by right|]. split; [by apply xq_ltb_asym|done].
    + by rewrite xq_double_half.
    + intros s' _ Hc. by rewrite xq_double_half.
  - destruct (while_ fuel _ _ _) as [s|] eqn:Hw; [|done].
    injection Hrun as <- <- <-.
    apply (while_inv (fun s => (f (s * of_int 2) <? fzero)%fl = false)) in Hw.
    + destruct Hw as [Hhi Hlo]. split; [done|]. split; [by left|]. done.
    + by rewrite xq_half_double.
    + intros s' _ Hc. rewrite xq_half_double. by apply xq_ltb_asym.
Qed.
End Bracket.

Lemma bw_bracket_encloses_root_witness :
  let a := xqc 1 1 in
  let pi := xqc 1 2 in
  let A := xqc 1 1 in
  let B := xqc 0 1 in
  let C := xqc 2 1 in
  let D := xqc 0 1 in
  let E := xqc 1 1 in
  let f x := eval_bw_f (LM := libm_fixed) a pi x A B C D E in
  xqc 1 2 = (xqc 1 4 * of_int 2)%fl /\ (xqc 1 4 = xqc 1 4 \/ xqc 1 4 = xqc 1 2) /\
  (f (xqc 1 4) >? fzero)%fl = false /\ (f (xqc 1 2) <? fzero)%fl = false.
Proof.
  intros a pi A B C D E f.
  apply (bw_bracket_encloses_root (LM := libm_fixed) 10 a pi A B C D E
           (xqc 1 4) (xqc 1 4) (xqc 1 2)).
  vm_compute. apply xq_triple_eq; reflexivity.
Defined.

(** ** The constructors *)

Lemma memcpy_all {A} (d : A) n (src dst : list A) :
  length dst = n -> n <= length src -> memcpy d 0 0 n src dst = take n src.
Proof.
  intros Hd Hs. apply (nth_ext _ _ d d).
  - rewrite length_memcpy, length_take. lia.
  - intros x Hx. rewrite length_memcpy in Hx.
    fold (get d (memcpy d 0 0 n src dst) x). fold (get d (take n src) x).
    rewrite get_memcpy. case_decide; [|lia].
    unfold get. rewrite !nth_lookup, lookup_take_lt by lia. do 2 f_equal. lia.
Qed.

(** X20.  The constructors: [new_ChIP] keeps the [nb] first block sizes;
    [new_jahmm] returns [NULL] for a [NULL] argument; and after
    [set_jahmm_par] on a structure made by [new_jahmm], the transitions
    and the emission parameters are the [m*m] and [m*(r+1)] first values
    given, nothing remaining of what the buffers of [malloc] held, while
    [pem], [phi] and [path] are [NULL] and [l] is zero. *)
Theorem constructors_set_parameters {F} `{Arith F} (newQ newp : list F) m
    r nb y size (Q : list F) a pi (p : list F) :
  nb <= length size ->
  length newQ = m * m -> length newp = m * (r + 1) ->
  m * m <= length Q -> m * (r + 1) <= length p ->
  let ChIP := new_ChIP r nb y size in
  ChIP = {| chip_r := r; chip_nb := nb; chip_y := y; chip_size := take nb size |} /\
  new_jahmm newQ newp m None = None /\
  exists j0, new_jahmm newQ newp m (Some ChIP) = Some j0 /\
    set_jahmm_par j0 Q a pi p =
    {| jm := m; jChIP := ChIP; jQ := take (m * m) Q; ja := a; jpi := pi;
       jp := take (m * (r + 1)) p; jpem := None; jphi := None; jpath := None;
       jl := fzero |}.
Proof.
  intros Hnb HlQ Hlp HQ Hp ChIP.
  assert (HC : ChIP =
    {| chip_r := r; chip_nb := nb; chip_y := y; chip_size := take nb size |}).
  { unfold ChIP, new_ChIP. f_equal. apply memcpy_all; [|done].
    by rewrite repeat_length. }
  split; [done|]. split; [done|].
  eexists. split; [done|]. unfold set_jahmm_par. cbn [jm jChIP jQ jp jpem jphi jpath jl].
  rewrite HC. cbn [chip_r]. f_equal; by apply memcpy_all.
Qed.

Lemma constructors_set_parameters_witness :
  let ChIP := new_ChIP 2 1 [10; 0; 10; 0; 0; 0; 0; 5]%Z [4; 7] in
  ChIP = chip_A /\
  new_jahmm (repeat (fnan : double) 4) (repeat fnan 6) 2 None = None /\
  exists j0,
    new_jahmm (repeat (fnan : double) 4) (repeat fnan 6) 2 (Some ChIP) = Some j0 /\
    set_jahmm_par j0 (jQ jahmm_A ++ [fnan]) (dbl 2 1) (dbl 5 10) (jp jahmm_A) =
    {| jm := 2; jChIP := ChIP; jQ := take (2 * 2) (jQ jahmm_A ++ [fnan]);
       ja := dbl 2 1; jpi := dbl 5 10; jp := take (2 * (2 + 1)) (jp jahmm_A);
       jpem := None; jphi := None; jpath := None; jl := fzero |}.
Proof.
  intros ChIP.
  apply (constructors_set_parameters (repeat (fnan : double) 4) (repeat fnan 6) 2
           2 1 [10; 0; 10; 0; 0; 0; 0; 5]%Z [4; 7] (jQ jahmm_A ++ [fnan])
           (dbl 2 1) (dbl 5 10) (jp jahmm_A)); simpl; lia.
Defined.

(** ** Loops that write one row at each turn *)

Section RowLoop.
Context {A : Type} (d : A) (m : nat) (step : nat -> list A -> list A).
Hypothesis step_length : forall k l, length (step k l) = length l.
Hypothesis step_other : forall k l x,
  ~ (k * m <= x < k * m + m) -> get d (step k l) x = get d l x.

Lemma rowloop_length n l : length (for_ 0 n step l) = length l.
Proof using step_length.
  induction n as [|n IH]; [done|]. by rewrite for_snoc, step_length.
Qed.

Lemma rowloop_below n n' l x :
  n <= n' -> x < n * m ->
  get d (for_ 0 n' step l) x = get d (for_ 0 n step l) x.
Proof using step_other.
  intros Hn Hx. induction Hn as [|n' Hn IH]; [done|].
  rewrite for_snoc, step_other; [done|]. simpl. nia.
Qed.

Lemma rowloop_at n l k j :
  k < n -> j < m ->
  get d (for_ 0 n step l) (j + k * m) =
  get d (step k (for_ 0 k step l)) (j + k * m).
Proof using step_other.
  intros Hk Hj. rewrite (rowloop_below (S k) n) by (lia || nia).
  by rewrite for_snoc.
Qed.
End RowLoop.

(** ** The emissions of the mixture *)

Section MnFacts.
Context {F : Type} {AF : Arith F} {LM : Libm F}.

Lemma length_mn_step m r yz t a logp logq output index k (pem : list F) :
  length (mn_step m r yz t a logp logq output index k pem) = length pem.
Proof. unfold mn_step. repeat case_match; apply length_memcpy. Qed.

Lemma get_mn_step_other m r yz t a logp logq output index k (pem : list F) x :
  ~ (k * m <= x < k * m + m) ->
  get fzero (mn_step m r yz t a logp logq output index k pem) x = get fzero pem x.
Proof.
  intros Hx. unfold mn_step.
  repeat case_match; rewrite get_memcpy; case_decide; done || lia.
Qed.

(** X21.  The emissions of the mixture ([mnmultinom_prob]), for an index
    that is given (none of its entries is negative): the index is left
    as it is; a row [k] whose index is a position below [k] is the copy
    of that row; and a first occurrence that holds a negative value gets
    NaN in its [m] slots, whatever the output type. *)
Theorem mnmultinom_prob_rows m n r yz (t a : F) p q index output pem k :
  (forall k', k' < n -> (0 <= get 0%Z index k')%Z) ->
  n * m <= length pem -> k < n ->
  let res := mnmultinom_prob m n r yz t a p q index output pem in
  fst res = index /\
  length (snd res) = length pem /\
  ((0 <= get 0%Z index k < Z.of_nat k)%Z ->
   forall j, j < m ->
     get fzero (snd res) (j + k * m) =
     get fzero (snd res) (j + Z.to_nat (get 0%Z index k) * m)) /\
  (get 0%Z index k = Z.of_nat k -> is_invalid yz k r = true ->
   forall j, j < m -> get fzero (snd res) (j + k * m) = fnan).
Proof.
  intros Hpos Hlen Hk. unfold mnmultinom_prob. cbv zeta.
  pose proof (Hpos 0 ltac:(lia)) as H0.
  destruct (Z.ltb_spec (get 0%Z index 0) 0) as [|_]; [lia|]. cbn [fst snd].
  set (step := mn_step m r yz t a (logp_of m r p) (logp_of m r q) output index).
  pose proof (rowloop_length step (length_mn_step _ _ _ _ _ _ _ _ _)) as Hl.
  pose proof (rowloop_below fzero m step (get_mn_step_other _ _ _ _ _ _ _ _ _))
    as Hbelow.
  pose proof (rowloop_at fzero m step (get_mn_step_other _ _ _ _ _ _ _ _ _))
    as Hat.
  split; [done|]. split; [apply Hl|]. split.
  - intros Hidx j Hj. set (k' := Z.to_nat (get 0%Z index k)).
    rewrite Hat by done. rewrite (Hbelow k n _ (j + k' * m)) by (lia || nia).
    unfold step at 1, mn_step.
    destruct (Z.ltb_spec (get 0%Z index k) (Z.of_nat k)) as [_|]; [|lia].
    rewrite get_memcpy, Hl. fold k'. case_decide; [|nia]. f_equal. lia.
  - intros Hidx Hinv j Hj. rewrite Hat by done.
    unfold step at 1, mn_step. rewrite Hidx, Z.ltb_irrefl, Hinv.
    rewrite get_memcpy, Hl. case_decide; [|nia].
    replace (j + k * m - k * m + 0) with j by lia. by apply get_repeat_lt.
Qed.
End MnFacts.

(** ** The trainer: what it never changes *)

Section TrainerFrame.
Context {F : Type} {AF : Arith F} {LM : Libm F}.
Local Notation "'same_frame' j j'" :=
  (jm j' = jm j /\ jChIP j' = jChIP j /\ ja j' = ja j /\ jpi j' = jpi j /\
   jpath j' = jpath j /\ length (jQ j') = length (jQ j) /\
   length (jp j') = length (jp j))
  (at level 10, j at level 9, j' at level 9).

Lemma bw_cycle_frame fuel index i0 R prob (jahmm : jahmm_t F) b :
  match bw_cycle fuel index i0 R prob jahmm b with
  | Continue j' _ | Converged j' _ | Aborted j' => same_frame jahmm j'
  | Starved => True
  end.
Proof.
  unfold bw_cycle. cbv zeta.
  destruct (bw_update_p _ _ _ _ _ _ _ _ _ _ _ _) as [newp| |]; [| |done].
  - destruct (bw_maxd _ _ _ _ <? TOLERANCE)%fl;
      cbn [jm jChIP ja jpi jpath jQ jp];
      rewrite ?length_memcpy, length_update_trans; done.
  - cbn [jm jChIP ja jpi jpath jQ jp]. by rewrite length_update_trans.
Qed.

Lemma bw_cycles_frame iters fuel index i0 R prob (jahmm : jahmm_t F) b :
  match bw_cycles iters fuel index i0 R prob jahmm b with
  | Continue j' _ | Converged j' _ | Aborted j' => same_frame jahmm j'
  | Starved => True
  end.
Proof.
  revert jahmm b. induction iters as [|iters IH]; intros jahmm b; [done|].
  cbn [bw_cycles].
  pose proof (bw_cycle_frame fuel index i0 R prob jahmm b) as Hc.
  destruct (bw_cycle fuel index i0 R prob jahmm b) as [j1 b1|j1 b1|j1|];
    try done.
  specialize (IH j1 b1).
  destruct (bw_cycles iters fuel index i0 R prob j1 b1) as [j2 b2|j2 b2|j2|];
    try done;
    destruct Hc as (? & ? & ? & ? & ? & ? & ?);
    destruct IH as (? & ? & ? & ? & ? & ? & ?);
    repeat split; congruence.
Qed.

(** X22.  Whatever the way [bw_zinm] returns (convergence, [MAXITER]
    cycles, or the failure of the bracketing), it has changed neither
    the number of states, nor the observations, nor [a], nor [pi], nor
    [path], and [Q] and [p] have kept their sizes: the trainer updates
    the entries of [Q] and [p], the log-likelihood, [pem] and [phi]
    only. *)
Theorem bw_zinm_frame fuel pem0 phi0 (jahmm j' : jahmm_t F) :
  bw_zinm fuel pem0 phi0 jahmm = Some j' ->
  jm j' = jm jahmm /\ jChIP j' = jChIP jahmm /\ ja j' = ja jahmm /\
  jpi j' = jpi jahmm /\ jpath j' = jpath jahmm /\
  length (jQ j') = length (jQ jahmm) /\ length (jp j') = length (jp jahmm).
Proof.
  unfold bw_zinm. cbv zeta.
  destruct (indexts _ _ _) as [i0 index].
  match goal with
  | |- context [bw_cycles ?it ?fu ?ix ?i ?R ?pr ?j ?b] =>
      pose proof (bw_cycles_frame it fu ix i R pr j b) as Hc;
      destruct (bw_cycles it fu ix i R pr j b) as [j1 b1|j1 b1|j1|]
  end; intros Hrun; try done; by injection Hrun as <-.
Qed.
End TrainerFrame.

Lemma bw_zinm_frame_witness :
  exists j',
    bw_zinm (LM := libm_ieee) 100 (repeat fzero 6) (repeat fzero 6) jahmm_NA
      = Some j' /\
    jm j' = jm jahmm_NA /\ jChIP j' = jChIP jahmm_NA /\ ja j' = ja jahmm_NA /\
    jpi j' = jpi jahmm_NA /\ jpath j' = jpath jahmm_NA /\
    length (jQ j') = length (jQ jahmm_NA) /\ length (jp j') = length (jp jahmm_NA).
Proof.
  eexists. split; [vm_compute; reflexivity|].
  apply (bw_zinm_frame (LM := libm_ieee) 100 (repeat fzero 6) (repeat fzero 6)
           jahmm_NA).
  vm_compute. reflexivity.
Defined.

(** ** Concrete runs *)

Lemma zinm_prob_invalid_row_witness :
  let index := [0; 1; 0]%Z in
  let pem' :=
    snd (zinm_prob (LM := libm_ieee) jahmm_NA index 4 (repeat fzero 6)) in
  get fzero pem' (0 + 2 * jm jahmm_NA) = fnan /\
  get fzero pem' (1 + 2 * jm jahmm_NA) = fnan.
Proof.
  intros index pem'.
  assert (H : forall j, j < jm jahmm_NA ->
            get fzero pem' (j + 2 * jm jahmm_NA) = fnan).
  { apply (zinm_prob_invalid_row (LM := libm_ieee) jahmm_NA index 4
             (repeat fzero 6) pem' 2).
    - reflexivity.
    - vm_compute. lia.
    - intros k' Hk'. vm_compute in Hk'.
      do 3 (destruct k' as [|k']; [vm_compute; discriminate|]). lia.
    - vm_compute. lia.
    - vm_compute. discriminate.
    - reflexivity.
    - intros i Hi. vm_compute in Hi.
      destruct i as [|[|i]]; [reflexivity|reflexivity|lia].
    - reflexivity. }
  split; apply H; vm_compute; lia.
Defined.

Lemma zinm_prob_frame_witness :
  let index := [0; 0; 2; 3]%Z in
  let res := zinm_prob (LM := libm_ieee) jahmm_A index 4 (repeat fone 9) in
  length (snd res) = 9 /\
  (forall x, chip_n (jChIP jahmm_A) * jm jahmm_A <= x ->
     get fzero (snd res) x = get fzero (repeat fone 9) x) /\
  (fst res <> Zinm_done -> fst res = Zinm_negative_p /\ snd res = repeat fone 9).
Proof.
  intros index res.
  apply (zinm_prob_frame (LM := libm_ieee) jahmm_A index 4 (repeat fone 9)).
  - discriminate.
  - vm_compute. lia.
  - intros k Hk. vm_compute in Hk.
    do 4 (destruct k as [|k]; [vm_compute; discriminate|]). lia.
Defined.

Lemma zinm_prob_initial_content_witness :
  let index := [0; 0; 2; 3]%Z in
  fst (zinm_prob (LM := libm_ieee) jahmm_A index 4 (repeat fone 9)) = Zinm_done /\
  forall x, x < chip_n (jChIP jahmm_A) * jm jahmm_A ->
    get fzero (snd (zinm_prob (LM := libm_ieee) jahmm_A index 4 (repeat fzero 8))) x =
    get fzero (snd (zinm_prob (LM := libm_ieee) jahmm_A index 4 (repeat fone 9))) x.
Proof.
  intros index.
  apply (zinm_prob_initial_content (LM := libm_ieee) jahmm_A index 4
           (repeat fzero 8) (repeat fone 9)).
  - vm_compute. lia.
  - vm_compute. lia.
  - intros k Hk. vm_compute in Hk.
    do 4 (destruct k as [|k]; [vm_compute; discriminate|]). lia.
  - reflexivity.
Defined.

Lemma zinm_prob_scale_invariant_witness :
  let p' := [xqc 1 1; xqc 1 2; xqc 1 4; xqc 1 4;
             xqc 1 2; xqc 1 2; xqc 1 2; xqc 1 2] in
  zinm_prob (LM := libm_fixed)
    {| jm := jm jahmm_C; jChIP := jChIP jahmm_C; jQ := jQ jahmm_C;
       ja := ja jahmm_C; jpi := jpi jahmm_C; jp := p'; jpem := jpem jahmm_C;
       jphi := jphi jahmm_C; jpath := jpath jahmm_C; jl := jl jahmm_C |}
    [0%Z] 1 (repeat fzero 2) =
  zinm_prob (LM := libm_fixed) jahmm_C [0%Z] 1 (repeat fzero 2).
Proof.
  intros p'.
  apply (zinm_prob_scale_invariant (LM := libm_fixed) jahmm_C
           (fun _ => Q2Qc 2) p' [0%Z] 1 (repeat fzero 2)).
  - discriminate.
  - intros i Hi. reflexivity.
  - intros i j Hi Hj. vm_compute in Hi, Hj.
    destruct i as [|[|i]]; [| |lia];
      (destruct j as [|[|[|[|j]]]]; [| | | |lia]); apply xq_eq_val; reflexivity.
Defined.

Lemma bw_write_newp_row_sum_witness :
  let a := xqc 1 1 in
  let pi := xqc 1 2 in
  let R := xqc 1 1 in
  let A := xqc 1 1 in
  let B := xqc 0 1 in
  let D := xqc 0 1 in
  let ystar := [xqc 0 1; xqc 1 1] in
  let p0 := xqc 1 4 in
  let C := (fone + R)%fl in
  let f := eval_bw_f (LM := libm_fixed) a pi p0 A B C D (bw_E 2 ystar) in
  let newp' :=
    bw_write_newp (LM := libm_fixed) 2 a pi R A B C D ystar p0 0 (repeat fzero 3) in
  map xq_val newp' = [Some (1 # 4); Some (1 # 4); Some (1 # 2)]%Q /\
  xq_val f = Some 0%Q /\
  sump 2 newp' 0 = (fone + C * f)%fl /\
  (f = fzero -> sump 2 newp' 0 = fone).
Proof.
  intros a pi R A B D ystar p0 C f newp'.
  split; [reflexivity|]. split; [reflexivity|].
  apply (bw_write_newp_row_sum (LM := libm_fixed) 2 a pi R A B D ystar p0 0
           (repeat fzero 3) (Q2Qc (1 # 4)) (Q2Qc 2)).
  - lia.
  - simpl. lia.
  - apply xq_eq_val. reflexivity.
  - apply xq_eq_val. reflexivity.
  - discriminate.
  - intros j Hj. assert (j = 1) as -> by lia. discriminate.
Defined.

Lemma fwd_missing_last_witness :
  let Q := [dbl 1 2; dbl 1 4; dbl 1 2; dbl 3 4] in
  let init := [dbl 1 2; dbl 1 2] in
  let prob := [dbl 1 1; dbl 1 1; fnan; dbl 1 8] in
  let alpha := snd (fwd (LM := libm_ieee) 2 1 Q init prob) in
  let alpha' := snd (fwd (LM := libm_ieee) 2 2 Q init prob) in
  alpha' = [dbl 1 2; dbl 1 2; dbl 3 8; dbl 5 8] /\
  fst (fwd (LM := libm_ieee) 2 2 Q init prob) =
    fst (fwd (LM := libm_ieee) 2 1 Q init prob) /\
  (forall x, x < 1 * 2 -> get fzero alpha' x = get fzero alpha x) /\
  slice fzero (1 * 2) 2 alpha' =
    (if Nat.eqb 1 0 then slice fzero 0 2 init
     else predict 2 (slice fzero ((1 - 1) * 2) 2 alpha) Q).
Proof.
  intros Q init prob alpha alpha'. split; [reflexivity|].
  apply (fwd_missing_last (LM := libm_ieee) 2 1 Q init prob 0).
  - simpl. lia.
  - lia.
  - reflexivity.
Defined.

Lemma mnmultinom_prob_rows_witness :
  let yz := [0; -1; 0; 0; 0; -1]%Z in
  let index := [0; 1; 0]%Z in
  let p := [dbl 1 2; dbl 1 4; dbl 1 4; dbl 1 4; dbl 1 2; dbl 1 4] in
  let q := [dbl 1 4; dbl 1 4; dbl 1 2; dbl 1 4; dbl 1 4; dbl 1 2] in
  let res :=
    mnmultinom_prob (LM := libm_ieee) 2 3 2 yz (dbl 1 2) (dbl 1 1) p q index 0
      (repeat fzero 6) in
  get fzero (snd res) 4 = fnan /\
  fst res = index /\
  length (snd res) = 6 /\
  ((0 <= get 0%Z index 2 < Z.of_nat 2)%Z ->
   forall j, j < 2 ->
     get fzero (snd res) (j + 2 * 2) =
     get fzero (snd res) (j + Z.to_nat (get 0%Z index 2) * 2)) /\
  (get 0%Z index 2 = Z.of_nat 2 -> is_invalid yz 2 2 = true ->
   forall j, j < 2 -> get fzero (snd res) (j + 2 * 2) = fnan).
Proof.
  intros yz index p q res. split; [reflexivity|].
  apply (mnmultinom_prob_rows (LM := libm_ieee) 2 3 2 yz (dbl 1 2) (dbl 1 1) p q
           index 0 (repeat fzero 6) 2).
  - intros k' Hk'.
    do 3 (destruct k' as [|k']; [vm_compute; discriminate|]). lia.
  - simpl. lia.
  - lia.
Defined.

(** ** Exact arithmetic: the recursion of the decoder *)

(** X23.  In exact arithmetic, without NaN, the inner loop of the Viterbi
    recursion is a correct argmax: for the state [j] it leaves in
    [thismax] the greatest of the sums [oldmax[i] + log_Q[i+j*m]] and in
    [argmax[j+k*m]] the first state [i] that reaches it. *)
Theorem viterbi_cell_argmax m (log_Q oldmax : list xq) j :
  0 < m ->
  (forall i, i < m ->
     (get fzero oldmax i + get fzero log_Q (i + j * m))%fl <> XNaN) ->
  let tmp i := (get fzero oldmax i + get fzero log_Q (i + j * m))%fl in
  let cell := viterbi_cell (fun x : xq => x) (fun x : xq => x) m log_Q oldmax j in
  snd cell < m /\
  fst cell = tmp (snd cell) /\
  (forall i, i < m -> (tmp i >? fst cell)%fl = false) /\
  (forall i, i < snd cell -> (tmp i <? fst cell)%fl = true).
Proof.
  intros Hm Hfin tmp cell.
  set (q := fun i => fin (tmp i)).
  assert (Htmp : forall i, i < m -> tmp i = XQ (q i)).
  { intros i Hi. specialize (Hfin i Hi). unfold q. fold (tmp i) in Hfin.
    by destruct (tmp i). }
  unfold cell, viterbi_cell. cbv beta.
  change (get fzero oldmax 0 + get fzero log_Q (0 + j * m))%fl with (tmp 0).
  set (body := fun (i : nat) (st : xq * nat) => _).
  enough (Hinv : forall n, 1 + n <= m ->
    let st := for_ 1 n body (tmp 0, 0) in
    snd st < 1 + n /\ fst st = XQ (q (snd st)) /\
    (forall i, i < 1 + n -> (q i <= q (snd st))%Qc) /\
    (forall i, i < snd st -> (q i < q (snd st))%Qc)).
  { destruct (Hinv (m - 1) ltac:(lia)) as (Harg & Hmax & Hle & Hlt).
    split; [lia|]. split; [rewrite Hmax; symmetry; apply Htmp; lia|]. split.
    - intros i Hi. rewrite Hmax, (Htmp i) by done.
      apply xq_ltb_ge. apply Hle. lia.
    - intros i Hi. rewrite Hmax, (Htmp i) by lia. apply xq_ltb_lt.
      by apply Hlt. }
  induction n as [|n IH]; intros Hn.
  - rewrite for_0. cbn [fst snd]. split; [lia|]. split; [apply Htmp; lia|].
    split; [|intros; lia]. intros i Hi. assert (i = 0) as -> by lia.
    apply Qcle_refl.
  - specialize (IH ltac:(lia)). cbv zeta in IH |- *. rewrite for_snoc.
    destruct (for_ 1 n body (tmp 0, 0)) as [tm arg]. cbn [fst snd] in IH.
    destruct IH as (Harg & Hmax & Hle & Hlt). unfold body.
    fold (tmp (1 + n)). rewrite (Htmp (1 + n)) by lia. rewrite Hmax.
    destruct (fltb (XQ (q arg)) (XQ (q (1 + n)%nat))) eqn:Hc; cbn [fst snd].
    + apply xq_ltb_lt in Hc. split; [lia|]. split; [done|]. split.
      * intros i Hi. destruct (decide (i = 1 + n)) as [->|Hne];
          [apply Qcle_refl|].
        apply Qclt_le_weak. eapply Qcle_lt_trans; [|exact Hc]. apply Hle. lia.
      * intros i Hi. eapply Qcle_lt_trans; [|exact Hc]. apply Hle. lia.
    + apply xq_ltb_ge in Hc. split; [lia|]. split; [done|]. split; [|done].
      intros i Hi. destruct (decide (i = 1 + n)) as [->|Hne]; [done|].
      apply Hle. lia.
Qed.

Lemma viterbi_cell_argmax_witness :
  let log_Q := repeat (xqc (-1) 1) 9 in
  let oldmax := [xqc (-5) 1; xqc (-3) 1; xqc (-3) 1] in
  let tmp i := (get fzero oldmax i + get fzero log_Q (i + 0 * 3))%fl in
  let cell := viterbi_cell (fun x : xq => x) (fun x : xq => x) 3 log_Q oldmax 0 in
  snd cell = 1 /\
  snd cell < 3 /\
  fst cell = tmp (snd cell) /\
  (forall i, i < 3 -> (tmp i >? fst cell)%fl = false) /\
  (forall i, i < snd cell -> (tmp i <? fst cell)%fl = true).
Proof.
  intros log_Q oldmax tmp cell. split; [reflexivity|].
  apply (viterbi_cell_argmax 3 log_Q oldmax 0); [lia|].
  intros i Hi. destruct i as [|[|[|i]]]; [discriminate|discriminate|discriminate|lia].
Defined.

(** ** Exact arithmetic: the scale of the emissions *)

Lemma xq_mul_scale_r (c : Qc) (x y : xq) :
  (x * (XQ c * y))%fl = (XQ c * (x * y))%fl.
Proof. destruct x, y; cbn; try done. f_equal. ring. Qed.

Lemma xq_scale_isnan (c : Qc) (x : xq) : isnan (XQ c * x)%fl = isnan x.
Proof.
  destruct x as [|q]; [done|]. unfold isnan.
  change (feqb (XQ c * XQ q)%fl (XQ c * XQ q)%fl)
    with (Qc_eq_bool (c * q) (c * q)).
  change (feqb (XQ q) (XQ q)) with (Qc_eq_bool q q).
  by rewrite !Qc_eq_bool_true.
Qed.

Lemma xq_scale_gtb_0 (c : Qc) (x : xq) :
  (0 < c)%Qc -> (XQ c * x >? fzero)%fl = (x >? fzero)%fl.
Proof.
  intros Hc. destruct x as [|x]; [done|].
  change (xq_ltb (XQ 0) (XQ (c * x)) = xq_ltb (XQ 0) (XQ x)).
  destruct (xq_ltb (XQ 0) (XQ x)) eqn:Hx.
  - apply xq_ltb_lt. apply xq_ltb_lt in Hx.
    replace 0%Qc with (0 * c)%Qc by ring. rewrite (Qcmult_comm c x).
    by apply Qcmult_lt_compat_r.
  - apply xq_ltb_ge. apply xq_ltb_ge in Hx.
    replace 0%Qc with (0 * c)%Qc by ring. rewrite (Qcmult_comm c x).
    apply Qcmult_le_compat_r; [done|]. by apply Qclt_le_weak.
Qed.

Section ForwardScale.
Context {LM : Libm xq}.

(** A turn of the forward loop on a row of emissions given in linear
    space, and on the same row multiplied by a positive factor. *)
Lemma fwd_step_scale m Q init k (a prob prob' : list xq) ll ll' (c : Qc) :
  0 < m -> (0 < c)%Qc ->
  (k + 1) * m <= length prob -> length prob' = length prob ->
  (get fzero prob (0 + k * m) <? fzero)%fl = false ->
  (forall j, j < m ->
     get fzero prob' (j + k * m) = (XQ c * get fzero prob (j + k * m))%fl) ->
  let st := fwd_step m Q init k (a, prob, ll) in
  let st' := fwd_step m Q init k (a, prob', ll') in
  fst (fst st') = fst (fst st) /\
  (forall j, j < m ->
     get fzero (snd (fst st')) (j + k * m) = get fzero (snd (fst st)) (j + k * m)) /\
  (forall x, ~ (k * m <= x < k * m + m) ->
     get fzero (snd (fst st')) x = get fzero prob' x /\
     get fzero (snd (fst st)) x = get fzero prob x) /\
  (length (snd (fst st')) = length prob' /\ length (snd (fst st)) = length prob).
Proof.
  intros Hm Hc Hlen Hlen' Hlin Hsc. unfold fwd_step.
  set (tmp := if Nat.eqb k 0 then slice fzero 0 m init else predict m a Q).
  assert (Hnan :
    existsb (fun j => isnan (get fzero prob' (j + k * m))) (seq 0 m) =
    existsb (fun j => isnan (get fzero prob (j + k * m))) (seq 0 m)).
  { apply existsb_ext_in. intros j Hj. apply in_seq in Hj.
    rewrite Hsc by lia. apply xq_scale_isnan. }
  assert (Hwrite : forall (v : list xq) p,
    (k + 1) * m <= length p ->
    (forall j, j < m -> get fzero (memcpy fzero (k * m) 0 m v p) (j + k * m)
                        = get fzero v j) /\
    (forall x, ~ (k * m <= x < k * m + m) ->
       get fzero (memcpy fzero (k * m) 0 m v p) x = get fzero p x)).
  { intros v p Hp. split.
    - intros j Hj. rewrite get_memcpy. case_decide; [|lia]. f_equal. lia.
    - intros x Hx. rewrite get_memcpy. case_decide; [lia|done]. }
  assert (Hfinish : forall (v : list xq) (ll1 ll2 : xq),
    let st := (v, memcpy fzero (k * m) 0 m v prob, ll1) in
    let st' := (v, memcpy fzero (k * m) 0 m v prob', ll2) in
    fst (fst st') = fst (fst st) /\
    (forall j, j < m ->
       get fzero (snd (fst st')) (j + k * m) = get fzero (snd (fst st)) (j + k * m)) /\
    (forall x, ~ (k * m <= x < k * m + m) ->
       get fzero (snd (fst st')) x = get fzero prob' x /\
       get fzero (snd (fst st)) x = get fzero prob x) /\
    (length (snd (fst st')) = length prob' /\ length (snd (fst st)) = length prob)).
  { intros v ll1 ll2. cbn [fst snd].
    destruct (Hwrite v prob Hlen) as [H1 H2].
    destruct (Hwrite v prob' ltac:(lia)) as [H1' H2'].
    split; [done|]. split; [intros j Hj; by rewrite H1, H1'|].
    split; [intros x Hx; by rewrite H2, H2'|].
    by rewrite !length_memcpy. }
  cbv zeta. rewrite Hnan. clear Hnan.
  destruct (existsb (fun j => isnan (get fzero prob (j + k * m))) (seq 0 m));
    [apply Hfinish|].
  rewrite (Hsc 0) by done.
  rewrite xq_scale_ltb_0 by done. rewrite Hlin.
  set (a1 := map (fun j => (get fzero tmp j * get fzero prob (j + k * m))%fl)
                 (seq 0 m)).
  set (a1' := map (fun j => (get fzero tmp j * get fzero prob' (j + k * m))%fl)
                  (seq 0 m)).
  assert (Hsum : vsum a1' = (XQ c * vsum a1)%fl).
  { unfold a1, a1'. rewrite !vsum_map_seq, <- xq_sumf_scale.
    apply sumf_ext. intros j Hj. rewrite Hsc by done. apply xq_mul_scale_r. }
  rewrite Hsum, xq_scale_gtb_0 by done.
  destruct (vsum a1 >? fzero)%fl eqn:Hpos; cbn [negb]; [|apply Hfinish].
  assert (Ha2 : map (fun x => (x / (XQ c * vsum a1))%fl) a1' =
                map (fun x => (x / vsum a1)%fl) a1).
  { unfold a1, a1'. rewrite !map_map. apply map_ext_in. intros j Hj.
    apply in_seq in Hj. rewrite Hsc by lia. rewrite xq_mul_scale_r.
    apply xq_scale_div. intros ->. by apply Qclt_not_eq in Hc. }
  rewrite Ha2. apply Hfinish.
Qed.
End ForwardScale.

Section ForwardScaleLoop.
Context {LM : Libm xq}.

(** X24.  In exact arithmetic, the alphas that [fwd] returns do not
    depend on the scale of the emissions given in linear space:
    multiplying the [m] emissions of each position by a positive factor
    (a term that does not depend on the state, as [zinm_prob] drops)
    changes no alpha. *)
Theorem fwd_scale_invariant m n Q init (prob prob' : list xq) (c : nat -> Qc) :
  0 < m -> n * m <= length prob -> length prob' = length prob ->
  (forall k, k < n -> (0 < c k)%Qc) ->
  (forall k, k < n -> (get fzero prob (0 + k * m) <? fzero)%fl = false) ->
  (forall k j, k < n -> j < m ->
     get fzero prob' (j + k * m) = (XQ (c k) * get fzero prob (j + k * m))%fl) ->
  forall x, x < n * m ->
    get fzero (snd (fwd m n Q init prob')) x =
    get fzero (snd (fwd m n Q init prob)) x.
Proof.
  intros Hm Hlen Hlen' Hc Hlin Hsc.
  enough (Hinv : forall K, K <= n ->
    let st := fwd_loop m K Q init prob in
    let st' := fwd_loop m K Q init prob' in
    fst (fst st') = fst (fst st) /\
    (length (snd (fst st')) = length prob' /\
     length (snd (fst st)) = length prob) /\
    (forall x, x < K * m ->
       get fzero (snd (fst st')) x = get fzero (snd (fst st)) x) /\
    (forall x, K * m <= x ->
       get fzero (snd (fst st')) x = get fzero prob' x /\
       get fzero (snd (fst st)) x = get fzero prob x)).
  { destruct (Hinv n ltac:(lia)) as (_ & _ & Hrows & _).
    unfold fwd. cbv zeta in Hrows.
    destruct (fwd_loop m n Q init prob') as [[a' p'] ll'].
    destruct (fwd_loop m n Q init prob) as [[a p] ll]. exact Hrows. }
  induction K as [|K IH]; intros HK.
  - unfold fwd_loop. rewrite !for_0. cbn [fst snd].
    split; [done|]. split; [done|]. split; [intros; lia|done].
  - specialize (IH ltac:(lia)). cbv zeta in IH |- *.
    unfold fwd_loop in *. rewrite !for_snoc, Nat.add_0_l.
    destruct (for_ 0 K (fwd_step m Q init) (repeat fzero m, prob', fzero))
      as [[a' p'] ll'].
    destruct (for_ 0 K (fwd_step m Q init) (repeat fzero m, prob, fzero))
      as [[a p] ll].
    cbn [fst snd] in IH. destruct IH as (-> & [Hl' Hl] & Hrows & Hrest).
    pose proof (fwd_step_scale m Q init K a p p' ll ll' (c K) Hm
                  (Hc K ltac:(lia)) ltac:(rewrite Hl; simpl in *; nia)
                  ltac:(by rewrite Hl', Hl)) as Hstep.
    destruct Hstep as (Ha & Hrow & Hother & [Hl1' Hl1]).
    { rewrite (proj2 (Hrest (0 + K * m) ltac:(lia))). apply Hlin. lia. }
    { intros j Hj.
      rewrite (proj1 (Hrest (j + K * m) ltac:(lia))).
      rewrite (proj2 (Hrest (j + K * m) ltac:(lia))). apply Hsc; lia. }
    split; [done|]. split; [by rewrite Hl1', Hl1|]. split.
    + intros x Hx. destruct (decide (x < K * m)) as [Hlt|Hge].
      * destruct (Hother x ltac:(lia)) as [-> ->]. by apply Hrows.
      * replace x with ((x - K * m) + K * m) by lia. apply Hrow.
        simpl in Hx. lia.
    + intros x Hx. destruct (Hother x ltac:(simpl in Hx; lia)) as [-> ->].
      apply Hrest. simpl in Hx. lia.
Qed.
End ForwardScaleLoop.

Lemma fwd_scale_invariant_witness :
  let Q := [xqc 1 2; xqc 1 4; xqc 1 2; xqc 3 4] in
  let init := [xqc 1 2; xqc 1 2] in
  let prob := [xqc 1 2; xqc 1 4; xqc 1 3; xqc 1 1] in
  let prob' := [xqc 3 2; xqc 3 4; xqc 1 6; xqc 1 2] in
  map xq_val (snd (fwd (LM := libm_fixed) 2 2 Q init prob)) =
    [Some (2 # 3); Some (1 # 3); Some (5 # 26); Some (21 # 26)]%Q /\
  forall x, x < 2 * 2 ->
    get fzero (snd (fwd (LM := libm_fixed) 2 2 Q init prob')) x =
    get fzero (snd (fwd (LM := libm_fixed) 2 2 Q init prob)) x.
Proof.
  intros Q init prob prob'. split; [reflexivity|].
  apply (fwd_scale_invariant (LM := libm_fixed) 2 2 Q init prob prob'
           (fun k => match k with 0 => Q2Qc 3 | _ => Q2Qc (1 # 2) end)).
  - lia.
  - simpl. lia.
  - reflexivity.
  - intros k Hk. destruct k as [|[|k]]; [reflexivity|reflexivity|lia].
  - intros k Hk. destruct k as [|[|k]]; [reflexivity|reflexivity|lia].
  - intros k j Hk Hj.
    destruct k as [|[|k]]; [| |lia];
      (destruct j as [|[|j]]; [| |lia]); apply xq_eq_val; reflexivity.
Defined.

(** ** Exact arithmetic: the guarded Newton iteration *)

Lemma Qc_mid_between (l h : Qc) :
  (l <= h)%Qc -> (l <= (l + h) / Q2Qc 2)%Qc /\ ((l + h) / Q2Qc 2 <= h)%Qc.
Proof.
  intros Hlh.
  assert (Htwo : Q2Qc 2 = (1 + 1)%Qc) by (apply Qc_is_canon; reflexivity).
  assert (Hhalf : (0 <= / Q2Qc 2)%Qc) by done.
  assert (Hdouble : forall x : Qc, ((x + x) * / Q2Qc 2)%Qc = x).
  { intros x. rewrite Htwo. field. discriminate. }
  unfold Qcdiv. split.
  - rewrite <- (Hdouble l) at 1.
    apply Qcmult_le_compat_r; [|done].
    apply Qcplus_le_compat; [apply Qcle_refl|done].
  - rewrite <- (Hdouble h) at 2.
    apply Qcmult_le_compat_r; [|done].
    apply Qcplus_le_compat; [done|apply Qcle_refl].
Qed.

Section Newton.
Context {LM : Libm xq}.

Lemma eval_bw_f_nan (a pi A B C D E : xq) : eval_bw_f a pi XNaN A B C D E = XNaN.
Proof. done. Qed.

(** The invariant of the Newton loop for bounds within [[l, h]]: either
    the bounds are finite and nested in [[l, h]], and [p0], once a turn
    has set it, is NaN or lies within them; or a NaN step has been
    taken, and [p0] is NaN for good. *)
Lemma bw_newton_step_inv (a pi A B C D E : xq) (l h : Qc) (s : newton_st xq) :
  ((exists lo hi, nw_lo s = XQ lo /\ nw_hi s = XQ hi /\
      (l <= lo)%Qc /\ (lo <= hi)%Qc /\ (hi <= h)%Qc) /\
   (nw_break s = false \/ nw_p0 s = XNaN \/
    exists q, nw_p0 s = XQ q /\ (l <= q)%Qc /\ (q <= h)%Qc)) \/
  (nw_p0 s = XNaN /\ nw_new s = XNaN /\ nw_break s = false) ->
  let s' := bw_newton_step a pi A B C D E s in
  ((exists lo hi, nw_lo s' = XQ lo /\ nw_hi s' = XQ hi /\
      (l <= lo)%Qc /\ (lo <= hi)%Qc /\ (hi <= h)%Qc) /\
   (nw_p0 s' = XNaN \/ exists q, nw_p0 s' = XQ q /\ (l <= q)%Qc /\ (q <= h)%Qc)) \/
  (nw_p0 s' = XNaN /\ nw_new s' = XNaN /\ nw_break s' = false).
Proof.
  intros Hinv. unfold bw_newton_step.
  destruct (nw_break s) eqn:Hb.
  { destruct Hinv as [[Hbd [?|Hp]]|(_ & _ & ?)]; [congruence|left; by split|congruence]. }
  cbv zeta.
  assert (Hnan : nw_new s = XNaN ->
    let p0 := if (nw_new s <? nw_lo s)%fl || (nw_new s >? nw_hi s)%fl
              then ((nw_lo s + nw_hi s) / of_int 2)%fl else nw_new s in
    p0 = XNaN).
  { intros ->. cbn. by destruct (nw_hi s). }
  destruct (nw_new s) as [|v] eqn:Hnew.
  { (* a NaN step *)
    right. specialize (Hnan eq_refl). cbv zeta in Hnan. rewrite Hnan.
    rewrite eval_bw_f_nan.
    change (XNaN >? fzero)%fl with false. cbv iota.
    replace (nw_hi s - XNaN <? TOLERANCE)%fl with false
      by (by destruct (nw_hi s)).
    done. }
  clear Hnan.
  destruct Hinv as [[(lo & hi & Hlo & Hhi & Hl & Hlh & Hh) _]|(_ & ? & _)];
    [|congruence].
  rewrite Hlo, Hhi.
  set (p0 := if (XQ v <? XQ lo)%fl || (XQ v >? XQ hi)%fl
             then ((XQ lo + XQ hi) / of_int 2)%fl else XQ v).
  assert (Hp0 : exists q, p0 = XQ q /\ (lo <= q)%Qc /\ (q <= hi)%Qc).
  { unfold p0.
    destruct (XQ v <? XQ lo)%fl eqn:H1; cbn [orb].
    - exists ((lo + hi) / Q2Qc 2)%Qc. split; [|by apply Qc_mid_between].
      change (XQ lo + XQ hi)%fl with (XQ (lo + hi)).
      change (of_int 2 : xq) with (XQ (Q2Qc 2)). by rewrite xq_div_fin.
    - destruct (XQ v >? XQ hi)%fl eqn:H2.
      + exists ((lo + hi) / Q2Qc 2)%Qc. split; [|by apply Qc_mid_between].
        change (XQ lo + XQ hi)%fl with (XQ (lo + hi)).
        change (of_int 2 : xq) with (XQ (Q2Qc 2)). by rewrite xq_div_fin.
      + exists v. split; [done|]. split.
        * by apply (xq_ltb_ge v lo).
        * by apply (xq_ltb_ge hi v). }
  destruct Hp0 as (q & Hq & Hloq & Hqhi). clearbody p0. subst p0.
  left.
  assert (Hq' : exists q', XQ q = XQ q' /\ (l <= q')%Qc /\ (q' <= h)%Qc).
  { exists q. split; [done|]. split; by eapply Qcle_trans. }
  destruct (eval_bw_f a pi (XQ q) A B C D E >? fzero)%fl;
    destruct (_ <? TOLERANCE)%fl; cbn [nw_lo nw_hi nw_p0];
    (split; [|by right]).
  - exists lo, q. repeat split; try done. by eapply Qcle_trans.
  - exists lo, q. repeat split; try done. by eapply Qcle_trans.
  - exists q, hi. repeat split; try done. by eapply Qcle_trans.
  - exists q, hi. repeat split; try done. by eapply Qcle_trans.
Qed.

(** X25.  In exact arithmetic, the value [p0] that the guarded Newton
    iteration of [bw_zinm] returns, when it is not NaN, lies between the
    bounds [p0_lo <= p0_hi] it started from. *)
Theorem bw_newton_within_bounds (a pi A B C D E p0 : xq) (l h q : Qc) :
  (l <= h)%Qc ->
  bw_newton a pi A B C D E p0 (XQ l) (XQ h) = XQ q ->
  (l <= q)%Qc /\ (q <= h)%Qc.
Proof.
  intros Hlh. unfold bw_newton.
  set (s0 := {| nw_p0 := p0; nw_lo := XQ l; nw_hi := XQ h;
                nw_new := ((XQ l + XQ h) / of_int 2)%fl; nw_break := false |}).
  assert (Hinv : forall n,
    let s := for_ 0 n (fun _ => bw_newton_step a pi A B C D E) s0 in
    ((exists lo hi, nw_lo s = XQ lo /\ nw_hi s = XQ hi /\
        (l <= lo)%Qc /\ (lo <= hi)%Qc /\ (hi <= h)%Qc) /\
     (nw_break s = false \/ nw_p0 s = XNaN \/
      exists q, nw_p0 s = XQ q /\ (l <= q)%Qc /\ (q <= h)%Qc)) \/
    (nw_p0 s = XNaN /\ nw_new s = XNaN /\ nw_break s = false)).
  { induction n as [|n IH].
    - left. split; [|by left]. exists l, h. repeat split; try done;
        apply Qcle_refl.
    - cbv zeta in IH |- *. rewrite for_snoc.
      destruct (bw_newton_step_inv a pi A B C D E l h _ IH) as [[Hb Hp]|Hpois].
      + left. split; [done|by right].
      + by right. }
  pose proof (Hinv (JAHMM_MAXITER - 1)) as Hlast. cbv zeta in Hlast.
  apply (bw_newton_step_inv a pi A B C D E l h) in Hlast. cbv zeta in Hlast.
  change JAHMM_MAXITER with (S (JAHMM_MAXITER - 1)). rewrite for_snoc.
  intros Hres.
  destruct Hlast as [[_ [Hn|(q' & Hq' & Hlq & Hqh)]]|(Hn & _)];
    [congruence| |congruence].
  rewrite Hq' in Hres. injection Hres as ->. done.
Qed.
End Newton.

Lemma bw_newton_within_bounds_witness :
  let a := xqc 1 1 in
  let pi := xqc 1 2 in
  let A := xqc 1 1 in
  let B := xqc 0 1 in
  let C := xqc 2 1 in
  let D := xqc 0 1 in
  let E := xqc 1 1 in
  xq_val (bw_newton (LM := libm_fixed) a pi A B C D E (xqc 1 4)
            (XQ (Q2Qc (1 # 4))) (XQ (Q2Qc (1 # 2)))) = Some (1 # 4)%Q /\
  (Q2Qc (1 # 4) <= Q2Qc (1 # 4))%Qc /\ (Q2Qc (1 # 4) <= Q2Qc (1 # 2))%Qc.
Proof.
  intros a pi A B C D E. split; [reflexivity|].
  apply (bw_newton_within_bounds (LM := libm_fixed) a pi A B C D E (xqc 1 4)
           (Q2Qc (1 # 4)) (Q2Qc (1 # 2)) (Q2Qc (1 # 4))).
  - discriminate.
  - apply xq_eq_val. reflexivity.
Defined.
